(** * jquery.mvc.js: a path-addressed model store with bindings

    A shallow embedding of [src/jquery.mvc.js] (the functions [$.modelPath],
    [$.modelWalk], the private [modelValue], [$.modelGet], [$.modelSet],
    [$.modelDelete], [$.modelDefaults], [$.modelBind], [$.modelUnbind],
    [$.modelGetBound], [$.modelTrigger], [$.modelSub] and the methods
    [$.fn.modelPath], [$.fn.modelGet], [$.fn.modelGetAll], [$.fn.modelSet],
    [$.fn.modelDelete], [$.fn.modelBind] and [$.fn.modelUnbind]) together
    with the fragment of the JavaScript runtime those functions rely on.

    Modelling choices, all of them local to the runtime fragment:
    - the model [$.model] is a tree of values.  The file header of the source
      requires the model to be free of circular references, so a location
      inside the model is addressed by the list of property keys that leads to
      it from the root, and an in-place mutation is an update at that
      location;
    - objects and arrays carry an identity tag, which is what [!==] compares;
      primitives are compared by value and [NaN] differs from itself;
    - numbers are integers or [NaN];
    - only own properties are looked up.  The property read [get_prop] is
      the read of the code on the keys that [plain_key] describes: those
      that name no member which objects and arrays inherit from their
      prototypes ([constructor], [toString], [__proto__], ...).  The
      statements about the content of the model are made for paths of such
      keys ([plain_path]), and for walks that stay inside the model: below
      [undefined] and [null] the receiver of the callback is the global
      object of the host, which is not modelled;
    - a model in which one object is stored at two places is a tree here
      and a graph in the code: the statements that compare two places of
      the model are made for a model without sharing ([unshared]);
    - observers are opaque: a notification is recorded in a log instead of
      being run, so an observer that itself writes to the model is outside
      the model;
    - a runtime conversion that is not modelled ends the run in [Unmodelled],
      a third outcome next to a normal return and a thrown exception. *)

From Stdlib Require Import List String Ascii ZArith Bool Lia PeanoNat DecimalString.
Import ListNotations.
Local Open Scope string_scope.
Local Open Scope list_scope.
Set Warnings "-register-all".

(* ===================================================================== *)
(** ** Values *)

Inductive num : Type :=
| NaN
| Int (z : Z).

Inductive value : Type :=
| VUndef
| VNull
| VBool (b : bool)
| VNum (n : num)
| VStr (s : string)
| VObj (id : nat) (fields : list (string * value))
| VArr (id : nat) (elems : list value) (props : list (string * value)).

Definition num_eqb (a b : num) : bool :=
  match a, b with
  | Int x, Int y => Z.eqb x y
  | _, _ => false
  end.

(** [a === b]: primitives by value, objects and arrays by identity. *)
Definition strict_eq (a b : value) : bool :=
  match a, b with
  | VUndef, VUndef => true
  | VNull, VNull => true
  | VBool x, VBool y => Bool.eqb x y
  | VNum x, VNum y => num_eqb x y
  | VStr x, VStr y => String.eqb x y
  | VObj i _, VObj j _ => Nat.eqb i j
  | VArr i _ _, VArr j _ _ => Nat.eqb i j
  | VObj i _, VArr j _ _ => Nat.eqb i j
  | VArr i _ _, VObj j _ => Nat.eqb i j
  | _, _ => false
  end.

Definition is_undef (v : value) : bool :=
  match v with VUndef => true | _ => false end.

Definition is_container (v : value) : bool :=
  match v with VObj _ _ | VArr _ _ _ => true | _ => false end.

(** ToBoolean *)
Definition truthy (v : value) : bool :=
  match v with
  | VUndef | VNull => false
  | VBool b => b
  | VNum NaN => false
  | VNum (Int z) => negb (Z.eqb z 0)
  | VStr s => negb (String.eqb s "")
  | VObj _ _ | VArr _ _ _ => true
  end.

(* ===================================================================== *)
(** ** Strings: decimal indices, [split], [join], [isNaN] *)

Definition is_digit (c : ascii) : bool :=
  let n := nat_of_ascii c in (48 <=? n)%nat && (n <=? 57)%nat.

Definition digit_val (c : ascii) : nat := nat_of_ascii c - 48.

Fixpoint chars (s : string) : list ascii :=
  match s with
  | EmptyString => []
  | String c r => c :: chars r
  end.

Fixpoint digits_val (acc : nat) (l : list ascii) : nat :=
  match l with
  | [] => acc
  | c :: r => digits_val (10 * acc + digit_val c) r
  end.

(** An array index is the canonical decimal rendering of an integer below
    2^32 - 1: digits only, no leading zero except for ["0"] itself. *)
Definition array_index (k : string) : option nat :=
  match chars k with
  | [] => None
  | c :: r =>
      if forallb is_digit (c :: r)
         && (negb (Ascii.eqb c "0"%char) || match r with [] => true | _ => false end)
         && (List.length (c :: r) <=? 10)%nat
      then
        let n := digits_val 0 (c :: r) in
        if (N.of_nat n <? 4294967295)%N then Some n else None
      else None
  end.

Arguments array_index : simpl never.

Fixpoint split_aux (sep : ascii) (cur : string) (s : string) : list string :=
  match s with
  | EmptyString => [cur]
  | String c r =>
      if Ascii.eqb c sep then cur :: split_aux sep "" r
      else split_aux sep (cur ++ String c "") r
  end.

(** [s.split('/')] *)
Definition split_slash (s : string) : list string := split_aux "/"%char "" s.

(** [l.join('/')] on an array of strings *)
Fixpoint join_slash (l : list string) : string :=
  match l with
  | [] => ""
  | [x] => x
  | x :: r => x ++ "/" ++ join_slash r
  end.

(** White space of a numeric string: TAB, LF, VT, FF, CR and SP. *)
Definition is_ws (c : ascii) : bool :=
  let n := nat_of_ascii c in
  ((9 <=? n)%nat && (n <=? 13)%nat) || (n =? 32)%nat.

Definition is_hex_digit (c : ascii) : bool :=
  let n := nat_of_ascii c in
  is_digit c || ((65 <=? n)%nat && (n <=? 70)%nat)
             || ((97 <=? n)%nat && (n <=? 102)%nat).

Fixpoint drop_while (f : ascii -> bool) (l : list ascii) : list ascii :=
  match l with
  | [] => []
  | c :: r => if f c then drop_while f r else l
  end.

Fixpoint take_while (f : ascii -> bool) (l : list ascii) : list ascii :=
  match l with
  | [] => []
  | c :: r => if f c then c :: take_while f r else []
  end.

Definition trim (l : list ascii) : list ascii :=
  rev (drop_while is_ws (rev (drop_while is_ws l))).

Definition is_sign (c : ascii) : bool :=
  Ascii.eqb c "+"%char || Ascii.eqb c "-"%char.

Definition drop_sign (l : list ascii) : list ascii :=
  match l with
  | c :: r => if is_sign c then r else l
  | [] => []
  end.

Definition nonempty {A} (l : list A) : bool :=
  match l with [] => false | _ => true end.

(** ExponentPart, or nothing *)
Definition exponent_opt (l : list ascii) : bool :=
  match l with
  | [] => true
  | c :: r =>
      (Ascii.eqb c "e"%char || Ascii.eqb c "E"%char)
      && nonempty (drop_sign r) && forallb is_digit (drop_sign r)
  end.

Definition ascii_list_eqb (a b : list ascii) : bool :=
  String.eqb (string_of_list_ascii a) (string_of_list_ascii b).

(** StrUnsignedDecimalLiteral *)
Definition unsigned_decimal (l : list ascii) : bool :=
  if ascii_list_eqb l (chars "Infinity") then true
  else
    let d1 := take_while is_digit l in
    match drop_while is_digit l with
    | c :: r =>
        if Ascii.eqb c "."%char then
          (nonempty d1 || nonempty (take_while is_digit r))
          && exponent_opt (drop_while is_digit r)
        else nonempty d1 && exponent_opt (c :: r)
    | [] => nonempty d1
    end.

(** HexIntegerLiteral *)
Definition hex_literal (l : list ascii) : bool :=
  match l with
  | z :: x :: r =>
      Ascii.eqb z "0"%char
      && (Ascii.eqb x "x"%char || Ascii.eqb x "X"%char)
      && nonempty r && forallb is_hex_digit r
  | _ => false
  end.

(** Does [ToNumber] of the string differ from [NaN]?  The grammar is
    StringNumericLiteral; the empty and the all-blank string convert to 0. *)
Definition numeric_string (s : string) : bool :=
  let t := trim (chars s) in
  match t with
  | [] => true
  | _ => hex_literal t || unsigned_decimal (drop_sign t)
  end.

(** A path segment: the pieces of a split string are strings, a segment
    sequence given as an array may also hold (non-negative integer)
    numbers, as in [['user',3,'info','name']]. *)
Inductive seg : Type :=
| SStr (s : string)
| SNum (n : N).

Definition seg_eqb (a b : seg) : bool :=
  match a, b with
  | SStr x, SStr y => String.eqb x y
  | SNum x, SNum y => N.eqb x y
  | _, _ => false
  end.

Definition string_of_N (n : N) : string :=
  DecimalString.NilZero.string_of_uint (N.to_uint n).

(** The property key a segment denotes, [ToString(path[i])]. *)
Definition seg_key (p : seg) : string :=
  match p with
  | SStr s => s
  | SNum n => string_of_N n
  end.

(** [isNaN(path[i])] *)
Definition seg_isNaN (p : seg) : bool :=
  match p with
  | SStr s => negb (numeric_string s)
  | SNum _ => false
  end.

(** [ToInteger(path[i])], as [splice] takes its start index.  Numeric
    strings that are not a plain signed digit string (fractions, exponents,
    hex, Infinity) are not converted by this model. *)
Definition seg_to_integer (p : seg) : option Z :=
  match p with
  | SNum n => Some (Z.of_N n)
  | SStr s =>
      if numeric_string s then
        let t := trim (chars s) in
        match t with
        | [] => Some 0%Z
        | c :: r =>
            let d := drop_sign t in
            if nonempty d && forallb is_digit d then
              let m := Z.of_nat (digits_val 0 d) in
              Some (if Ascii.eqb c "-"%char then (- m)%Z else m)
            else None
        end
      else Some 0%Z
  end.

Definition path := list seg.

(** [path.join('/')] *)
Definition path_join (p : path) : string := join_slash (map seg_key p).

(** The canonical string of a path, the [toString] that [$.modelPath]
    installs: ['/' + this.join('/')]. *)
Definition path_toString (p : path) : string := "/" ++ path_join p.

(* ===================================================================== *)
(** ** Outcomes *)

Inductive exn : Type :=
| TypeError
| ReferenceError
| RangeError.

Inductive outcome (A : Type) : Type :=
| Ret (a : A)
| Throw (e : exn)
| Unmodelled.
Arguments Ret {A} a.
Arguments Throw {A} e.
Arguments Unmodelled {A}.

(* ===================================================================== *)
(** ** Own properties of objects, arrays and strings *)

Fixpoint assoc_get (k : string) (l : list (string * value)) : option value :=
  match l with
  | [] => None
  | (k', v) :: r => if String.eqb k k' then Some v else assoc_get k r
  end.

(** Assignment keeps the position of an existing key and appends a new one. *)
Fixpoint assoc_set (k : string) (v : value) (l : list (string * value))
  : list (string * value) :=
  match l with
  | [] => [(k, v)]
  | (k', v') :: r =>
      if String.eqb k k' then (k', v) :: r else (k', v') :: assoc_set k v r
  end.

Fixpoint assoc_del (k : string) (l : list (string * value))
  : list (string * value) :=
  match l with
  | [] => []
  | (k', v') :: r =>
      if String.eqb k k' then assoc_del k r else (k', v') :: assoc_del k r
  end.

Definition opt_value (o : option value) : value :=
  match o with Some v => v | None => VUndef end.

Fixpoint list_set (i : nat) (v : value) (l : list value) : list value :=
  match i, l with
  | O, [] => [v]
  | O, _ :: r => v :: r
  | S j, [] => VUndef :: list_set j v []
  | S j, x :: r => x :: list_set j v r
  end.

Fixpoint list_remove (i : nat) (l : list value) : list value :=
  match i, l with
  | _, [] => []
  | O, _ :: r => r
  | S j, x :: r => x :: list_remove j r
  end.

(** Resize to [n] elements: truncate, or pad with holes (which read as
    [undefined]). *)
Definition list_resize (n : nat) (l : list value) : list value :=
  firstn n l ++ repeat VUndef (n - List.length l).

Definition string_char (s : string) (i : nat) : value :=
  match String.get i s with
  | Some c => VStr (String c "")
  | None => VUndef
  end.

(** [o[k]] for a value other than [undefined] and [null], as far as own
    properties go: the read of the code when [k] names no member that [o]
    inherits. *)
Definition get_prop (o : value) (k : string) : value :=
  match o with
  | VObj _ fs => opt_value (assoc_get k fs)
  | VArr _ es ps =>
      match array_index k with
      | Some i => nth i es VUndef
      | None =>
          if String.eqb k "length" then VNum (Int (Z.of_nat (List.length es)))
          else opt_value (assoc_get k ps)
      end
  | VStr s =>
      match array_index k with
      | Some i => string_char s i
      | None =>
          if String.eqb k "length" then VNum (Int (Z.of_nat (String.length s)))
          else VUndef
      end
  | _ => VUndef
  end.

(** The slot write behind [o[k] = v]; everything but the [length] of an
    array, which [put_prop] treats. *)
Definition store_prop (o : value) (k : string) (v : value) : value :=
  match o with
  | VObj id fs => VObj id (assoc_set k v fs)
  | VArr id es ps =>
      match array_index k with
      | Some i => VArr id (list_set i v es) ps
      | None =>
          if String.eqb k "length" then o
          else VArr id es (assoc_set k v ps)
      end
  | _ => o
  end.

(** [o[k] = v] on an object or array.  Assigning the [length] of an array
    resizes it when [v] is a number, and raises [RangeError] when that number
    is no valid length; the conversion of another kind of value to a length
    is not modelled. *)
Definition put_prop (o : value) (k : string) (v : value) : outcome value :=
  match o with
  | VArr id es ps =>
      match array_index k with
      | Some _ => Ret (store_prop o k v)
      | None =>
          if String.eqb k "length" then
            match v with
            | VNum (Int z) =>
                if ((0 <=? z) && (z <? 4294967296))%Z
                then Ret (VArr id (list_resize (Z.to_nat z) es) ps)
                else Throw RangeError
            | VNum NaN | VUndef => Throw RangeError
            | _ => Unmodelled
            end
          else Ret (store_prop o k v)
      end
  | _ => Ret (store_prop o k v)
  end.

(** [delete o[k]] *)
Definition delete_prop (o : value) (k : string) : value :=
  match o with
  | VObj id fs => VObj id (assoc_del k fs)
  | VArr id es ps =>
      match array_index k with
      | Some i => if (i <? List.length es)%nat then VArr id (list_set i VUndef es) ps else o
      | None =>
          if String.eqb k "length" then o
          else VArr id es (assoc_del k ps)
      end
  | _ => o
  end.

(** [a.splice(start, 1)] on the elements of an array: a negative start counts
    from the end. *)
Definition splice1 (start : Z) (es : list value) : list value :=
  let len := Z.of_nat (List.length es) in
  let from := if (start <? 0)%Z then Z.max (len + start) 0 else Z.min start len in
  list_remove (Z.to_nat from) es.

(** The value at a location of the model: follow the keys from the root. *)
Fixpoint lookup_loc (root : value) (loc : list string) : value :=
  match loc with
  | [] => root
  | k :: r => lookup_loc (get_prop root k) r
  end.

(** Replace the container at a location by [f] of it.  The model being a
    tree, the write shows at this location only; in the code it shows
    wherever the same object is stored. *)
Fixpoint update_loc (root : value) (loc : list string)
         (f : value -> outcome value) : outcome value :=
  match loc with
  | [] => f root
  | k :: r =>
      match update_loc (get_prop root k) r f with
      | Ret c => Ret (store_prop root k c)
      | Throw e => Throw e
      | Unmodelled => Unmodelled
      end
  end.

(* ===================================================================== *)
(** ** References, options and [$.modelPath] *)

(** A DOM element as [$.modelPath] sees it: its identity, its attributes,
    and the attributes of its ancestors, the closest ancestor first (the
    order of jQuery's [parents()]). *)
Record element : Type := {
  el_id : nat;
  el_attrs : list (string * string);
  el_ancestors : list (list (string * string))
}.

(** What a caller may pass where a reference is expected.  [RPath] is an
    array that [$.modelPath] has tagged with [isModelPath]; [ROther] is any
    object that is neither an array nor a DOM node (a plain object, a
    function). *)
Inductive reference : Type :=
| RUndef
| RNull
| RBool (b : bool)
| RNum (n : num)
| RStr (s : string)
| RArr (segs : path)
| RPath (segs : path)
| RElem (e : element)
| ROther (id : nat).

Definition ref_truthy (r : reference) : bool :=
  match r with
  | RUndef | RNull => false
  | RBool b => b
  | RNum NaN => false
  | RNum (Int z) => negb (Z.eqb z 0)
  | RStr s => negb (String.eqb s "")
  | _ => true
  end.

(** [$.modelOptions] *)
Record options : Type := {
  createArrays : bool;
  globalContext : reference;
  refAttr : string
}.

Definition default_options : options :=
  {| createArrays := true; globalContext := RStr "/"; refAttr := "ref" |}.

Fixpoint getAttribute (attrs : list (string * string)) (name : string)
  : option string :=
  match attrs with
  | [] => None
  | (n, v) :: r => if String.eqb n name then Some v else getAttribute r name
  end.

Definition starts_with_slash (s : string) : bool :=
  match s with
  | String c _ => Ascii.eqb c "/"%char
  | EmptyString => false
  end.

(** The local function [accumRefs], run on one node: the new [refs] and
    whether it threw (an absolute segment anchors the chain). *)
Definition accumRefs (o : options) (node : list (string * string))
           (refs : list string) : list string * bool :=
  match getAttribute node (refAttr o) with
  | Some attr => (attr :: refs, starts_with_slash attr)
  | None => (refs, false)
  end.

(** [accumRefs.call(ref); $(ref).parents('[@ref]').each(accumRefs)] inside
    the [try]: the nodes are visited in order until one throws.  The
    selector keeps only the ancestors that carry the attribute, the others
    are skipped by [accumRefs] itself. *)
Fixpoint accum_chain (o : options) (nodes : list (list (string * string)))
         (refs : list string) : list string :=
  match nodes with
  | [] => refs
  | n :: r =>
      let '(refs', thrown) := accumRefs o n refs in
      if thrown then refs' else accum_chain o r refs'
  end.

Definition element_ref (o : options) (e : element) : string :=
  join_slash (accum_chain o (el_attrs e :: el_ancestors e) []).

(** [$.modelPath(ref, context)].  The function calls itself on the context
    of a relative reference; [fuel] bounds the depth of these calls, and
    running out of it stands for the exhausted call stack of an unbounded
    recursion. *)
Fixpoint modelPath_rec (fuel : nat) (o : options) (ref context : reference)
  : outcome reference :=
  match fuel with
  | O => Throw RangeError
  | S fuel' =>
      let from_string (s : string) : outcome reference :=
        let parts := split_slash s in
        match parts with
        | "" :: rest => Ret (RPath (map SStr rest))
        | _ =>
            let ctx := if ref_truthy context then context else globalContext o in
            match modelPath_rec fuel' o ctx RUndef with
            | Ret (RPath base) => Ret (RPath (base ++ map SStr parts))
            | Ret RUndef => Throw TypeError
            | Ret _ => Unmodelled
            | Throw e => Throw e
            | Unmodelled => Unmodelled
            end
        end in
      match ref with
      | RUndef => Ret ref
      | RPath _ => Ret ref
      | RNull => Throw TypeError
      | RElem e => from_string (element_ref o e)
      | RStr s => from_string s
      | RArr segs => Ret (RPath segs)
      | RBool _ | RNum _ | ROther _ => Ret RUndef
      end
  end.

(** Three nested calls are the most a terminating resolution makes: the
    reference, its context, the global context. *)
Definition modelPath (o : options) (ref context : reference)
  : outcome reference :=
  modelPath_rec 3 o ref context.

(* ===================================================================== *)
(** ** State: the model, the options, the bindings *)

(** What [$.modelBind] stores: a function, or anything else (an element,
    the reference itself), which is later handed to [$(b).trigger]. *)
Inductive observer : Type :=
| ObsFun (f : nat)
| ObsRef (r : reference).

(** The [data] object built for each observer. *)
Record change : Type := {
  ch_value : value;
  ch_path : path;
  ch_pathIndex : nat;
  ch_parent : value
}.

(** One delivery: [b.call(data)] or [$(b).trigger('update', [data])]. *)
Inductive notification : Type :=
| Called (f : nat) (data : change)
| Updated (target : reference) (data : change).

Record state : Type := {
  model : value;
  modelOptions : options;
  modelBinding : list (string * list observer);
  next_id : nat;
  log : list notification
}.

Definition initial_state : state :=
  {| model := VObj 0 []; modelOptions := default_options;
     modelBinding := []; next_id := 1; log := [] |}.

Definition M (A : Type) : Type := state -> outcome A * state.

Definition ret {A} (a : A) : M A := fun s => (Ret a, s).
Definition throw {A} (e : exn) : M A := fun s => (Throw e, s).
Definition unmodelled {A} : M A := fun s => (Unmodelled, s).

Definition bind {A B} (m : M A) (k : A -> M B) : M B :=
  fun s =>
    match m s with
    | (Ret a, s') => k a s'
    | (Throw e, s') => (Throw e, s')
    | (Unmodelled, s') => (Unmodelled, s')
    end.

Definition lift {A} (o : outcome A) : M A := fun s => (o, s).

Declare Scope js_scope.
Delimit Scope js_scope with js.
Notation "x <- m ;; k" := (bind m (fun x => k))
  (at level 61, m at next level, right associativity) : js_scope.
Notation "m ;;; k" := (bind m (fun _ => k))
  (at level 61, right associativity) : js_scope.
Local Open Scope js_scope.

Definition set_model (v : value) (s : state) : state :=
  {| model := v; modelOptions := modelOptions s;
     modelBinding := modelBinding s; next_id := next_id s; log := log s |}.

Definition set_binding (b : list (string * list observer)) (s : state) : state :=
  {| model := model s; modelOptions := modelOptions s;
     modelBinding := b; next_id := next_id s; log := log s |}.

Definition emit (n : notification) : M unit :=
  fun s => (Ret tt,
            {| model := model s; modelOptions := modelOptions s;
               modelBinding := modelBinding s; next_id := next_id s;
               log := log s ++ [n] |}).

(** The identity of a freshly created object or array. *)
Definition fresh : M nat :=
  fun s => (Ret (next_id s),
            {| model := model s; modelOptions := modelOptions s;
               modelBinding := modelBinding s; next_id := S (next_id s);
               log := log s |}).

(** *** References into the model

    The variable [parent] of [$.modelWalk] holds either a container that
    lives in the model, named here by its location, or a value that is no
    container.  The receiver [this] of a callback is that same container,
    or, for a value that is no container, what [Function.prototype.call]
    makes of it: a wrapper object around a primitive, the global object for
    [undefined] and [null].  A wrapper keeps the properties assigned to it
    for as long as the callback's closure holds it.  The global object is
    taken to have no property named like a path segment: it is a wrapper
    without properties. *)
Inductive wval : Type :=
| WStore (loc : list string)
| WPrim (v : value).

Inductive tval : Type :=
| TStore (loc : list string)
| TWrap (prim : value) (own : list (string * value)).

Definition to_this (p : wval) : tval :=
  match p with
  | WStore loc => TStore loc
  | WPrim v => TWrap v []
  end.

Definition wval_value (p : wval) (s : state) : value :=
  match p with
  | WStore loc => lookup_loc (model s) loc
  | WPrim v => v
  end.

Definition tval_value (t : tval) (s : state) : value :=
  match t with
  | TStore loc => lookup_loc (model s) loc
  | TWrap prim _ => prim
  end.

(** [this[k]], read in the model [m] *)
Definition this_read (m : value) (t : tval) (k : string) : value :=
  match t with
  | TStore loc => get_prop (lookup_loc m loc) k
  | TWrap prim own =>
      match assoc_get k own with
      | Some v => v
      | None => get_prop prim k
      end
  end.

Definition this_get (t : tval) (k : string) : M value :=
  fun s => (Ret (this_read (model s) t k), s).

(** [this[k] = v]; the receiver is returned because a wrapper is a value
    here.  The characters and the length of a string wrapper are read-only:
    the assignment is dropped. *)
Definition this_put (t : tval) (k : string) (v : value) : M tval :=
  fun s =>
    match t with
    | TStore loc =>
        match update_loc (model s) loc (fun c => put_prop c k v) with
        | Ret m => (Ret t, set_model m s)
        | Throw e => (Throw e, s)
        | Unmodelled => (Unmodelled, s)
        end
    | TWrap prim own =>
        if is_undef (get_prop prim k)
        then (Ret (TWrap prim (assoc_set k v own)), s)
        else (Ret t, s)
    end.

(** [delete this[k]] *)
Definition this_delete (t : tval) (k : string) : M tval :=
  fun s =>
    match t with
    | TStore loc =>
        match update_loc (model s) loc (fun c => Ret (delete_prop c k)) with
        | Ret m => (Ret t, set_model m s)
        | Throw e => (Throw e, s)
        | Unmodelled => (Unmodelled, s)
        end
    | TWrap prim own => (Ret (TWrap prim (assoc_del k own)), s)
    end.

(** [this.splice(start, 1)], for a receiver that is an array of the model *)
Definition this_splice (t : tval) (start : Z) : M tval :=
  fun s =>
    match t with
    | TStore loc =>
        match update_loc (model s) loc
                (fun c => match c with
                          | VArr id es ps => Ret (VArr id (splice1 start es) ps)
                          | _ => Throw TypeError
                          end) with
        | Ret m => (Ret t, set_model m s)
        | Throw e => (Throw e, s)
        | Unmodelled => (Unmodelled, s)
        end
    | TWrap _ _ => (Throw TypeError, s)
    end.

(** What [this.splice] evaluates to: the array method, an own property that
    is truthy but no function, or something falsy. *)
Inductive splice_kind : Type :=
| SpliceMethod
| SpliceNotFunction
| NoSplice.

Definition own_splice (ps : list (string * value)) (dflt : splice_kind)
  : splice_kind :=
  match assoc_get "splice" ps with
  | Some v => if truthy v then SpliceNotFunction else NoSplice
  | None => dflt
  end.

Definition splice_of (t : tval) (s : state) : splice_kind :=
  match t with
  | TStore loc =>
      match lookup_loc (model s) loc with
      | VArr _ _ ps => own_splice ps SpliceMethod
      | VObj _ fs => own_splice fs NoSplice
      | _ => NoSplice
      end
  | TWrap _ own => own_splice own NoSplice
  end.

(* ===================================================================== *)
(** ** [$.modelWalk] *)

(** [parent = parent[path[i]]], read in the model [m] *)
Definition descend_in (m : value) (parent : wval) (sg : seg) : outcome wval :=
  match parent with
  | WStore loc =>
      let child := get_prop (lookup_loc m loc) (seg_key sg) in
      Ret (if is_container child then WStore (loc ++ [seg_key sg])
           else WPrim child)
  | WPrim VUndef | WPrim VNull => Throw TypeError
  | WPrim v => Ret (WPrim (get_prop v (seg_key sg)))
  end.

Definition descend (parent : wval) (sg : seg) : M wval :=
  fun s => (descend_in (model s) parent sg, s).

Section Walk.
(** [C] is what the callback keeps in the variables it closes over. *)
Context {C : Type}.
Variable callback : C -> tval -> path -> nat -> M C.

(** The [for] loop, at index [i] with the segments [rest] still to go. *)
Fixpoint walk_loop (p : path) (i : nat) (rest : path) (parent : wval) (c : C)
  : M (wval * C) :=
  match rest with
  | [] => ret (parent, c)
  | sg :: rest' =>
      c' <- callback c (to_this parent) p i ;;
      parent' <- descend parent sg ;;
      walk_loop p (S i) rest' parent' c'
  end.

Definition model_root (s : state) : wval :=
  if is_container (model s) then WStore [] else WPrim (model s).

(** [$.modelWalk(ref, callback, context)]: the value at the end of the
    path, and the callback's variables. *)
Definition modelWalk (ref : reference) (c0 : C) (context : reference)
  : M (value * C) :=
  fun s =>
    match modelPath (modelOptions s) ref context with
    | Ret RUndef => (Ret (VUndef, c0), s)
    | Ret (RPath p) =>
        match walk_loop p 0 p (model_root s) c0 s with
        | (Ret (parent, c), s') => (Ret (wval_value parent s', c), s')
        | (Throw e, s') => (Throw e, s')
        | (Unmodelled, s') => (Unmodelled, s')
        end
    | Ret _ => (Unmodelled, s)
    | Throw e => (Throw e, s)
    | Unmodelled => (Unmodelled, s)
    end.
End Walk.

(* ===================================================================== *)
(** ** The binding registry and [$.modelTrigger] *)

Fixpoint binding_get (key : string) (b : list (string * list observer))
  : option (list observer) :=
  match b with
  | [] => None
  | (k, os) :: r => if String.eqb key k then Some os else binding_get key r
  end.

(** [$.modelBinding[key].push(o)], after the entry was created if absent *)
Fixpoint binding_push (key : string) (o : observer)
         (b : list (string * list observer)) : list (string * list observer) :=
  match b with
  | [] => [(key, [o])]
  | (k, os) :: r =>
      if String.eqb key k then (k, os ++ [o]) :: r
      else (k, os) :: binding_push key o r
  end.

Fixpoint binding_delete (key : string) (b : list (string * list observer))
  : list (string * list observer) :=
  match b with
  | [] => []
  | (k, os) :: r =>
      if String.eqb key k then binding_delete key r
      else (k, os) :: binding_delete key r
  end.

(** [b === src] between an observer that is no function and the source of a
    write.  Two arrays are taken to be distinct objects. *)
Definition ref_same (a b : reference) : bool :=
  match a, b with
  | RUndef, RUndef => true
  | RNull, RNull => true
  | RBool x, RBool y => Bool.eqb x y
  | RNum x, RNum y => num_eqb x y
  | RStr x, RStr y => String.eqb x y
  | RElem x, RElem y => Nat.eqb (el_id x) (el_id y)
  | ROther x, ROther y => Nat.eqb x y
  | _, _ => false
  end.

Definition seg_at (p : path) (i : nat) : seg := nth i p (SStr "undefined").

(** The body of [$.each(bindings, function(n, b) {...})] for one [b]. *)
Definition notify (src : reference) (self : tval) (p : path) (i : nat)
           (b : observer) : M unit :=
  v <- this_get self (seg_key (seg_at p i)) ;;
  fun s =>
    let data := {| ch_value := v; ch_path := p; ch_pathIndex := i;
                   ch_parent := tval_value self s |} in
    match b with
    | ObsFun f => emit (Called f data) s
    | ObsRef r => if ref_same r src then (Ret tt, s) else emit (Updated r data) s
    end.

Fixpoint each {A} (l : list A) (f : A -> M unit) : M unit :=
  match l with
  | [] => ret tt
  | x :: r => f x ;;; each r f
  end.

(** The callback that [$.modelTrigger] hands to [$.modelWalk]. *)
Definition trigger_callback (src : reference) (_ : unit) (this : tval)
           (p : path) (i : nat) : M unit :=
  fun s =>
    match binding_get ("/" ++ path_join (firstn (S i) p)) (modelBinding s) with
    | Some bindings => each bindings (notify src this p i) s
    | None => (Ret tt, s)
    end.

(** [$.modelTrigger(ref, context, event, src)]; [event] is not used by the
    function. *)
Definition modelTrigger (ref context : reference) (src : reference) : M unit :=
  modelWalk (trigger_callback src) ref tt context ;;; ret tt.

(* ===================================================================== *)
(** ** [modelValue] and the operations built on it *)

Inductive mode : Type :=
| MGet      (* 0 *)
| MSet      (* 1 *)
| MDelete.  (* 2 *)

Definition is_delete (m : mode) : bool :=
  match m with MDelete => true | _ => false end.

(** The variables [parent] and [prop] that the callback assigns. *)
Definition closure : Type := option (tval * seg).

(** The empty container created along the path: [{}] or [[]]. *)
Definition new_container (o : options) (next : seg) (id : nat) : value :=
  if seg_isNaN next || negb (createArrays o) then VObj id [] else VArr id [] [].

(** The callback that [modelValue] hands to [$.modelWalk]. *)
Definition value_callback (m : mode) (_ : closure) (this : tval) (p : path)
           (i : nat) : M closure :=
  let prop := seg_at p i in
  cur <- this_get this (seg_key prop) ;;
  this' <- (if is_undef cur && (i <? List.length p - 1)%nat then
              if is_delete m then throw ReferenceError
              else
                id <- fresh ;;
                fun s => this_put this (seg_key prop)
                           (new_container (modelOptions s) (seg_at p (S i)) id) s
            else ret this) ;;
  ret (Some (this', prop)).

(** [try { ... } catch (ex) { if (mode == 2 && ex instanceof ReferenceError)
    return; else throw ex; }]: [None] stands for the early [return]. *)
Definition catch_nothing_to_delete {A} (m : mode) (body : M A) : M (option A) :=
  fun s =>
    match body s with
    | (Ret a, s') => (Ret (Some a), s')
    | (Throw ReferenceError, s') =>
        if is_delete m then (Ret None, s') else (Throw ReferenceError, s')
    | (Throw e, s') => (Throw e, s')
    | (Unmodelled, s') => (Unmodelled, s')
    end.

(** [modelValue(path, mode, value, src)] *)
Definition modelValue (pth : reference) (m : mode) (v : value) (src : reference)
  : M value :=
  walked <- catch_nothing_to_delete m (modelWalk (value_callback m) pth None RUndef) ;;
  match walked with
  | None => ret VUndef
  | Some (currval, cl) =>
      match m with
      | MSet =>
          match cl with
          | None => throw TypeError
          | Some (parent, prop) =>
              old <- this_get parent (seg_key prop) ;;
              parent' <- (if negb (strict_eq old v) then
                            parent' <- this_put parent (seg_key prop) v ;;
                            modelTrigger pth RUndef src ;;;
                            ret parent'
                          else ret parent) ;;
              this_get parent' (seg_key prop)
          end
      | MDelete =>
          match cl with
          | None => throw TypeError
          | Some (parent, prop) =>
              (fun s =>
                 match splice_of parent s with
                 | SpliceMethod =>
                     match seg_to_integer prop with
                     | Some start => this_splice parent start s
                     | None => (Unmodelled, s)
                     end
                 | SpliceNotFunction => (Throw TypeError, s)
                 | NoSplice => this_delete parent (seg_key prop) s
                 end) ;;;
              modelTrigger pth RUndef src ;;;
              ret currval
          end
      | MGet => ret currval
      end
  end.

Definition with_path {A} (ref context : reference) (k : reference -> M A) : M A :=
  fun s =>
    match modelPath (modelOptions s) ref context with
    | Ret p => k p s
    | Throw e => (Throw e, s)
    | Unmodelled => (Unmodelled, s)
    end.

(** [$.modelGet(ref, context)] *)
Definition modelGet (ref context : reference) : M value :=
  with_path ref context (fun p => modelValue p MGet VUndef RUndef).

(** [$.modelSet(ref, value, context, src)] *)
Definition modelSet (ref : reference) (v : value) (context src : reference)
  : M value :=
  with_path ref context (fun p => modelValue p MSet v src).

(** [$.modelDelete(ref, context)] *)
Definition modelDelete (ref context : reference) : M value :=
  with_path ref context (fun p => modelValue p MDelete VUndef RUndef).

(** [$.modelPath(ref, context).toString()] *)
Definition binding_key (ref context : reference) : M string :=
  with_path ref context
    (fun p => match p with
              | RPath segs => ret (path_toString segs)
              | RUndef => throw TypeError
              | _ => unmodelled
              end).

(** [$.modelBind(ref, obj, context)]; [obj] is [None] when it is omitted or
    falsy, and then the reference itself is stored. *)
Definition modelBind (ref : reference) (obj : option observer)
           (context : reference) : M unit :=
  key <- binding_key ref context ;;
  fun s =>
    (Ret tt,
     set_binding
       (binding_push key (match obj with Some o => o | None => ObsRef ref end)
                     (modelBinding s)) s).

(** [$.modelUnbind(ref, context)] *)
Definition modelUnbind (ref context : reference) : M unit :=
  key <- binding_key ref context ;;
  fun s => (Ret tt, set_binding (binding_delete key (modelBinding s)) s).

(** [$.modelGetBound(ref, context)] *)
Definition modelGetBound (ref context : reference)
  : M (option (list observer)) :=
  key <- binding_key ref context ;;
  fun s => (Ret (binding_get key (modelBinding s)), s).

(* ===================================================================== *)
(** ** [$.modelDefaults] *)

Definition string_of_nat (n : nat) : string := string_of_N (N.of_nat n).

Fixpoint index_range (i n : nat) : list string :=
  match n with
  | O => []
  | S n' => string_of_nat i :: index_range (S i) n'
  end.

(** The indices of an array that hold an element: an element that reads
    [undefined] is taken to be a hole, which [for ... in] skips. *)
Fixpoint index_keys (i : nat) (es : list value) : list string :=
  match es with
  | [] => []
  | x :: r =>
      if is_undef x then index_keys (S i) r
      else string_of_nat i :: index_keys (S i) r
  end.

(** The property names a [for (var i in prop)] loop visits. *)
Definition own_keys (v : value) : list string :=
  match v with
  | VObj _ fs => map fst fs
  | VArr _ es ps => index_keys 0 es ++ map fst ps
  | VStr s => index_range 0 (String.length s)
  | _ => []
  end.

Definition is_nullish (v : value) : bool :=
  match v with VUndef | VNull => true | _ => false end.

(** [for (var i in prop) target[i] = prop[i];] on a plain object [target] *)
Definition copy_props (target : list (string * value)) (prop : value)
  : list (string * value) :=
  fold_left (fun t k => assoc_set k (get_prop prop k) t) (own_keys prop) target.

(** [jQuery.extend(target, a1, a2, ...)] as the call in [$.modelDefaults]
    uses it, with an object as first argument and hence no deep flag:
    [while ((prop = arguments[a++]) != null) for (var i in prop)
    target[i] = prop[i];].  The function belongs to jQuery, not to this
    repository; this is the copy loop of the jQuery 1.1 line, which the
    source's [[@attr]] selectors date it to. *)
Fixpoint extend (target : list (string * value)) (args : list value)
  : list (string * value) :=
  match args with
  | [] => target
  | a :: r => if is_nullish a then target else extend (copy_props target a) r
  end.

(** [$.modelDefaults(ref, defaults)]:
    [$.modelSet(ref, $.extend({}, defaults, $.modelGet(ref)))] *)
Definition modelDefaults (ref : reference) (defaults : value) : M unit :=
  id <- fresh ;;
  cur <- modelGet ref RUndef ;;
  modelSet ref (VObj id (extend [] [defaults; cur])) RUndef RUndef ;;;
  ret tt.

(* ===================================================================== *)
(** ** Running an operation *)

Definition run {A} (m : M A) (s : state) : outcome A := fst (m s).
Definition exec {A} (m : M A) (s : state) : state := snd (m s).

Definition p_abc : reference := RStr "/a/b/c".

(* ===================================================================== *)
(** ** Predicates on the model used by the statements *)

Definition keys (p : path) : list string := map seg_key p.

(** The slot [o[k]] can hold any value: every slot but the [length] of an
    array. *)
Definition slot_ok (o : value) (k : string) : bool :=
  match o with
  | VArr _ _ _ =>
      match array_index k with
      | Some _ => true
      | None => negb (String.eqb k "length")
      end
  | _ => true
  end.

(** Every value met on the way down [ks], the last one apart, is an object
    or an array. *)
Fixpoint in_containers (root : value) (ks : list string) : bool :=
  match ks with
  | [] => true
  | k :: r =>
      is_container root && slot_ok root k && in_containers (get_prop root k) r
  end.

(** The path can be written below the container [c]: the walk meets
    containers only, until it ends or finds a segment absent. *)
Fixpoint ok_along (c : value) (rest : path) : bool :=
  match rest with
  | [] => true
  | sg :: r =>
      is_container c && slot_ok c (seg_key sg) &&
      match r with
      | [] => true
      | _ => is_undef (get_prop c (seg_key sg)) || ok_along (get_prop c (seg_key sg)) r
      end
  end.

(** No segment but the last reads as [undefined] on the walk from [parent]. *)
Fixpoint present_along (m : value) (parent : wval) (rest : path) : bool :=
  match rest with
  | [] => true
  | sg :: r =>
      match r with
      | [] => true
      | _ =>
          negb (is_undef (this_read m (to_this parent) (seg_key sg))) &&
          match descend_in m parent sg with
          | Ret w => present_along m w r
          | _ => true
          end
      end
  end.


(** The walk of [$.modelWalk] when no callback touches the model, with the
    variables that the callback of [modelValue] leaves behind. *)
Fixpoint walk_in (m : value) (parent : wval) (rest : path) (c : closure)
  : outcome (wval * closure) :=
  match rest with
  | [] => Ret (parent, c)
  | sg :: r =>
      match descend_in m parent sg with
      | Ret w => walk_in m w r (Some (to_this parent, sg))
      | Throw e => Throw e
      | Unmodelled => Unmodelled
      end
  end.

(* ===================================================================== *)
(** ** Closed forms and example states used by the statements *)

(** What the walk along [p] returns when no callback touches the model. *)
Definition walk_value (s : state) (p : path) : outcome value :=
  match walk_in (model s) (model_root s) p None with
  | Ret (w, _) => Ret (wval_value w s)
  | Throw e => Throw e
  | Unmodelled => Unmodelled
  end.

Definition store_a5 : state :=
  set_model (VObj 0 [("a", VObj 1 [("b", VNum (Int 5))])]) initial_state.

Definition bound_a : state :=
  set_binding [("/a", [ObsFun 1]); ("/a/b", [ObsFun 2])] store_a5.

(** The state after the callback created a container: a fresh identity was
    taken and the model was replaced. *)
Definition created (root' : value) (s : state) : state :=
  {| model := root'; modelOptions := modelOptions s;
     modelBinding := modelBinding s; next_id := S (next_id s); log := log s |}.

(** What one observer receives: a function is called, anything else gets
    an [update] unless it is the source of the write. *)
Definition delivery (src : reference) (data : change) (b : observer)
  : list notification :=
  match b with
  | ObsFun f => [Called f data]
  | ObsRef r => if ref_same r src then [] else [Updated r data]
  end.

(** The change record for the prefix of length [i + 1] of [p]. *)
Definition change_at (m : value) (p : path) (i : nat) : change :=
  {| ch_value := lookup_loc m (keys (firstn (S i) p));
     ch_path := p;
     ch_pathIndex := i;
     ch_parent := lookup_loc m (keys (firstn i p)) |}.

(** The deliveries made for the prefix of length [i + 1]: the observers
    registered under its canonical string, in registration order. *)
Definition deliveries_at (s : state) (src : reference) (p : path) (i : nat)
  : list notification :=
  match binding_get (path_toString (firstn (S i) p)) (modelBinding s) with
  | Some os => flat_map (delivery src (change_at (model s) p i)) os
  | None => []
  end.

(** All deliveries of one dispatch along [p]: index 0 first. *)
Definition dispatch (s : state) (src : reference) (p : path) : list notification :=
  flat_map (deliveries_at s src p) (seq 0 (List.length p)).

Definition add_log (l : list notification) (s : state) : state :=
  {| model := model s; modelOptions := modelOptions s;
     modelBinding := modelBinding s; next_id := next_id s;
     log := log s ++ l |}.

Definition store_a_is_5 : state :=
  set_model (VObj 0 [("a", VNum (Int 5))]) initial_state.

Definition watched_a1 : state :=
  set_binding [("/a", [ObsFun 1])]
    (set_model (VObj 0 [("a", VNum (Int 1))]) initial_state).

Definition notification_for (d : change) (b : observer) : notification :=
  match b with
  | ObsFun f => Called f d
  | ObsRef r => Updated r d
  end.

(** No registered observer is the source of the write. *)
Definition not_source (src : reference) (bs : list (string * list observer)) : bool :=
  forallb (fun e => forallb (fun b => match b with
                                      | ObsFun _ => true
                                      | ObsRef r => negb (ref_same r src)
                                      end) (snd e)) bs.

Definition bound_a_ab : state :=
  set_binding [("/a", [ObsFun 8; ObsFun 10]); ("/a/b", [ObsFun 9])] initial_state.

Definition store_a1 : state :=
  set_model (VObj 0 [("a", VNum (Int 1))]) initial_state.

(** [k in v], for the own enumerable properties *)
Definition has_own (v : value) (k : string) : bool :=
  existsb (String.eqb k) (own_keys v).

Definition store_x : state :=
  set_model (VObj 0 [("x", VObj 1 [("k", VNum (Int 1))])])
    {| model := VObj 0 []; modelOptions := default_options;
       modelBinding := []; next_id := 2; log := [] |}.

Definition no_arrays : state :=
  {| model := VObj 0 [];
     modelOptions := {| createArrays := false; globalContext := RStr "/";
                        refAttr := "ref" |};
     modelBinding := []; next_id := 1; log := [] |}.

(** The segments that a list of nodes declares, in the order of the nodes. *)
Definition declared (o : options) (nodes : list (list (string * string)))
  : list string :=
  flat_map (fun n => match getAttribute n (refAttr o) with
                     | Some a => [a]
                     | None => []
                     end) nodes.

(** No node of the list declares an absolute segment. *)
Definition no_anchor (o : options) (nodes : list (list (string * string))) : bool :=
  forallb (fun n => match getAttribute n (refAttr o) with
                    | Some a => negb (starts_with_slash a)
                    | None => true
                    end) nodes.


(* ===================================================================== *)
(** ** The keys and the models on which the property read is exact *)

(** The members of [Object.prototype], which every object and every array
    of the model inherits: those of the language and those that browsers
    add or once added. *)
Definition object_members : list string :=
  ["constructor"; "toString"; "toLocaleString"; "valueOf"; "hasOwnProperty";
   "isPrototypeOf"; "propertyIsEnumerable"; "__proto__"; "__defineGetter__";
   "__defineSetter__"; "__lookupGetter__"; "__lookupSetter__";
   "__noSuchMethod__"; "__count__"; "__parent__"; "toSource"; "watch";
   "unwatch"; "eval"].

(** The members of [Array.prototype], in the editions of the language up to
    that of 2023. *)
Definition array_members : list string :=
  ["concat"; "join"; "pop"; "push"; "reverse"; "shift"; "slice"; "sort";
   "splice"; "unshift"; "indexOf"; "lastIndexOf"; "every"; "some"; "forEach";
   "map"; "filter"; "reduce"; "reduceRight"; "copyWithin"; "entries"; "fill";
   "find"; "findIndex"; "findLast"; "findLastIndex"; "keys"; "values";
   "includes"; "flat"; "flatMap"; "at"; "toReversed"; "toSorted";
   "toSpliced"; "with"; "group"; "groupToMap"].

(** [o[k]] finds an inherited member when [o] is an object or an array that
    has no own property [k], in a page that adds nothing to the two
    prototypes. *)
Definition inherited_name (k : string) : bool :=
  existsb (String.eqb k) (object_members ++ array_members).

Definition ascii_only (k : string) : bool :=
  forallb (fun c => (nat_of_ascii c <? 128)%nat) (chars k).

(** A string that starts like a binary or an octal literal, which [isNaN]
    takes for a number since the 2015 edition of the language and for [NaN]
    before. *)
Definition radix_prefixed (k : string) : bool :=
  match trim (chars k) with
  | z :: x :: _ =>
      Ascii.eqb z "0"%char
      && existsb (Ascii.eqb x) ["b"%char; "B"%char; "o"%char; "O"%char]
  | _ => false
  end.

(** A key on which this model of the runtime is exact: [get_prop] on an
    object or an array is [o[k]] because the key names no inherited member,
    and [numeric_string] is [!isNaN(k)] on every engine because the key is
    made of ASCII characters (the white space of a numeric string has
    others) and is no binary or octal literal. *)
Definition plain_key (k : string) : bool :=
  negb (inherited_name k) && ascii_only k && negb (radix_prefixed k).

(** A number segment is an integer that a number holds exactly. *)
Definition plain_seg (sg : seg) : bool :=
  match sg with
  | SStr k => plain_key k
  | SNum n => (n <? 9007199254740992)%N
  end.

Definition plain_path (p : path) : bool := forallb plain_seg p.

(** [o[k]] on an object or an array with its prototype chain, in a page
    that adds nothing to the built-in prototypes: an own property if there
    is one, else the inherited member, which is a function or an object of
    the host and no value of the model ([None]), else [undefined].  The
    members of the wrappers of primitives are not listed: [None] for any
    other value. *)
Definition member_read (o : value) (k : string) : option value :=
  let inherited (names : list string) (own : option value) : option value :=
    match own with
    | Some v => Some v
    | None => if existsb (String.eqb k) names then None else Some VUndef
    end in
  match o with
  | VObj _ fs => inherited object_members (assoc_get k fs)
  | VArr _ es ps =>
      match array_index k with
      | Some i => Some (nth i es VUndef)
      | None =>
          if String.eqb k "length" then Some (get_prop o k)
          else inherited (object_members ++ array_members) (assoc_get k ps)
      end
  | _ => None
  end.

Definition is_array (v : value) : bool :=
  match v with VArr _ _ _ => true | _ => false end.

(** The identities of the objects and arrays inside a value. *)
Fixpoint ids (v : value) : list nat :=
  match v with
  | VObj i fs =>
      i :: (fix fields (l : list (string * value)) : list nat :=
              match l with
              | [] => []
              | (_, x) :: r => ids x ++ fields r
              end) fs
  | VArr i es ps =>
      i :: (fix elems (l : list value) : list nat :=
              match l with
              | [] => []
              | x :: r => ids x ++ elems r
              end) es
        ++ (fix fields (l : list (string * value)) : list nat :=
              match l with
              | [] => []
              | (_, x) :: r => ids x ++ fields r
              end) ps
  | _ => []
  end.

Fixpoint distinct (l : list nat) : bool :=
  match l with
  | [] => true
  | x :: r => negb (existsb (Nat.eqb x) r) && distinct r
  end.

(** No object or array is stored at two places of the model.  The tree of
    values then is the heap of the code: where one object is stored twice,
    a write through one place shows at the other in the code, and does not
    in a tree. *)
Definition unshared (v : value) : bool := distinct (ids v).

(** The own keys of the value are the same for a [for ... in] loop and for
    [own_keys]: an array holds no element that reads [undefined], of which
    the model cannot tell whether it is a hole, which the loop skips, or an
    element, which it visits. *)
Definition dense (v : value) : bool :=
  match v with
  | VArr _ es _ => forallb (fun x => negb (is_undef x)) es
  | _ => true
  end.

Definition store_shared : state :=
  set_model (VObj 0 [("a", VObj 1 []); ("b", VObj 1 [])]) initial_state.

(* ===================================================================== *)
(** ** [$.modelSub] *)

Definition is_open (c : ascii) : bool := Ascii.eqb c "{"%char.
Definition is_close (c : ascii) : bool := Ascii.eqb c "}"%char.
Definition is_brace (c : ascii) : bool := is_open c || is_close c.

(** The successive matches of [/\{([^\{\}]+)\}/g] in a string, as
    [re.exec] returns them one after the other: the captured group of each.
    A match is an opening brace, one or more characters that are no braces,
    and a closing brace; the search for the next match resumes after the
    closing brace.  [inside] holds, reversed, the characters read since the
    last opening brace, when there is one that can still start a match. *)
Fixpoint placeholders (inside : option (list ascii)) (l : list ascii)
  : list (list ascii) :=
  match l with
  | [] => []
  | c :: r =>
      if is_open c then placeholders (Some []) r
      else
        match inside with
        | None => placeholders None r
        | Some acc =>
            if is_close c then
              match acc with
              | [] => placeholders None r
              | _ => rev acc :: placeholders None r
              end
            else placeholders (Some (c :: acc)) r
        end
  end.

Fixpoint prefixb (needle hay : list ascii) : bool :=
  match needle, hay with
  | [], _ => true
  | _ :: _, [] => false
  | a :: n, b :: h => Ascii.eqb a b && prefixb n h
  end.

(** The first occurrence of [needle] in [hay]: what precedes it and what
    follows it. *)
Fixpoint find_first (needle hay : list ascii) : option (list ascii * list ascii) :=
  if prefixb needle hay then Some ([], skipn (List.length needle) hay)
  else
    match hay with
    | [] => None
    | c :: r =>
        match find_first needle r with
        | Some (before, after) => Some (c :: before, after)
        | None => None
        end
    end.

(** The replacement text of [String.prototype.replace] for a string
    pattern: [$$] is a dollar, [$&] the matched text, [$`] what precedes the
    match and [$'] what follows it.  With no capture to refer to, what [$]
    and a digit stand for is left to the implementation: [None]. *)
Fixpoint expand_dollar (matched before after : list ascii) (r : list ascii)
  : option (list ascii) :=
  match r with
  | [] => Some []
  | c :: r1 =>
      if Ascii.eqb c "$"%char then
        match r1 with
        | [] => Some [c]
        | c2 :: r2 =>
            if Ascii.eqb c2 "$"%char then
              option_map (cons "$"%char) (expand_dollar matched before after r2)
            else if Ascii.eqb c2 "&"%char then
              option_map (app matched) (expand_dollar matched before after r2)
            else if Ascii.eqb c2 "`"%char then
              option_map (app before) (expand_dollar matched before after r2)
            else if Ascii.eqb c2 "'"%char then
              option_map (app after) (expand_dollar matched before after r2)
            else if is_digit c2 then None
            else option_map (cons c) (expand_dollar matched before after r1)
        end
      else option_map (cons c) (expand_dollar matched before after r1)
  end.

(** [result.replace(search, replacement)] for two strings: the first
    occurrence only; no occurrence, no change. *)
Definition replace_first (result search replacement : list ascii)
  : outcome (list ascii) :=
  match find_first search result with
  | None => Ret result
  | Some (before, after) =>
      match expand_dollar search before after replacement with
      | Some text => Ret (before ++ text ++ after)
      | None => Unmodelled
      end
  end.

Definition string_of_Z (z : Z) : string :=
  if (z <? 0)%Z then "-" ++ string_of_N (Z.to_N (- z)) else string_of_N (Z.to_N z).

Fixpoint join_comma (l : list string) : string :=
  match l with
  | [] => ""
  | [x] => x
  | x :: r => x ++ "," ++ join_comma r
  end.

(** [ToString]: of an integer the decimal digits (for the integers a number
    holds exactly and prints without exponent), of an object
    ["[object Object]"], of an array its elements joined by commas, with
    [undefined] and [null] elements left empty.  An own property [toString]
    is no function in this model, and then the conversion raises
    [TypeError]; with an own property [join] the conversion of an array
    depends on the edition of the language and is not modelled. *)
Fixpoint to_string (v : value) : outcome string :=
  match v with
  | VUndef => Ret "undefined"
  | VNull => Ret "null"
  | VBool b => Ret (if b then "true" else "false")
  | VNum NaN => Ret "NaN"
  | VNum (Int z) =>
      if (Z.abs z <? 9007199254740992)%Z then Ret (string_of_Z z) else Unmodelled
  | VStr s => Ret s
  | VObj _ fs =>
      match assoc_get "toString" fs with
      | Some _ => Throw TypeError
      | None => Ret "[object Object]"
      end
  | VArr _ es ps =>
      match assoc_get "toString" ps with
      | Some _ => Throw TypeError
      | None =>
          match assoc_get "join" ps with
          | Some _ => Unmodelled
          | None =>
              match (fix elems (l : list value) : outcome (list string) :=
                       match l with
                       | [] => Ret []
                       | x :: r =>
                           match (match x with
                                  | VUndef | VNull => Ret ""
                                  | _ => to_string x
                                  end) with
                           | Ret sx =>
                               match elems r with
                               | Ret sr => Ret (sx :: sr)
                               | Throw e => Throw e
                               | Unmodelled => Unmodelled
                               end
                           | Throw e => Throw e
                           | Unmodelled => Unmodelled
                           end
                       end) es with
              | Ret l => Ret (join_comma l)
              | Throw e => Throw e
              | Unmodelled => Unmodelled
              end
          end
      end
  end.

(** The text of a match, [match[0]], from its captured group. *)
Definition placeholder_text (m : list ascii) : list ascii :=
  "{"%char :: m ++ ["}"%char].

(** The [while] loop of [$.modelSub] over the matches still to come. *)
Fixpoint sub_loop (cb : value -> value) (context : reference)
         (matches : list (list ascii)) (result : list ascii) : M (list ascii) :=
  match matches with
  | [] => ret result
  | m :: rest =>
      v <- modelGet (RStr (string_of_list_ascii m)) context ;;
      repl <- lift (to_string (cb v)) ;;
      result' <- lift (replace_first result (placeholder_text m) (chars repl)) ;;
      sub_loop cb context rest result'
  end.

(** [$.modelSub(template, callback, context)] for a template that is a
    string; [callback] is [None] when it is omitted. *)
Definition modelSub (template : string) (callback : option (value -> value))
           (context : reference) : M string :=
  let cb := match callback with Some f => f | None => fun s => s end in
  result <- sub_loop cb context (placeholders None (chars template))
                     (chars template) ;;
  ret (string_of_list_ascii result).

Definition store_pager : state :=
  set_model (VObj 0 [("pager", VObj 1 [("page", VNum (Int 2));
                                       ("pages", VNum (Int 10))])])
            initial_state.

Definition no_open (l : list ascii) : bool := forallb (fun c => negb (is_open c)) l.
Definition no_brace (l : list ascii) : bool := forallb (fun c => negb (is_brace c)) l.
Definition no_dollar (l : list ascii) : bool :=
  forallb (fun c => negb (Ascii.eqb c "$"%char)) l.

Definition store_price : state :=
  set_model (VObj 0 [("price", VStr "US$$5"); ("odd", VStr "<$&>")]) initial_state.

(** Two different keys name independent slots of any container: the second
    is not [length] (which follows the elements of an array) and the two are
    not one array index. *)
Definition independent_keys (a b : string) : bool :=
  negb (String.eqb a b)
  && negb (String.eqb b "length")
  && match array_index a, array_index b with
     | Some i, Some j => negb (Nat.eqb i j)
     | _, _ => true
     end.

(** The keys [kq] leave the keys [kp] at some position, for an independent
    slot: neither path is a prefix of the other. *)
Fixpoint diverges (kp kq : list string) : bool :=
  match kp, kq with
  | a :: rp, b :: rq =>
      if String.eqb a b then diverges rp rq else independent_keys a b
  | _, _ => false
  end.

(** [r'] differs from [r] along the keys [kp] only: at every step, the
    slots independent of the one [kp] takes read the same. *)
Fixpoint agree_off (kp : list string) (r r' : value) : Prop :=
  match kp with
  | [] => True
  | a :: rest =>
      (forall b, independent_keys a b = true -> get_prop r' b = get_prop r b)
      /\ agree_off rest (get_prop r a) (get_prop r' a)
  end.

Definition store_null : state :=
  set_model (VObj 0 [("a", VNull)]) initial_state.

(** The state but for the counter of identities. *)
Definition same_content (s s' : state) : Prop :=
  model s' = model s /\ modelOptions s' = modelOptions s
  /\ modelBinding s' = modelBinding s /\ log s' = log s.

(* ===================================================================== *)
(** ** The methods on jQuery sequences *)

(** A jQuery object, as far as these methods use it: the sequence of its
    elements. *)
Definition jq : Type := list element.

(** [$.fn.modelPath(context)] *)
Definition fn_modelPath (o : options) (this : jq) (context : reference)
  : outcome reference :=
  match this with
  | e :: _ => modelPath o (RElem e) context
  | [] => Ret RUndef
  end.

(** [$.fn.modelGet(context)]: [$.modelGet(this[0], context)] *)
Definition fn_modelGet (this : jq) (context : reference) : M value :=
  modelGet (match this with e :: _ => RElem e | [] => RUndef end) context.

Fixpoint collect (f : element -> M value) (l : list element) : M (list value) :=
  match l with
  | [] => ret []
  | e :: r => v <- f e ;; vs <- collect f r ;; ret (v :: vs)
  end.

(** [$.fn.modelGetAll(context)]: the array [r] of the values. *)
Definition fn_modelGetAll (this : jq) (context : reference) : M value :=
  id <- fresh ;;
  vs <- collect (fun e => modelGet (RElem e) context) this ;;
  ret (VArr id vs []).

(** [$.fn.modelSet(value, context, excludeSelf)] *)
Definition fn_modelSet (this : jq) (v : value) (context : reference)
           (excludeSelf : bool) : M unit :=
  each this (fun e =>
               modelSet (RElem e) v context (if excludeSelf then RElem e else RNull) ;;;
               ret tt).

(** [$.fn.modelDelete(context)] *)
Definition fn_modelDelete (this : jq) (context : reference) : M unit :=
  each this (fun e => modelDelete (RElem e) context ;;; ret tt).

(** The elements that [filter('[@' + refAttr + ']')] keeps: those that carry
    the reference attribute. *)
Definition with_ref (o : options) (this : jq) : jq :=
  filter (fun e => match getAttribute (el_attrs e) (refAttr o) with
                   | Some _ => true
                   | None => false
                   end) this.

(** What [$.fn.modelBind(context)] does to the registry:
    [$.modelBind(this, this, context)] for each element that carries the
    reference attribute.  The handlers it then subscribes to the [change],
    [update] and [click] events of these elements live in the event system
    of the host, which is not modelled. *)
Definition fn_modelBind (this : jq) (context : reference) : M unit :=
  fun s =>
    each (with_ref (modelOptions s) this)
         (fun e => modelBind (RElem e) (Some (ObsRef (RElem e))) context) s.

(** What [$.fn.modelUnbind(context)] does to the registry:
    [$.modelUnbind(this)] for each element that carries the reference
    attribute.  The context is not passed on. *)
Definition fn_modelUnbind (this : jq) (context : reference) : M unit :=
  fun s =>
    each (with_ref (modelOptions s) this)
         (fun e => modelUnbind (RElem e) RUndef) s.

Definition input_name : element :=
  {| el_id := 7; el_attrs := [("ref", "name")]; el_ancestors := [] |}.

Definition bound_input : state :=
  set_binding [("/user/name", [ObsRef (RElem input_name); ObsFun 3])] initial_state.

(** The strings substituted for the matches [ms] from the state [s] on, as
    far as the loop gets: none holds a dollar sign. *)
Fixpoint plain_values (cb : value -> value) (context : reference)
         (ms : list (list ascii)) (s : state) : bool :=
  match ms with
  | [] => true
  | m :: rest =>
      match modelGet (RStr (string_of_list_ascii m)) context s with
      | (Ret v, s') =>
          match to_string (cb v) with
          | Ret str => no_dollar (chars str) && plain_values cb context rest s'
          | _ => true
          end
      | _ => true
      end
  end.

(** A result with a text put before it. *)
Definition prepend {A} (pre : string) (r : outcome string * A) : outcome string * A :=
  match r with
  | (Ret out, a) => (Ret (pre ++ out)%string, a)
  | other => other
  end.

Definition store_ab : state :=
  set_model (VObj 0 [("a", VStr "{/b}"); ("b", VStr "B")]) initial_state.

(* ===================================================================== *)
(** ** The operations on small inputs *)

Example numeric_0 : numeric_string "0" = true. Proof. reflexivity. Qed.
Example numeric_blank : numeric_string "" = true. Proof. reflexivity. Qed.
Example numeric_exp : numeric_string " -1.5e+3 " = true. Proof. reflexivity. Qed.
Example numeric_hex : numeric_string "0x1F" = true. Proof. reflexivity. Qed.
Example numeric_word : numeric_string "name" = false. Proof. reflexivity. Qed.
Example numeric_dot : numeric_string "." = false. Proof. reflexivity. Qed.
Example split_abs : split_slash "/user/3" = [""; "user"; "3"]. Proof. reflexivity. Qed.
Example split_root : split_slash "/" = [""; ""]. Proof. reflexivity. Qed.
Example split_empty : split_slash "" = [""]. Proof. reflexivity. Qed.
Example index_10 : array_index "10" = Some 10%nat. Proof. reflexivity. Qed.
Example index_01 : array_index "01" = None. Proof. reflexivity. Qed.
Example toString_num : path_toString [SStr "user"; SNum 3] = "/user/3". Proof. reflexivity. Qed.

Example inherited_members :
  member_read (VObj 0 []) "constructor" = None
  /\ member_read (VObj 0 [("constructor", VNum (Int 1))]) "constructor"
     = Some (VNum (Int 1))
  /\ member_read (VArr 0 [] []) "map" = None
  /\ member_read (VObj 0 []) "map" = Some VUndef.
Proof. repeat split. Qed.

Lemma existsb_app_false {A} (f : A -> bool) l1 l2 :
  existsb f (l1 ++ l2) = false -> existsb f l1 = false.
Proof. rewrite existsb_app. now destruct (existsb f l1). Qed.

(** On a plain key the own-property read of an object or an array is the
    read of the code. *)
Lemma get_prop_plain o k :
  is_container o = true ->
  plain_key k = true -> member_read o k = Some (get_prop o k).
Proof.
  unfold plain_key, inherited_name. intros Hc H.
  apply andb_prop in H. destruct H as [H _].
  apply andb_prop in H. destruct H as [H _]. apply negb_true_iff in H.
  destruct o; try discriminate; cbn [member_read get_prop].
  - destruct (assoc_get k fields); [reflexivity|].
    now rewrite (existsb_app_false _ _ _ H).
  - destruct (array_index k); [reflexivity|].
    destruct (String.eqb k "length"); [reflexivity|].
    destruct (assoc_get k props); [reflexivity|]. now rewrite H.
Qed.

Example plain_keys :
  map plain_key ["name"; "0"; ""; "constructor"; "__proto__"; "map"; "0b11"]
  = [true; true; true; false; false; false; false].
Proof. reflexivity. Qed.

Example modelPath_abs :
  modelPath default_options (RStr "/user/3/info") RUndef
  = Ret (RPath [SStr "user"; SStr "3"; SStr "info"]).
Proof. reflexivity. Qed.

Example modelPath_rel :
  modelPath default_options (RStr "name") (RStr "/user/3")
  = Ret (RPath [SStr "user"; SStr "3"; SStr "name"]).
Proof. reflexivity. Qed.

Example modelPath_rel_rel :
  modelPath default_options (RStr "name") (RStr "user")
  = Ret (RPath [SStr ""; SStr "user"; SStr "name"]).
Proof. reflexivity. Qed.

Example modelPath_elem :
  modelPath default_options
    (RElem {| el_id := 1; el_attrs := [("ref", "name")];
              el_ancestors := [[("class", "x")]; [("ref", "/user/3")]; [("ref", "/top")]] |})
    RUndef
  = Ret (RPath [SStr "user"; SStr "3"; SStr "name"]).
Proof. reflexivity. Qed.

Example set_then_get_abc :
  run (modelSet p_abc (VNum (Int 1)) RUndef RUndef ;;; modelGet p_abc RUndef)
      initial_state = Ret (VNum (Int 1)).
Proof. reflexivity. Qed.

Example set_abc_model :
  model (exec (modelSet p_abc (VNum (Int 1)) RUndef RUndef) initial_state)
  = VObj 0 [("a", VObj 1 [("b", VObj 2 [("c", VNum (Int 1))])])].
Proof. reflexivity. Qed.

Example delete_abc :
  model (exec (modelSet p_abc (VNum (Int 1)) RUndef RUndef ;;;
               modelDelete p_abc RUndef) initial_state)
  = VObj 0 [("a", VObj 1 [("b", VObj 2 [])])].
Proof. reflexivity. Qed.

Example delete_from_list :
  model (exec (modelSet (RStr "/l/0") (VStr "x") RUndef RUndef ;;;
               modelSet (RStr "/l/1") (VStr "y") RUndef RUndef ;;;
               modelDelete (RStr "/l/0") RUndef) initial_state)
  = VObj 0 [("l", VArr 1 [VStr "y"] [])].
Proof. reflexivity. Qed.

(* ===================================================================== *)
(** ** Lemmas on properties and locations *)

Lemma assoc_get_set_same k v l : assoc_get k (assoc_set k v l) = Some v.
Proof.
  induction l as [|[k' v'] l IH]; simpl.
  - now rewrite String.eqb_refl.
  - destruct (String.eqb k k') eqn:E; simpl; rewrite E; auto.
Qed.

Lemma assoc_get_set_other k k' v l :
  String.eqb k k' = false -> assoc_get k (assoc_set k' v l) = assoc_get k l.
Proof.
  intros Hne. induction l as [|[k0 v0] l IH]; simpl.
  - now rewrite Hne.
  - destruct (String.eqb k' k0) eqn:E; simpl.
    + apply String.eqb_eq in E. subst k0. now rewrite Hne.
    + destruct (String.eqb k k0); auto.
Qed.

Lemma nth_list_set_same i v l : nth i (list_set i v l) VUndef = v.
Proof.
  revert l. induction i as [|i IH]; intros [|x l]; simpl; auto.
Qed.

Lemma get_store_same o k v :
  is_container o = true -> slot_ok o k = true ->
  get_prop (store_prop o k v) k = v.
Proof.
  destruct o; simpl; try discriminate; intros _ Hs.
  - now rewrite assoc_get_set_same.
  - destruct (array_index k) eqn:E.
    + simpl. rewrite E. apply nth_list_set_same.
    + destruct (String.eqb k "length") eqn:El; [discriminate|].
      simpl. rewrite E, El. now rewrite assoc_get_set_same.
Qed.

Lemma store_is_container o k v : is_container (store_prop o k v) = is_container o.
Proof.
  destruct o; simpl; auto.
  destruct (array_index k); auto. destruct (String.eqb k "length"); auto.
Qed.

Lemma store_slot_ok o k v k' : slot_ok (store_prop o k v) k' = slot_ok o k'.
Proof.
  destruct o; simpl; auto.
  destruct (array_index k); auto. destruct (String.eqb k "length"); auto.
Qed.

Lemma put_prop_ok o k v : slot_ok o k = true -> put_prop o k v = Ret (store_prop o k v).
Proof.
  destruct o; simpl; auto.
  destruct (array_index k); auto.
  destruct (String.eqb k "length"); simpl; [discriminate|auto].
Qed.

Lemma lookup_loc_app root l1 l2 :
  lookup_loc root (l1 ++ l2) = lookup_loc (lookup_loc root l1) l2.
Proof. revert root. induction l1; simpl; auto. Qed.

Lemma in_containers_app root l1 l2 :
  in_containers root (l1 ++ l2)
  = in_containers root l1 && in_containers (lookup_loc root l1) l2.
Proof.
  revert root. induction l1 as [|k l1 IH]; intros root; simpl; auto.
  rewrite IH. now rewrite andb_assoc.
Qed.

Lemma lookup_undef ks : lookup_loc VUndef ks = VUndef.
Proof. induction ks; simpl; auto. Qed.

(** Writing at a location reached through containers. *)
Lemma update_loc_ok root loc f c' :
  in_containers root loc = true ->
  f (lookup_loc root loc) = Ret c' ->
  exists root',
    update_loc root loc f = Ret root'
    /\ lookup_loc root' loc = c'
    /\ in_containers root' loc = true
    /\ (loc <> [] -> is_container root' = is_container root
                     /\ forall k, slot_ok root' k = slot_ok root k).
Proof.
  revert root. induction loc as [|k r IH]; intros root Hin Hf; simpl in *.
  - exists c'. split; [assumption|]. split; [reflexivity|]. split; [reflexivity|].
    intros Hne. now elim Hne.
  - apply andb_prop in Hin. destruct Hin as [Hin Hr].
    apply andb_prop in Hin. destruct Hin as [Hc Hs].
    destruct (IH _ Hr Hf) as (child & Hu & Hl & Hi & _).
    exists (store_prop root k child). rewrite Hu.
    split; [reflexivity|]. split; [|split].
    + now rewrite get_store_same.
    + rewrite store_is_container, store_slot_ok, Hc, Hs, get_store_same; auto.
    + intros _. split; [apply store_is_container|].
      intros k'. apply store_slot_ok.
Qed.

(* ===================================================================== *)
(** ** The walk of [modelValue] when nothing is created *)

Lemma seg_at_middle (pre : path) sg r : seg_at (pre ++ sg :: r) (List.length pre) = sg.
Proof. unfold seg_at. induction pre; simpl; auto. Qed.

Lemma last_index (pre : path) (sg : seg) :
  (List.length pre <? List.length (pre ++ [sg]) - 1)%nat = false.
Proof. rewrite length_app. simpl. apply Nat.ltb_ge. lia. Qed.

Lemma inner_index (pre : path) (sg sg' : seg) r :
  (List.length pre <? List.length (pre ++ sg :: sg' :: r) - 1)%nat = true.
Proof. rewrite length_app. simpl. apply Nat.ltb_lt. lia. Qed.

Lemma value_callback_keep m c this p i s :
  is_undef (this_read (model s) this (seg_key (seg_at p i)))
  && (i <? List.length p - 1)%nat = false ->
  value_callback m c this p i s = (Ret (Some (this, seg_at p i)), s).
Proof.
  intros H. unfold value_callback, bind, this_get, ret. now rewrite H.
Qed.


Lemma walk_present m rest :
  forall pre parent c s,
    present_along (model s) parent rest = true ->
    walk_loop (value_callback m) (pre ++ rest) (List.length pre) rest parent c s
    = (walk_in (model s) parent rest c, s).
Proof.
  induction rest as [|sg r IH]; intros pre parent c s Hp.
  - reflexivity.
  - cbn [walk_loop walk_in]. unfold bind at 1.
    rewrite value_callback_keep.
    2:{ rewrite seg_at_middle. destruct r as [|sg' r'].
        - rewrite last_index. apply andb_false_r.
        - cbn [present_along] in Hp. apply andb_prop in Hp.
          destruct Hp as [Hp _]. apply negb_true_iff in Hp. now rewrite Hp. }
    rewrite seg_at_middle. unfold bind, descend.
    destruct (descend_in (model s) parent sg) as [w|e|] eqn:Hd; auto.
    replace (pre ++ sg :: r) with ((pre ++ [sg]) ++ r) by now rewrite <- app_assoc.
    replace (S (List.length pre)) with (List.length (pre ++ [sg]))
      by (rewrite length_app; simpl; lia).
    apply IH.
    destruct r as [|sg' r']; [reflexivity|].
    cbn [present_along] in Hp. rewrite Hd in Hp.
    apply andb_prop in Hp. tauto.
Qed.


(* ===================================================================== *)
(** ** Path resolution *)

Ltac shape_from_string H :=
  match type of H with
  | context [split_slash ?s] =>
      destruct (split_slash s) as [|[|? ?] ?];
      try (injection H as <-; right; eexists; reflexivity);
      match type of H with
      | context [modelPath_rec ?f ?o ?x RUndef] =>
          destruct (modelPath_rec f o x RUndef) as [[]| |];
          try discriminate; injection H as <-; right; eexists; reflexivity
      end
  end.

Lemma modelPath_rec_shape fuel o r c p :
  modelPath_rec fuel o r c = Ret p ->
  p = RUndef \/ exists segs, p = RPath segs.
Proof.
  destruct fuel as [|fuel']; [discriminate|].
  destruct r; cbn [modelPath_rec]; intros H.
  - injection H as <-. now left.
  - discriminate.
  - injection H as <-. now left.
  - injection H as <-. now left.
  - shape_from_string H.
  - injection H as <-. right. eexists; reflexivity.
  - injection H as <-. right. eexists; reflexivity.
  - shape_from_string H.
  - injection H as <-. now left.
Qed.

Lemma modelPath_rec_step k1 k2 o r c :
  modelPath_rec k1 o (if ref_truthy c then c else globalContext o) RUndef
  = modelPath_rec k2 o (if ref_truthy c then c else globalContext o) RUndef ->
  modelPath_rec (S k1) o r c = modelPath_rec (S k2) o r c.
Proof.
  intros H. destruct r; cbn [modelPath_rec]; try reflexivity; now rewrite H.
Qed.

Lemma modelPath_rec_global_step n o :
  modelPath_rec (S (S n)) o (globalContext o) RUndef
  = modelPath_rec (S n) o (globalContext o) RUndef.
Proof.
  induction n as [|n IH].
  - destruct (globalContext o) eqn:Eg; try reflexivity.
    + cbn [modelPath_rec ref_truthy]. rewrite Eg.
      destruct (split_slash s) as [|[|a x] rest]; reflexivity.
    + cbn [modelPath_rec ref_truthy]. rewrite Eg.
      destruct (split_slash (element_ref o e)) as [|[|a x] rest]; reflexivity.
  - apply modelPath_rec_step. exact IH.
Qed.

Lemma modelPath_rec_global n o :
  modelPath_rec (S n) o (globalContext o) RUndef
  = modelPath_rec 1 o (globalContext o) RUndef.
Proof.
  induction n as [|n IH]; [reflexivity|].
  now rewrite modelPath_rec_global_step.
Qed.

(** More fuel than three changes nothing: a resolution that needs a fourth
    nested call repeats that call for ever. *)
Lemma modelPath_rec_fuel n o r c :
  modelPath_rec (3 + n) o r c = modelPath o r c.
Proof.
  unfold modelPath. cbn [Nat.add].
  apply modelPath_rec_step. apply modelPath_rec_step. cbn [ref_truthy].
  rewrite modelPath_rec_global. reflexivity.
Qed.

Lemma modelPath_of_path o segs c : modelPath o (RPath segs) c = Ret (RPath segs).
Proof. reflexivity. Qed.

Lemma modelPath_of_undef o c : modelPath o RUndef c = Ret RUndef.
Proof. reflexivity. Qed.

(** C10. Parsing is idempotent: what [$.modelPath] returned, a Path or
    [undefined], is returned as it is when it is parsed again, whatever the
    context (and whatever the options) of the second call. *)
Theorem modelPath_idempotent o1 o2 r c1 c2 p :
  modelPath o1 r c1 = Ret p ->
  modelPath o2 p c2 = Ret p.
Proof.
  intros H. apply modelPath_rec_shape in H.
  destruct H as [->|[segs ->]]; reflexivity.
Qed.

Lemma modelPath_idempotent_witness :
  modelPath default_options (RStr "name") (RStr "/user/3")
  = Ret (RPath [SStr "user"; SStr "3"; SStr "name"])
  /\ modelPath default_options (RPath [SStr "user"; SStr "3"; SStr "name"])
       (RStr "/other")
     = Ret (RPath [SStr "user"; SStr "3"; SStr "name"]).
Proof.
  split; [reflexivity|].
  apply (modelPath_idempotent default_options default_options
           (RStr "name") (RStr "/user/3") (RStr "/other")).
  reflexivity.
Defined.

(** An element whose scope chain declares no segment resolves to the root
    path, not to [undefined]. *)
Lemma empty_scope_chain_is_root o id ancestors c :
  (forall a, In a ancestors -> getAttribute a (refAttr o) = None) ->
  modelPath o (RElem {| el_id := id; el_attrs := []; el_ancestors := ancestors |}) c
  = Ret (RPath []).
Proof.
  intros H.
  assert (E : accum_chain o ([] :: ancestors) [] = []).
  { cbn. induction ancestors as [|a l IH]; [reflexivity|].
    cbn. unfold accumRefs. rewrite (H a (or_introl eq_refl)).
    apply IH. intros b Hb. apply H. now right. }
  unfold modelPath. cbn [modelPath_rec]. unfold element_ref.
  cbn [el_attrs el_ancestors]. rewrite E. reflexivity.
Qed.

(* ===================================================================== *)
(** ** Unresolvable references *)

(** C1. A number is no reference: [$.modelPath] returns [undefined] for it.
    [$.modelGet] and [$.modelTrigger] then do nothing; [$.modelSet],
    [$.modelDelete], [$.modelBind] and [$.modelUnbind] raise [TypeError]
    (they dereference the variables the walk never assigned, or call
    [toString] on [undefined]).  The store and the registry stay as they
    were in every case. *)
Theorem unresolvable_reference_outcomes s n v ctx src obj :
  modelPath (modelOptions s) (RNum n) ctx = Ret RUndef
  /\ modelGet (RNum n) ctx s = (Ret VUndef, s)
  /\ modelTrigger (RNum n) ctx src s = (Ret tt, s)
  /\ modelSet (RNum n) v ctx src s = (Throw TypeError, s)
  /\ modelDelete (RNum n) ctx s = (Throw TypeError, s)
  /\ modelBind (RNum n) obj ctx s = (Throw TypeError, s)
  /\ modelUnbind (RNum n) ctx s = (Throw TypeError, s).
Proof. repeat split. Qed.

(* ===================================================================== *)
(** ** Reading *)

Lemma with_path_resolved {A} ref ctx (k : reference -> M A) s r :
  modelPath (modelOptions s) ref ctx = Ret r ->
  with_path ref ctx k s = k r s.
Proof. intros H. unfold with_path. now rewrite H. Qed.

Lemma modelValue_get_present p v src s :
  present_along (model s) (model_root s) p = true ->
  modelValue (RPath p) MGet v src s = (walk_value s p, s).
Proof.
  intros Hp. unfold modelValue, bind, catch_nothing_to_delete, modelWalk, walk_value.
  rewrite modelPath_of_path.
  pose proof (walk_present MGet p [] (model_root s) None s Hp) as Hw.
  cbn [app List.length] in Hw. rewrite Hw.
  destruct (walk_in (model s) (model_root s) p None) as [[w c]|e|]; auto.
  destruct e; reflexivity.
Qed.

(* ===================================================================== *)
(** ** Deleting below an absent container *)





(* ===================================================================== *)
(** ** The walk of [modelValue] when containers are created *)

Lemma is_undef_eq v : is_undef v = true -> v = VUndef.
Proof. destruct v; simpl; congruence. Qed.

Lemma string_of_uint_not_length d :
  String.eqb (NilZero.string_of_uint d) "length" = false.
Proof. destruct d; reflexivity. Qed.

(** A numeric segment does not name the [length] of an array. *)
Lemma numeric_key_not_length sg :
  seg_isNaN sg = false -> String.eqb (seg_key sg) "length" = false.
Proof.
  destruct sg as [s|n]; simpl; intros H.
  - destruct (String.eqb s "length") eqn:E; auto.
    apply String.eqb_eq in E. subst s. discriminate.
  - apply string_of_uint_not_length.
Qed.

Lemma new_container_is_container o sg id :
  is_container (new_container o sg id) = true.
Proof. unfold new_container. destruct (_ || _); reflexivity. Qed.

Lemma new_container_slot_ok o sg id :
  slot_ok (new_container o sg id) (seg_key sg) = true.
Proof.
  unfold new_container.
  destruct (seg_isNaN sg) eqn:E; simpl; auto.
  destruct (createArrays o); simpl; auto.
  destruct (array_index (seg_key sg)); auto.
  now rewrite numeric_key_not_length.
Qed.

Lemma new_container_empty o sg id :
  get_prop (new_container o sg id) (seg_key sg) = VUndef.
Proof.
  unfold new_container.
  destruct (seg_isNaN sg) eqn:E; simpl; auto.
  destruct (createArrays o); simpl; auto.
  destruct (array_index (seg_key sg)) as [[|i]|]; auto.
  now rewrite numeric_key_not_length.
Qed.

Lemma ok_along_new o sg r id :
  ok_along (new_container o sg id) (sg :: r) = true.
Proof.
  cbn [ok_along].
  rewrite new_container_is_container, new_container_slot_ok, new_container_empty.
  destruct r; reflexivity.
Qed.

Lemma seg_at_next (pre : path) sg sg' r :
  seg_at (pre ++ sg :: sg' :: r) (S (List.length pre)) = sg'.
Proof. unfold seg_at. induction pre; simpl; auto. Qed.

Lemma value_callback_create m c loc p i s root' :
  is_delete m = false ->
  is_undef (this_read (model s) (TStore loc) (seg_key (seg_at p i)))
  && (i <? List.length p - 1)%nat = true ->
  update_loc (model s) loc
    (fun c => put_prop c (seg_key (seg_at p i))
                (new_container (modelOptions s) (seg_at p (S i)) (next_id s)))
  = Ret root' ->
  value_callback m c (TStore loc) p i s
  = (Ret (Some (TStore loc, seg_at p i)), created root' s).
Proof.
  intros Hm Hc Hu.
  unfold value_callback, bind, this_get, ret, fresh, this_put.
  rewrite Hc, Hm. cbn [model modelOptions]. rewrite Hu. reflexivity.
Qed.

Lemma descend_container s loc sg :
  is_container (get_prop (lookup_loc (model s) loc) (seg_key sg)) = true ->
  descend (WStore loc) sg s = (Ret (WStore (loc ++ [seg_key sg])), s).
Proof. intros H. unfold descend, descend_in. now rewrite H. Qed.

Lemma ok_along_child c sg sg' r :
  ok_along c (sg :: sg' :: r) = true ->
  is_undef (get_prop c (seg_key sg)) = false ->
  ok_along (get_prop c (seg_key sg)) (sg' :: r) = true
  /\ is_container (get_prop c (seg_key sg)) = true.
Proof.
  cbn [ok_along]. intros H Hu. rewrite Hu in H. cbn [orb] in H.
  apply andb_prop in H. destruct H as [_ H]. split; [exact H|].
  apply andb_prop in H. destruct H as [H _].
  apply andb_prop in H. tauto.
Qed.

Lemma ok_along_head c sg r :
  ok_along c (sg :: r) = true ->
  is_container c = true /\ slot_ok c (seg_key sg) = true.
Proof.
  cbn [ok_along]. intros H. apply andb_prop in H. destruct H as [H _].
  apply andb_prop in H. tauto.
Qed.

(** The walk of a get or a set along a writable path: it ends with [parent]
    and [prop] naming the last slot, every container on the way now exists,
    and the value at the end of the path is the one that was there (or
    [undefined] below a container that had to be created). *)
Lemma walk_writable m rest :
  is_delete m = false ->
  forall pre loc c s,
    rest <> [] ->
    in_containers (model s) loc = true ->
    ok_along (lookup_loc (model s) loc) rest = true ->
    exists s1 w,
      walk_loop (value_callback m) (pre ++ rest) (List.length pre) rest
                (WStore loc) c s
      = (Ret (w, Some (TStore (loc ++ keys (removelast rest)),
                       last rest (SStr ""))), s1)
      /\ in_containers (model s1) (loc ++ keys rest) = true
      /\ wval_value w s1 = lookup_loc (model s1) (loc ++ keys rest)
      /\ lookup_loc (model s1) (loc ++ keys rest)
         = lookup_loc (lookup_loc (model s) loc) (keys rest)
      /\ modelOptions s1 = modelOptions s
      /\ modelBinding s1 = modelBinding s
      /\ log s1 = log s.
Proof.
  intros Hm. induction rest as [|sg r IH]; intros pre loc c s Hne Hin Hok;
    [now elim Hne|].
  destruct (ok_along_head _ _ _ Hok) as [Hcont Hslot].
  destruct r as [|sg' r'].
  - (* the last segment *)
    exists s.
    exists (if is_container (get_prop (lookup_loc (model s) loc) (seg_key sg))
            then WStore (loc ++ [seg_key sg])
            else WPrim (get_prop (lookup_loc (model s) loc) (seg_key sg))).
    cbn [walk_loop removelast last keys map]. unfold bind at 1.
    rewrite value_callback_keep
      by (rewrite last_index; apply andb_false_r).
    rewrite seg_at_middle, app_nil_r.
    split; [reflexivity|]. split; [|split; [|split; [|auto]]].
    + rewrite in_containers_app, Hin. cbn [in_containers].
      now rewrite Hcont, Hslot.
    + rewrite lookup_loc_app. cbn [lookup_loc].
      destruct (is_container (get_prop (lookup_loc (model s) loc) (seg_key sg)));
        cbn [wval_value].
      * rewrite lookup_loc_app. reflexivity.
      * reflexivity.
    + now rewrite lookup_loc_app.
  - (* an inner segment *)
    set (p := pre ++ sg :: sg' :: r') in *.
    assert (Hp : p = (pre ++ [sg]) ++ sg' :: r')
      by (unfold p; now rewrite <- app_assoc).
    assert (Hlen : S (List.length pre) = List.length (pre ++ [sg]))
      by (rewrite length_app; simpl; lia).
    cbn [walk_loop to_this]. unfold bind at 1.
    destruct (is_undef (get_prop (lookup_loc (model s) loc) (seg_key sg))) eqn:Hu.
    + (* absent: it is created *)
      set (newc := new_container (modelOptions s) sg' (next_id s)).
      destruct (update_loc_ok (model s) loc
                  (fun c => put_prop c (seg_key sg) newc)
                  (store_prop (lookup_loc (model s) loc) (seg_key sg) newc) Hin)
        as (root' & Hup & Hlk & Hin' & _).
      { now apply put_prop_ok. }
      rewrite (value_callback_create m c loc p (List.length pre) s root' Hm).
      2:{ unfold p. rewrite seg_at_middle. cbn [this_read]. rewrite Hu.
          apply inner_index. }
      2:{ unfold p. rewrite seg_at_middle, seg_at_next. exact Hup. }
      unfold p at 1. rewrite seg_at_middle.
      assert (Hchild : get_prop (lookup_loc root' loc) (seg_key sg) = newc)
        by (rewrite Hlk; now apply get_store_same).
      unfold bind at 1. rewrite descend_container
        by (cbn [model created]; rewrite Hchild; apply new_container_is_container).
      rewrite Hp, Hlen.
      destruct (IH (pre ++ [sg]) (loc ++ [seg_key sg]) 
                   (Some (TStore loc, sg)) (created root' s))
        as (s1 & w & Hw & Hi1 & Hv1 & Hl1 & Ho & Hb & Hg).
      { discriminate. }
      { cbn [model created]. rewrite in_containers_app, Hin'.
        cbn [in_containers]. rewrite Hlk, store_is_container, store_slot_ok.
        now rewrite Hcont, Hslot. }
      { cbn [model created]. rewrite lookup_loc_app. cbn [lookup_loc].
        rewrite Hchild. apply ok_along_new. }
      exists s1, w. cbn [walk_loop] in Hw. rewrite Hw.
      cbn [removelast last keys map] in *.
      rewrite <- !app_assoc in *. cbn [app] in *.
      split; [reflexivity|]. split; [exact Hi1|]. split; [exact Hv1|].
      split; [|auto].
      rewrite Hl1. cbn [model created].
      rewrite (lookup_loc_app root' loc [seg_key sg]). cbn [lookup_loc].
      rewrite Hchild. unfold newc. rewrite new_container_empty.
      rewrite (is_undef_eq _ Hu). now rewrite !lookup_undef.
    + (* present: it is a container *)
      destruct (ok_along_child _ _ _ _ Hok Hu) as [Hok' Hc'].
      rewrite value_callback_keep
        by (unfold p; rewrite seg_at_middle; cbn [this_read]; now rewrite Hu).
      unfold p at 1. rewrite seg_at_middle.
      unfold bind at 1. rewrite descend_container by exact Hc'.
      rewrite Hp, Hlen.
      destruct (IH (pre ++ [sg]) (loc ++ [seg_key sg])
                   (Some (TStore loc, sg)) s)
        as (s1 & w & Hw & Hi1 & Hv1 & Hl1 & Ho & Hb & Hg).
      { discriminate. }
      { rewrite in_containers_app, Hin. cbn [in_containers].
        now rewrite Hcont, Hslot. }
      { rewrite lookup_loc_app. exact Hok'. }
      exists s1, w. cbn [walk_loop] in Hw. rewrite Hw.
      cbn [removelast last keys map] in *.
      rewrite <- !app_assoc in *. cbn [app] in *.
      split; [reflexivity|]. split; [exact Hi1|]. split; [exact Hv1|].
      split; [|auto].
      rewrite Hl1. now rewrite lookup_loc_app.
Qed.

(* ===================================================================== *)
(** ** Dispatch *)

Lemma add_log_nil s : add_log [] s = s.
Proof. destruct s. unfold add_log. simpl. now rewrite app_nil_r. Qed.

Lemma add_log_app l1 l2 s : add_log l2 (add_log l1 s) = add_log (l1 ++ l2) s.
Proof. unfold add_log. simpl. now rewrite app_assoc. Qed.

Lemma notify_store src loc p i b s :
  notify src (TStore loc) p i b s
  = (Ret tt,
     add_log (delivery src
                {| ch_value := get_prop (lookup_loc (model s) loc) (seg_key (seg_at p i));
                   ch_path := p; ch_pathIndex := i;
                   ch_parent := lookup_loc (model s) loc |} b) s).
Proof.
  unfold notify, bind, this_get. cbn [this_read tval_value].
  destruct b as [f|r]; cbn [delivery].
  - reflexivity.
  - destruct (ref_same r src); [now rewrite add_log_nil | reflexivity].
Qed.

Lemma each_notify src loc p i os :
  forall s,
    each os (notify src (TStore loc) p i) s
    = (Ret tt,
       add_log (flat_map
                  (delivery src
                     {| ch_value := get_prop (lookup_loc (model s) loc)
                                      (seg_key (seg_at p i));
                        ch_path := p; ch_pathIndex := i;
                        ch_parent := lookup_loc (model s) loc |}) os) s).
Proof.
  induction os as [|b os IH]; intros s; cbn [each flat_map].
  - unfold ret. now rewrite add_log_nil.
  - unfold bind. rewrite notify_store. rewrite IH.
    cbn [model add_log]. now rewrite add_log_app.
Qed.

Lemma firstn_pre {A} (pre rest : list A) : firstn (List.length pre) (pre ++ rest) = pre.
Proof. induction pre; simpl; [now destruct rest | now f_equal]. Qed.

Lemma firstn_pre_S {A} (pre : list A) x rest :
  firstn (S (List.length pre)) (pre ++ x :: rest) = pre ++ [x].
Proof. induction pre; simpl; [reflexivity | now f_equal]. Qed.

Lemma trigger_callback_store src pre sg r s :
  trigger_callback src tt (TStore (keys pre)) (pre ++ sg :: r) (List.length pre) s
  = (Ret tt, add_log (deliveries_at s src (pre ++ sg :: r) (List.length pre)) s).
Proof.
  unfold trigger_callback, deliveries_at, path_toString.
  destruct (binding_get _ (modelBinding s)) as [os|].
  - rewrite each_notify. unfold change_at.
    rewrite seg_at_middle, firstn_pre, firstn_pre_S.
    unfold keys at 3. rewrite map_app. cbn [map].
    now rewrite lookup_loc_app.
  - now rewrite add_log_nil.
Qed.

Lemma in_containers_step root pre sg sg' r :
  in_containers root (keys (pre ++ sg :: sg' :: r)) = true ->
  is_container (get_prop (lookup_loc root (keys pre)) (seg_key sg)) = true.
Proof.
  unfold keys. rewrite map_app, in_containers_app. cbn [map in_containers].
  intros H. repeat (apply andb_prop in H; destruct H as [H ?]).
  repeat match goal with
         | X : _ && _ = true |- _ => apply andb_prop in X; destruct X
         end.
  assumption.
Qed.

(** The walk of [$.modelTrigger] along a path that runs through containers:
    it delivers, index by index, what [deliveries_at] lists, and touches
    nothing but the log. *)
Lemma trigger_walk src rest :
  forall pre s,
    in_containers (model s) (keys (pre ++ rest)) = true ->
    exists w,
      walk_loop (trigger_callback src) (pre ++ rest) (List.length pre) rest
                (WStore (keys pre)) tt s
      = (Ret (w, tt),
         add_log (flat_map (deliveries_at s src (pre ++ rest))
                           (seq (List.length pre) (List.length rest))) s)
      /\ wval_value w s = lookup_loc (model s) (keys (pre ++ rest)).
Proof.
  induction rest as [|sg r IH]; intros pre s Hin.
  - exists (WStore (keys pre)). cbn [walk_loop List.length seq flat_map].
    unfold ret. rewrite add_log_nil, app_nil_r. auto.
  - cbn [walk_loop to_this]. unfold bind at 1.
    rewrite trigger_callback_store.
    set (l1 := deliveries_at s src (pre ++ sg :: r) (List.length pre)).
    assert (Hp : pre ++ sg :: r = (pre ++ [sg]) ++ r) by now rewrite <- app_assoc.
    assert (Hlen : S (List.length pre) = List.length (pre ++ [sg]))
      by (rewrite length_app; simpl; lia).
    assert (Hk : keys (pre ++ [sg]) = keys pre ++ [seg_key sg])
      by (unfold keys; now rewrite map_app).
    destruct r as [|sg' r'].
    + unfold bind, descend, descend_in. cbn [model add_log walk_loop ret].
      eexists. split.
      * cbn [List.length seq flat_map]. fold l1. rewrite app_nil_r. reflexivity.
      * rewrite Hk, lookup_loc_app. cbn [lookup_loc].
        destruct (is_container _); cbn [wval_value model add_log].
        -- now rewrite lookup_loc_app.
        -- reflexivity.
    + unfold bind at 1. rewrite descend_container
        by (cbn [model add_log]; eapply in_containers_step; eassumption).
      destruct (IH (pre ++ [sg]) (add_log l1 s)) as (w & Hw & Hv).
      { cbn [model add_log]. now rewrite <- Hp. }
      exists w. rewrite <- Hk, Hlen. rewrite <- Hp in Hw, Hv.
      rewrite Hw. split.
      * rewrite add_log_app. cbn [List.length seq flat_map]. fold l1.
        rewrite <- Hlen. reflexivity.
      * exact Hv.
Qed.

Lemma modelTrigger_in_containers src p ctx s :
  in_containers (model s) (keys p) = true ->
  p <> [] ->
  modelTrigger (RPath p) ctx src s = (Ret tt, add_log (dispatch s src p) s).
Proof.
  intros Hin Hne. unfold modelTrigger, bind, modelWalk, dispatch.
  rewrite modelPath_of_path.
  assert (Hroot : model_root s = WStore []).
  { unfold model_root. destruct p as [|sg r]; [now elim Hne|].
    cbn [keys map in_containers] in Hin.
    apply andb_prop in Hin. destruct Hin as [Hin _].
    apply andb_prop in Hin. destruct Hin as [Hc _]. now rewrite Hc. }
  rewrite Hroot.
  destruct (trigger_walk src p [] s Hin) as (w & Hw & _).
  cbn [app List.length keys map] in Hw. rewrite Hw. reflexivity.
Qed.

(* ===================================================================== *)
(** ** Writing *)

Lemma keys_removelast_last (p : path) :
  p <> [] ->
  keys (removelast p) ++ [seg_key (last p (SStr ""))] = keys p.
Proof.
  intros Hne. rewrite (app_removelast_last (SStr "") Hne) at 3.
  unfold keys. now rewrite map_app.
Qed.

Lemma ok_along_root s p :
  p <> [] -> ok_along (model s) p = true -> model_root s = WStore [].
Proof.
  intros Hne Hok. destruct p as [|sg r]; [now elim Hne|].
  destruct (ok_along_head _ _ _ Hok) as [Hc _].
  unfold model_root. now rewrite Hc.
Qed.

Lemma in_containers_root s p :
  p <> [] -> in_containers (model s) (keys p) = true -> model_root s = WStore [].
Proof.
  intros Hne Hin. destruct p as [|sg r]; [now elim Hne|].
  cbn [keys map in_containers] in Hin.
  apply andb_prop in Hin. destruct Hin as [Hin _].
  apply andb_prop in Hin. destruct Hin as [Hc _].
  unfold model_root. now rewrite Hc.
Qed.

Lemma in_containers_last root (p : path) :
  p <> [] ->
  in_containers root (keys p) = true ->
  in_containers root (keys (removelast p)) = true
  /\ is_container (lookup_loc root (keys (removelast p))) = true
  /\ slot_ok (lookup_loc root (keys (removelast p))) (seg_key (last p (SStr ""))) = true.
Proof.
  intros Hne. rewrite <- (keys_removelast_last p Hne) at 1.
  rewrite in_containers_app. cbn [in_containers]. intros H.
  apply andb_prop in H. destruct H as [H1 H2].
  apply andb_prop in H2. destruct H2 as [H2 _].
  apply andb_prop in H2. tauto.
Qed.

(** The effect of [modelValue] in set mode along a writable path. *)
Lemma modelValue_set p v src s :
  p <> [] ->
  ok_along (model s) p = true ->
  let old := lookup_loc (model s) (keys p) in
  exists s',
    modelValue (RPath p) MSet v src s
    = (Ret (if strict_eq old v then old else v), s')
    /\ in_containers (model s') (keys p) = true
    /\ lookup_loc (model s') (keys p) = (if strict_eq old v then old else v)
    /\ log s' = log s ++ (if strict_eq old v then [] else dispatch s' src p)
    /\ modelBinding s' = modelBinding s
    /\ modelOptions s' = modelOptions s.
Proof.
  intros Hne Hok old.
  destruct (walk_writable MSet p eq_refl [] [] None s Hne eq_refl Hok)
    as (s1 & w & Hw & Hin1 & Hv1 & Hl1 & Ho1 & Hb1 & Hg1).
  cbn [app List.length lookup_loc] in Hw, Hin1, Hv1, Hl1.
  fold old in Hl1.
  destruct (in_containers_last _ p Hne Hin1) as (Hinp & Hcp & Hsp).
  assert (Hold : get_prop (lookup_loc (model s1) (keys (removelast p)))
                   (seg_key (last p (SStr ""))) = old).
  { rewrite <- Hl1. rewrite <- (keys_removelast_last p Hne).
    now rewrite lookup_loc_app. }
  unfold modelValue, bind at 1, catch_nothing_to_delete, modelWalk.
  rewrite modelPath_of_path, (ok_along_root s p Hne Hok), Hw.
  unfold bind at 1, this_get at 1. cbn [this_read]. rewrite Hold.
  destruct (strict_eq old v) eqn:Heq; cbn [negb].
  - exists s1. unfold bind, ret, this_get. cbn [this_read]. rewrite Hold.
    rewrite app_nil_r. repeat split; assumption.
  - destruct (update_loc_ok (model s1) (keys (removelast p))
                (fun c => put_prop c (seg_key (last p (SStr ""))) v)
                (store_prop (lookup_loc (model s1) (keys (removelast p)))
                            (seg_key (last p (SStr ""))) v) Hinp)
      as (root2 & Hup & Hlk & Hin2 & _).
    { now apply put_prop_ok. }
    assert (Hin2' : in_containers root2 (keys p) = true).
    { rewrite <- (keys_removelast_last p Hne), in_containers_app, Hin2.
      cbn [in_containers]. rewrite Hlk, store_is_container, store_slot_ok.
      now rewrite Hcp, Hsp. }
    assert (Hnew : get_prop (lookup_loc root2 (keys (removelast p)))
                     (seg_key (last p (SStr ""))) = v)
      by (rewrite Hlk; now apply get_store_same).
    exists (add_log (dispatch (set_model root2 s1) src p) (set_model root2 s1)).
    unfold bind at 1. unfold bind at 1. unfold this_put at 1. rewrite Hup.
    unfold bind at 1.
    rewrite (modelTrigger_in_containers src p RUndef (set_model root2 s1) Hin2' Hne).
    unfold ret, this_get. cbn [this_read model add_log set_model].
    rewrite Hnew.
    split; [reflexivity|]. split; [exact Hin2'|]. split; [|split; [|auto]].
    + rewrite <- (keys_removelast_last p Hne), lookup_loc_app. exact Hnew.
    + cbn [log add_log set_model]. now rewrite Hg1.
Qed.

Lemma container_not_undef v : is_container v = true -> is_undef v = false.
Proof. destruct v; simpl; congruence. Qed.

Lemma walk_in_cons m parent sg r c :
  walk_in m parent (sg :: r) c
  = match descend_in m parent sg with
    | Ret w => walk_in m w r (Some (to_this parent, sg))
    | Throw e => Throw e
    | Unmodelled => Unmodelled
    end.
Proof. reflexivity. Qed.

(** Along a path that runs through containers nothing is absent, and the
    plain walk ends at the last slot. *)
Lemma walk_in_containers rest :
  forall loc c s,
    rest <> [] ->
    in_containers (model s) (loc ++ keys rest) = true ->
    present_along (model s) (WStore loc) rest = true
    /\ exists w,
        walk_in (model s) (WStore loc) rest c
        = Ret (w, Some (TStore (loc ++ keys (removelast rest)),
                        last rest (SStr "")))
        /\ wval_value w s = lookup_loc (model s) (loc ++ keys rest).
Proof.
  induction rest as [|sg r IH]; intros loc c s Hne Hin; [now elim Hne|].
  destruct r as [|sg' r'].
  - split; [reflexivity|].
    cbn [walk_in descend_in removelast last keys map to_this].
    rewrite app_nil_r. eexists. split; [reflexivity|].
    rewrite lookup_loc_app. cbn [lookup_loc].
    destruct (is_container _); cbn [wval_value]; [|reflexivity].
    now rewrite lookup_loc_app.
  - assert (Hc : is_container (get_prop (lookup_loc (model s) loc) (seg_key sg)) = true).
    { rewrite in_containers_app in Hin. cbn [keys map in_containers] in Hin.
      repeat match goal with
             | X : _ && _ = true |- _ => apply andb_prop in X; destruct X
             end.
      assumption. }
    destruct (IH (loc ++ [seg_key sg]) (Some (TStore loc, sg)) s) as (Hp & w & Hw & Hv).
    { discriminate. }
    { rewrite <- app_assoc. exact Hin. }
    rewrite <- !app_assoc in *. cbn [app] in *.
    split.
    + cbn [present_along to_this this_read descend_in].
      rewrite (container_not_undef _ Hc), Hc. exact Hp.
    + exists w. rewrite walk_in_cons. cbn [descend_in to_this]. rewrite Hc.
      cbn [removelast last keys map] in *. rewrite Hw. auto.
Qed.

Lemma modelValue_get_in_containers p v src s :
  p <> [] ->
  in_containers (model s) (keys p) = true ->
  modelValue (RPath p) MGet v src s = (Ret (lookup_loc (model s) (keys p)), s).
Proof.
  intros Hne Hin.
  destruct (walk_in_containers p [] None s Hne Hin) as (Hp & w & Hw & Hv).
  cbn [app] in Hw, Hv.
  pose proof (in_containers_root s p Hne Hin) as Hroot.
  rewrite modelValue_get_present by (now rewrite Hroot).
  unfold walk_value. rewrite Hroot, Hw, Hv. reflexivity.
Qed.

(** Assigning the value that is already there: nothing happens. *)
Lemma modelValue_set_same p v src s :
  p <> [] ->
  in_containers (model s) (keys p) = true ->
  strict_eq (lookup_loc (model s) (keys p)) v = true ->
  modelValue (RPath p) MSet v src s = (Ret (lookup_loc (model s) (keys p)), s).
Proof.
  intros Hne Hin Heq.
  destruct (walk_in_containers p [] None s Hne Hin) as (Hp & w & Hw & Hv).
  cbn [app] in Hw, Hv.
  pose proof (in_containers_root s p Hne Hin) as Hroot.
  rewrite <- Hroot in Hp, Hw.
  pose proof (walk_present MSet p [] (model_root s) None s Hp) as Hwalk.
  cbn [app List.length] in Hwalk.
  assert (Hold : get_prop (lookup_loc (model s) (keys (removelast p)))
                   (seg_key (last p (SStr ""))) = lookup_loc (model s) (keys p)).
  { rewrite <- (keys_removelast_last p Hne). now rewrite lookup_loc_app. }
  unfold modelValue, bind at 1, catch_nothing_to_delete, modelWalk.
  rewrite modelPath_of_path, Hwalk, Hw.
  unfold bind, this_get, ret. cbn [this_read]. rewrite Hold, Heq.
  cbn [negb this_read]. now rewrite Hold.
Qed.

Lemma strict_eq_refl v : v <> VNum NaN -> strict_eq v v = true.
Proof.
  destruct v as [| |b|[|z]|x|i f|i e q]; simpl; intros H;
    solve [ reflexivity | now destruct b | now elim H | apply Z.eqb_refl
          | apply String.eqb_refl | apply Nat.eqb_refl ].
Qed.

(** C3 (as amended). Along a writable path of plain keys (not the root
    path; no segment names an inherited member; every value met before the
    last segment is an object or an array, or is absent and then created;
    the last slot is not the [length] of an array), [$.modelSet] returns
    the assigned value and a following [$.modelGet] yields it.  The identity
    hypothesis says that an object identical to the stored one is the
    stored one, as it is for any two references to one object. *)
Theorem set_then_get s ref ctx src p v :
  modelPath (modelOptions s) ref ctx = Ret (RPath p) ->
  p <> [] ->
  plain_path p = true ->
  ok_along (model s) p = true ->
  (strict_eq (lookup_loc (model s) (keys p)) v = true ->
   lookup_loc (model s) (keys p) = v) ->
  exists s',
    modelSet ref v ctx src s = (Ret v, s')
    /\ modelGet ref ctx s' = (Ret v, s').
Proof.
  intros Hr Hne _ Hok Hid.
  destruct (modelValue_set p v src s Hne Hok)
    as (s' & Hset & Hin & Hlk & _ & _ & Ho).
  assert (Hv : (if strict_eq (lookup_loc (model s) (keys p)) v
                then lookup_loc (model s) (keys p) else v) = v).
  { destruct (strict_eq _ v) eqn:E; auto. }
  rewrite Hv in Hset, Hlk.
  exists s'. split.
  - unfold modelSet. now rewrite (with_path_resolved _ _ _ _ _ Hr).
  - unfold modelGet. rewrite <- Ho in Hr.
    rewrite (with_path_resolved _ _ _ _ _ Hr).
    rewrite (modelValue_get_in_containers p VUndef RUndef s' Hne Hin).
    now rewrite Hlk.
Qed.

Lemma set_then_get_witness :
  exists s',
    modelSet (RStr "/a/b/c") (VNum (Int 1)) RUndef RUndef initial_state
    = (Ret (VNum (Int 1)), s')
    /\ modelGet (RStr "/a/b/c") RUndef s' = (Ret (VNum (Int 1)), s').
Proof.
  apply (set_then_get initial_state (RStr "/a/b/c") RUndef RUndef
           [SStr "a"; SStr "b"; SStr "c"] (VNum (Int 1))).
  - reflexivity.
  - discriminate.
  - reflexivity.
  - reflexivity.
  - simpl. discriminate.
Defined.

(** A set below a primitive is lost, and a set of the root path throws. *)
Lemma set_below_primitive_is_lost :
  modelPath (modelOptions store_a_is_5) (RStr "/a/b") RUndef
  = Ret (RPath [SStr "a"; SStr "b"])
  /\ run (modelSet (RStr "/a/b") (VNum (Int 1)) RUndef RUndef) store_a_is_5
     = Ret (VNum (Int 1))
  /\ run (modelSet (RStr "/a/b") (VNum (Int 1)) RUndef RUndef ;;;
          modelGet (RStr "/a/b") RUndef) store_a_is_5
     = Ret VUndef
  /\ modelPath default_options (RStr "") RUndef = Ret (RPath [])
  /\ run (modelSet (RStr "") (VNum (Int 1)) RUndef RUndef) initial_state
     = Throw TypeError.
Proof. repeat split. Qed.

(** C4 (as amended). Along a writable path of plain keys and for a value
    other than [NaN], the second of two equal sets changes nothing at all
    and fires nothing; the first one dispatches once when the stored value
    was not already the assigned one, and not at all when it was. *)
Theorem set_twice s ref ctx src p v :
  modelPath (modelOptions s) ref ctx = Ret (RPath p) ->
  p <> [] ->
  plain_path p = true ->
  ok_along (model s) p = true ->
  (strict_eq (lookup_loc (model s) (keys p)) v = true ->
   lookup_loc (model s) (keys p) = v) ->
  v <> VNum NaN ->
  exists s1,
    modelSet ref v ctx src s = (Ret v, s1)
    /\ modelSet ref v ctx src s1 = (Ret v, s1)
    /\ log s1 = log s ++ (if strict_eq (lookup_loc (model s) (keys p)) v
                          then [] else dispatch s1 src p).
Proof.
  intros Hr Hne _ Hok Hid Hnan.
  destruct (modelValue_set p v src s Hne Hok)
    as (s1 & Hset & Hin & Hlk & Hlog & _ & Ho).
  assert (Hv : (if strict_eq (lookup_loc (model s) (keys p)) v
                then lookup_loc (model s) (keys p) else v) = v).
  { destruct (strict_eq _ v) eqn:E; auto. }
  rewrite Hv in Hset, Hlk.
  exists s1. split; [|split].
  - unfold modelSet. now rewrite (with_path_resolved _ _ _ _ _ Hr).
  - unfold modelSet. rewrite <- Ho in Hr.
    rewrite (with_path_resolved _ _ _ _ _ Hr).
    rewrite (modelValue_set_same p v src s1 Hne Hin).
    + now rewrite Hlk.
    + rewrite Hlk. now apply strict_eq_refl.
  - exact Hlog.
Qed.

Lemma set_twice_witness :
  exists s1,
    modelSet (RStr "/a") (VNum (Int 2)) RUndef RUndef watched_a1 = (Ret (VNum (Int 2)), s1)
    /\ modelSet (RStr "/a") (VNum (Int 2)) RUndef RUndef s1 = (Ret (VNum (Int 2)), s1)
    /\ log s1 = log watched_a1
                ++ (if strict_eq (lookup_loc (model watched_a1) (keys [SStr "a"]))
                                 (VNum (Int 2))
                    then [] else dispatch s1 RUndef [SStr "a"]).
Proof.
  apply (set_twice watched_a1 (RStr "/a") RUndef RUndef [SStr "a"] (VNum (Int 2))).
  - reflexivity.
  - discriminate.
  - reflexivity.
  - reflexivity.
  - simpl. discriminate.
  - discriminate.
Defined.

(** Two sets of the value that is already stored notify nobody, and two
    sets of [NaN] notify twice. *)
Lemma set_twice_not_one_notification :
  log (exec (modelSet (RStr "/a") (VNum (Int 1)) RUndef RUndef ;;;
             modelSet (RStr "/a") (VNum (Int 1)) RUndef RUndef) watched_a1)
  = []
  /\ List.length
       (log (exec (modelSet (RStr "/a") (VNum NaN) RUndef RUndef ;;;
                   modelSet (RStr "/a") (VNum NaN) RUndef RUndef) watched_a1))
     = 2%nat.
Proof. split; reflexivity. Qed.

(* ===================================================================== *)
(** ** Who is notified *)

Lemma not_source_get src bs key os :
  not_source src bs = true ->
  binding_get key bs = Some os ->
  forallb (fun b => match b with
                    | ObsFun _ => true
                    | ObsRef r => negb (ref_same r src)
                    end) os = true.
Proof.
  induction bs as [|[k os'] bs IH]; simpl; [discriminate|].
  intros H Hg. apply andb_prop in H. destruct H as [H1 H2].
  destruct (String.eqb key k); [now injection Hg as <- | auto].
Qed.

Lemma delivery_all src d os :
  forallb (fun b => match b with
                    | ObsFun _ => true
                    | ObsRef r => negb (ref_same r src)
                    end) os = true ->
  flat_map (delivery src d) os = map (notification_for d) os.
Proof.
  induction os as [|b os IH]; simpl; [reflexivity|].
  intros H. apply andb_prop in H. destruct H as [H1 H2].
  rewrite (IH H2). destruct b as [f|r]; simpl; [reflexivity|].
  apply negb_true_iff in H1. now rewrite H1.
Qed.

Lemma dispatch_filtered s src p :
  dispatch s src p
  = flat_map
      (fun i =>
         match binding_get (path_toString (firstn (S i) p)) (modelBinding s) with
         | Some os =>
             map (notification_for (change_at (model s) p i))
                 (filter (fun b => match b with
                                   | ObsFun _ => true
                                   | ObsRef r => negb (ref_same r src)
                                   end) os)
         | None => []
         end)
      (seq 0 (List.length p)).
Proof.
  unfold dispatch. apply flat_map_ext. intros i. unfold deliveries_at.
  destruct (binding_get _ (modelBinding s)) as [os|]; [|reflexivity].
  induction os as [|b os IH]; [reflexivity|].
  cbn [flat_map filter]. rewrite IH.
  destruct b as [f|r]; cbn [delivery]; [reflexivity|].
  destruct (ref_same r src); reflexivity.
Qed.

(** C5 (as amended). A set that changes the value at a writable path of
    plain keys notifies, for every prefix of the path in order of
    increasing length (index 0, the prefix of length 1, first), the
    observers registered under the canonical string of that prefix, in
    registration order, but for those that are no function and are the
    source of the write; each one receives the record
    [{value, path, pathIndex, parent}] read after the assignment.  When no
    registered observer is the source of the write, every observer of every
    prefix is notified. *)
Theorem set_notifies_every_prefix s ref ctx src p v :
  modelPath (modelOptions s) ref ctx = Ret (RPath p) ->
  p <> [] ->
  plain_path p = true ->
  ok_along (model s) p = true ->
  strict_eq (lookup_loc (model s) (keys p)) v = false ->
  exists s',
    modelSet ref v ctx src s = (Ret v, s')
    /\ log s'
       = log s
         ++ flat_map
              (fun i =>
                 match binding_get (path_toString (firstn (S i) p)) (modelBinding s) with
                 | Some os =>
                     map (notification_for (change_at (model s') p i))
                         (filter (fun b => match b with
                                           | ObsFun _ => true
                                           | ObsRef r => negb (ref_same r src)
                                           end) os)
                 | None => []
                 end)
              (seq 0 (List.length p))
    /\ (not_source src (modelBinding s) = true ->
        log s'
        = log s
          ++ flat_map
               (fun i =>
                  match binding_get (path_toString (firstn (S i) p)) (modelBinding s) with
                  | Some os => map (notification_for (change_at (model s') p i)) os
                  | None => []
                  end)
               (seq 0 (List.length p))).
Proof.
  intros Hr Hne _ Hok Hch.
  destruct (modelValue_set p v src s Hne Hok)
    as (s' & Hset & _ & _ & Hlog & Hb & _).
  rewrite Hch in Hset, Hlog.
  exists s'. split; [|split].
  - unfold modelSet. now rewrite (with_path_resolved _ _ _ _ _ Hr).
  - rewrite Hlog, dispatch_filtered, Hb. reflexivity.
  - intros Hsrc. rewrite Hlog. f_equal. unfold dispatch. apply flat_map_ext.
    intros i. unfold deliveries_at. rewrite Hb.
    destruct (binding_get _ (modelBinding s)) as [os|] eqn:Hg; [|reflexivity].
    apply delivery_all. eapply not_source_get; eassumption.
Qed.

Lemma set_notifies_every_prefix_witness :
  exists s',
    modelSet (RElem input_name) (VStr "Ann") (RStr "/user") (RElem input_name) bound_input
    = (Ret (VStr "Ann"), s')
    /\ log s'
       = log bound_input
         ++ flat_map
              (fun i =>
                 match binding_get
                         (path_toString (firstn (S i) [SStr "user"; SStr "name"]))
                         (modelBinding bound_input) with
                 | Some os =>
                     map (notification_for
                            (change_at (model s') [SStr "user"; SStr "name"] i))
                         (filter (fun b => match b with
                                           | ObsFun _ => true
                                           | ObsRef r =>
                                               negb (ref_same r (RElem input_name))
                                           end) os)
                 | None => []
                 end)
              (seq 0 (List.length [SStr "user"; SStr "name"]))
    /\ (not_source (RElem input_name) (modelBinding bound_input) = true ->
        log s'
        = log bound_input
          ++ flat_map
               (fun i =>
                  match binding_get
                          (path_toString (firstn (S i) [SStr "user"; SStr "name"]))
                          (modelBinding bound_input) with
                  | Some os =>
                      map (notification_for
                             (change_at (model s') [SStr "user"; SStr "name"] i)) os
                  | None => []
                  end)
               (seq 0 (List.length [SStr "user"; SStr "name"]))).
Proof.
  apply (set_notifies_every_prefix bound_input (RElem input_name) (RStr "/user")
           (RElem input_name) [SStr "user"; SStr "name"] (VStr "Ann"));
    solve [reflexivity | discriminate].
Defined.

(** An element bound at the path it writes to is not notified of its own
    write: of the two observers of [/user/name], the element and a
    function, only the function is called. *)
Lemma writer_is_not_notified :
  binding_get "/user/name" (modelBinding bound_input)
  = Some [ObsRef (RElem input_name); ObsFun 3]
  /\ modelPath (modelOptions bound_input) (RElem input_name) (RStr "/user")
     = Ret (RPath [SStr "user"; SStr "name"])
  /\ run (modelSet (RElem input_name) (VStr "Ann") (RStr "/user") (RElem input_name))
         bound_input
     = Ret (VStr "Ann")
  /\ log (exec (modelSet (RElem input_name) (VStr "Ann") (RStr "/user")
                         (RElem input_name)) bound_input)
     = [Called 3 {| ch_value := VStr "Ann";
                    ch_path := [SStr "user"; SStr "name"];
                    ch_pathIndex := 1;
                    ch_parent := VObj 1 [("name", VStr "Ann")] |}].
Proof. repeat split. Qed.

(** The order on the example of the specification: both observers of [/a],
    then the observer of [/a/b]. *)
Example set_abc_order :
  map (fun n => match n with
                | Called f d => (f, ch_pathIndex d)
                | Updated _ d => (0%nat, ch_pathIndex d)
                end)
      (log (exec (modelSet (RStr "/a/b/c") (VNum (Int 1)) RUndef RUndef) bound_a_ab))
  = [(8, 0); (10, 0); (9, 1)]%nat.
Proof. reflexivity. Qed.

(* ===================================================================== *)
(** ** The root is not a prefix the dispatcher looks up *)

Lemma binding_get_push_other key k o bs :
  String.eqb key k = false ->
  binding_get key (binding_push k o bs) = binding_get key bs.
Proof.
  intros Hne. induction bs as [|[k' os] bs IH]; simpl.
  - now rewrite Hne.
  - destruct (String.eqb k k') eqn:E; simpl.
    + apply String.eqb_eq in E. subst k'. now rewrite Hne.
    + destruct (String.eqb key k'); auto.
Qed.

Lemma join_slash_empty x l : join_slash (x :: l) = "" -> x = "".
Proof.
  destruct l as [|y l]; simpl; [auto|].
  destruct x; simpl; [auto | discriminate].
Qed.

(** The canonical string of a non-empty prefix is the root's only when the
    path starts with the empty segment. *)
Lemma prefix_is_root (p : path) i :
  path_toString (firstn (S i) p) = path_toString [] ->
  p = [] \/ seg_key (hd (SStr "") p) = "".
Proof.
  intros H. destruct p as [|sg r]; [now left|]. right.
  unfold path_toString, path_join in H. cbn [firstn map hd] in *.
  injection H as H. now apply join_slash_empty in H.
Qed.

(** C6 (as amended). Along a path of length [n] that runs through
    containers the dispatcher looks up the registry for the prefixes of
    length 1 to [n], index 0 to [n - 1], and for no other: the empty prefix
    is not among them.  Unless the path starts with the empty segment, none
    of these prefixes has the canonical string of the root, and registering
    an observer at the root changes nothing in what is delivered. *)
Theorem dispatch_skips_root s ctx src p o :
  p <> [] ->
  in_containers (model s) (keys p) = true ->
  modelTrigger (RPath p) ctx src s
  = (Ret tt,
     add_log (flat_map (deliveries_at s src p) (seq 0 (List.length p))) s)
  /\ (seg_key (hd (SStr "") p) <> "" ->
      (forall i, path_toString (firstn (S i) p) <> path_toString [])
      /\ let s_root :=
           set_binding (binding_push (path_toString []) o (modelBinding s)) s in
         modelTrigger (RPath p) ctx src s_root
         = (Ret tt,
            add_log (flat_map (deliveries_at s src p) (seq 0 (List.length p)))
                    s_root)).
Proof.
  intros Hne Hin. split.
  - now apply modelTrigger_in_containers.
  - intros Hhd.
    assert (Hkeys : forall i, path_toString (firstn (S i) p) <> path_toString []).
    { intros i Heq. apply prefix_is_root in Heq. destruct Heq; contradiction. }
    split; [exact Hkeys|].
    intros s_root.
    rewrite (modelTrigger_in_containers src p ctx s_root) by assumption.
    f_equal. f_equal. unfold dispatch. apply flat_map_ext. intros i.
    unfold deliveries_at, s_root. cbn [modelBinding model set_binding].
    rewrite binding_get_push_other; [reflexivity|].
    apply String.eqb_neq. apply Hkeys.
Qed.

Lemma dispatch_skips_root_witness :
  modelTrigger (RPath [SStr "a"]) RUndef RUndef store_a1
  = (Ret tt,
     add_log (flat_map (deliveries_at store_a1 RUndef [SStr "a"])
                       (seq 0 (List.length [SStr "a"]))) store_a1)
  /\ (seg_key (hd (SStr "") [SStr "a"]) <> "" ->
      (forall i, path_toString (firstn (S i) [SStr "a"]) <> path_toString [])
      /\ let s_root :=
           set_binding (binding_push (path_toString []) (ObsFun 7)
                                     (modelBinding store_a1)) store_a1 in
         modelTrigger (RPath [SStr "a"]) RUndef RUndef s_root
         = (Ret tt,
            add_log (flat_map (deliveries_at store_a1 RUndef [SStr "a"])
                              (seq 0 (List.length [SStr "a"]))) s_root)).
Proof.
  apply (dispatch_skips_root store_a1 RUndef RUndef [SStr "a"] (ObsFun 7)).
  - discriminate.
  - reflexivity.
Defined.

(** An observer bound at the root is not notified by a set of [/a]. *)
Lemma root_observer_not_notified :
  modelBinding (exec (modelBind (RStr "/") (Some (ObsFun 7)) RUndef) initial_state)
  = [(path_toString [], [ObsFun 7])]
  /\ modelBinding (exec (modelBind (RArr []) (Some (ObsFun 7)) RUndef) initial_state)
     = [(path_toString [], [ObsFun 7])]
  /\ run (modelBind (RStr "/") (Some (ObsFun 7)) RUndef ;;;
          modelSet (RStr "/a") (VNum (Int 1)) RUndef RUndef) initial_state
     = Ret (VNum (Int 1))
  /\ log (exec (modelBind (RStr "/") (Some (ObsFun 7)) RUndef ;;;
                modelSet (RStr "/a") (VNum (Int 1)) RUndef RUndef) initial_state)
     = [].
Proof. repeat split. Qed.

(* ===================================================================== *)
(** ** What a get does to the store *)


Lemma modelValue_get_writable p v src s :
  p <> [] ->
  ok_along (model s) p = true ->
  exists s1,
    modelValue (RPath p) MGet v src s = (Ret (lookup_loc (model s) (keys p)), s1)
    /\ in_containers (model s1) (keys p) = true
    /\ lookup_loc (model s1) (keys p) = lookup_loc (model s) (keys p)
    /\ modelOptions s1 = modelOptions s
    /\ modelBinding s1 = modelBinding s
    /\ log s1 = log s.
Proof.
  intros Hne Hok.
  destruct (walk_writable MGet p eq_refl [] [] None s Hne eq_refl Hok)
    as (s1 & w & Hw & Hin1 & Hv1 & Hl1 & Ho1 & Hb1 & Hg1).
  cbn [app List.length lookup_loc] in Hw, Hin1, Hv1, Hl1.
  exists s1.
  unfold modelValue, bind, catch_nothing_to_delete, modelWalk.
  rewrite modelPath_of_path, (ok_along_root s p Hne Hok), Hw.
  unfold ret. rewrite Hv1, Hl1. auto 10.
Qed.




(* ===================================================================== *)
(** ** Defaults *)

Lemma assoc_get_not_in k fs :
  existsb (String.eqb k) (map fst fs) = false -> assoc_get k fs = None.
Proof.
  induction fs as [|[k' v'] fs IH]; simpl; [reflexivity|].
  destruct (String.eqb k k'); simpl; [discriminate | exact IH].
Qed.

Lemma assoc_get_copy_props a k :
  forall t,
    assoc_get k (copy_props t a)
    = if has_own a k then Some (get_prop a k) else assoc_get k t.
Proof.
  unfold copy_props, has_own.
  induction (own_keys a) as [|k1 ks IH]; intros t; cbn [fold_left existsb].
  - reflexivity.
  - rewrite IH. destruct (existsb (String.eqb k) ks).
    + now rewrite orb_true_r.
    + rewrite orb_false_r. destruct (String.eqb k k1) eqn:E.
      * apply String.eqb_eq in E. subst k1. apply assoc_get_set_same.
      * now apply assoc_get_set_other.
Qed.

Lemma copy_props_object k i fs :
  opt_value (assoc_get k (copy_props [] (VObj i fs))) = get_prop (VObj i fs) k.
Proof.
  rewrite assoc_get_copy_props. unfold has_own. cbn [own_keys assoc_get].
  destruct (existsb (String.eqb k) (map fst fs)) eqn:E; [reflexivity|].
  cbn [get_prop]. now rewrite (assoc_get_not_in _ _ E).
Qed.

(** The merge of [$.extend({}, defaults, current)] is one level deep: a key
    of the current value keeps the current value whole, any other key gets
    the default. *)
Lemma extend_get k i fs cur :
  opt_value (assoc_get k (extend [] [VObj i fs; cur]))
  = if has_own cur k then get_prop cur k else get_prop (VObj i fs) k.
Proof.
  cbn [extend is_nullish].
  destruct (is_nullish cur) eqn:En.
  - replace (has_own cur k) with false by (destruct cur; try discriminate; reflexivity).
    apply copy_props_object.
  - rewrite assoc_get_copy_props.
    destruct (has_own cur k); [reflexivity | apply copy_props_object].
Qed.

Lemma extend_twice k i fs cur j :
  opt_value (assoc_get k (extend [] [VObj i fs;
                                    VObj j (extend [] [VObj i fs; cur])]))
  = opt_value (assoc_get k (extend [] [VObj i fs; cur])).
Proof.
  rewrite extend_get. unfold has_own at 1. cbn [own_keys].
  destruct (existsb (String.eqb k) (map fst (extend [] [VObj i fs; cur]))) eqn:E.
  - reflexivity.
  - apply assoc_get_not_in in E. rewrite E. cbn [opt_value].
    pose proof (extend_get k i fs cur) as H. rewrite E in H. cbn [opt_value] in H.
    destruct (has_own cur k) eqn:Hc; [|now rewrite H].
    (* a key of the current value is a key of the merge *)
    exfalso. revert E. cbn [extend is_nullish].
    destruct (is_nullish cur) eqn:En.
    + destruct cur; try discriminate; discriminate Hc.
    + rewrite assoc_get_copy_props, Hc. discriminate.
Qed.

Lemma in_containers_ok_along p :
  forall root, in_containers root (keys p) = true -> ok_along root p = true.
Proof.
  induction p as [|sg r IH]; intros root H; [reflexivity|].
  cbn [keys map in_containers] in H. cbn [ok_along].
  apply andb_prop in H. destruct H as [H1 H2]. rewrite H1.
  destruct r; [reflexivity|]. rewrite (IH _ H2). apply orb_true_r.
Qed.

Lemma strict_eq_object_fields c i f1 f2 :
  strict_eq c (VObj i f1) = strict_eq c (VObj i f2).
Proof. destruct c; reflexivity. Qed.

(** What [$.modelDefaults] writes back along a writable path. *)
Lemma defaults_merge_one_level s ref p i fs :
  modelPath (modelOptions s) ref RUndef = Ret (RPath p) ->
  p <> [] ->
  ok_along (model s) p = true ->
  strict_eq (lookup_loc (model s) (keys p)) (VObj (next_id s) []) = false ->
  let cur := lookup_loc (model s) (keys p) in
  exists s',
    modelDefaults ref (VObj i fs) s = (Ret tt, s')
    /\ (forall k,
           has_own cur k = true -> is_nullish (get_prop cur k) = false ->
           get_prop (lookup_loc (model s') (keys p)) k = get_prop cur k)
    /\ (forall k,
           has_own cur k = false -> get_prop (VObj i fs) k <> VNull ->
           get_prop (lookup_loc (model s') (keys p)) k = get_prop (VObj i fs) k)
    /\ (forall k j,
           opt_value (assoc_get k (extend [] [VObj i fs;
                                       VObj j (extend [] [VObj i fs; cur])]))
           = get_prop (lookup_loc (model s') (keys p)) k).
Proof.
  intros Hr Hne Hok Hfresh cur.
  set (s0 := snd (fresh s)).
  assert (Hr0 : modelPath (modelOptions s0) ref RUndef = Ret (RPath p)) by exact Hr.
  destruct (modelValue_get_writable p VUndef RUndef s0 Hne Hok)
    as (s1 & Hget & Hin1 & Hl1 & Ho1 & _ & _).
  change (lookup_loc (model s0) (keys p)) with cur in Hget, Hl1.
  assert (Hr1 : modelPath (modelOptions s1) ref RUndef = Ret (RPath p))
    by (now rewrite Ho1).
  set (merged := VObj (next_id s) (extend [] [VObj i fs; cur])).
  destruct (modelValue_set p merged RUndef s1 Hne (in_containers_ok_along p _ Hin1))
    as (s' & Hset & _ & Hlk & _ & _ & _).
  rewrite Hl1 in Hset, Hlk.
  assert (Hne' : strict_eq cur merged = false)
    by (unfold merged; now rewrite (strict_eq_object_fields cur _ _ [])).
  rewrite Hne' in Hset, Hlk.
  exists s'. split; [|split; [|split]].
  - unfold modelDefaults, bind at 1. cbn [fresh]. fold s0.
    unfold bind at 1, modelGet. rewrite (with_path_resolved _ _ _ _ _ Hr0), Hget.
    unfold bind, modelSet. rewrite (with_path_resolved _ _ _ _ _ Hr1).
    fold merged. rewrite Hset. reflexivity.
  - intros k Hk _. rewrite Hlk. unfold merged. cbn [get_prop].
    rewrite extend_get. now rewrite Hk.
  - intros k Hk _. rewrite Hlk. unfold merged. cbn [get_prop].
    rewrite extend_get. now rewrite Hk.
  - intros k j. rewrite Hlk. unfold merged. cbn [get_prop]. apply extend_twice.
Qed.

(** C8 (as amended). Along a writable path of plain keys,
    [$.modelDefaults] with an object of defaults writes back, via set, an
    object that merges the defaults underneath the current value one level
    deep: a key that the current value defines, with a value other than
    [undefined] and [null], keeps the current value (whole, nested defaults
    are not merged into it); a key that the current value does not have
    gets the default, unless the default is [null].  On [undefined] and
    [null] the versions of [jQuery.extend] differ, and nothing is stated
    for them.  Merging the same defaults into the result again gives every
    key the value it had.  The current value is no array with holes,
    neither it nor the defaults have an own key [__proto__] (assigning it
    sets the prototype of the merged object), and the identity hypothesis
    says that the object literal of the call is a new object, not the
    stored one.  On the example of the specification the existing [k]
    wins. *)
Theorem defaults_shallow_merge :
  (forall s ref p i fs,
      modelPath (modelOptions s) ref RUndef = Ret (RPath p) ->
      p <> [] ->
      plain_path p = true ->
      ok_along (model s) p = true ->
      dense (lookup_loc (model s) (keys p)) = true ->
      has_own (lookup_loc (model s) (keys p)) "__proto__" = false ->
      has_own (VObj i fs) "__proto__" = false ->
      strict_eq (lookup_loc (model s) (keys p)) (VObj (next_id s) []) = false ->
      let cur := lookup_loc (model s) (keys p) in
      exists s',
        modelDefaults ref (VObj i fs) s = (Ret tt, s')
        /\ (forall k,
               has_own cur k = true -> is_nullish (get_prop cur k) = false ->
               get_prop (lookup_loc (model s') (keys p)) k = get_prop cur k)
        /\ (forall k,
               has_own cur k = false -> get_prop (VObj i fs) k <> VNull ->
               get_prop (lookup_loc (model s') (keys p)) k = get_prop (VObj i fs) k)
        /\ (forall k j,
               opt_value (assoc_get k (extend [] [VObj i fs;
                                           VObj j (extend [] [VObj i fs; cur])]))
               = get_prop (lookup_loc (model s') (keys p)) k))
  /\ run (modelDefaults (RStr "/x") (VObj 100 [("k", VNum (Int 1))]) ;;;
          modelDefaults (RStr "/x") (VObj 101 [("k", VNum (Int 2))]) ;;;
          modelGet (RStr "/x/k") RUndef) initial_state
     = Ret (VNum (Int 1)).
Proof.
  split; [|reflexivity].
  intros s ref p i fs Hr Hne _ Hok _ _ _ Hfresh.
  now apply defaults_merge_one_level.
Qed.

Lemma defaults_shallow_merge_witness :
  let cur := lookup_loc (model store_x) (keys [SStr "x"]) in
  exists s',
    modelDefaults (RStr "/x") (VObj 9 [("k", VNum (Int 2)); ("m", VNum (Int 3))]) store_x
    = (Ret tt, s')
    /\ (forall k,
           has_own cur k = true -> is_nullish (get_prop cur k) = false ->
           get_prop (lookup_loc (model s') (keys [SStr "x"])) k = get_prop cur k)
    /\ (forall k,
           has_own cur k = false ->
           get_prop (VObj 9 [("k", VNum (Int 2)); ("m", VNum (Int 3))]) k <> VNull ->
           get_prop (lookup_loc (model s') (keys [SStr "x"])) k
           = get_prop (VObj 9 [("k", VNum (Int 2)); ("m", VNum (Int 3))]) k)
    /\ (forall k j,
           opt_value
             (assoc_get k
                (extend [] [VObj 9 [("k", VNum (Int 2)); ("m", VNum (Int 3))];
                            VObj j (extend [] [VObj 9 [("k", VNum (Int 2));
                                                       ("m", VNum (Int 3))]; cur])]))
           = get_prop (lookup_loc (model s') (keys [SStr "x"])) k).
Proof.
  apply (proj1 defaults_shallow_merge store_x (RStr "/x") [SStr "x"] 9
           [("k", VNum (Int 2)); ("m", VNum (Int 3))]);
    solve [reflexivity | discriminate].
Defined.

(** Nested structured defaults are not merged: the existing [n] is kept as
    it is and the default [n.b] is dropped. *)
Lemma defaults_not_recursive :
  run (modelSet (RStr "/x") (VObj 50 [("n", VObj 51 [("a", VNum (Int 1))])])
                RUndef RUndef ;;;
       modelDefaults (RStr "/x")
         (VObj 100 [("n", VObj 101 [("a", VNum (Int 0)); ("b", VNum (Int 2))])]) ;;;
       modelGet (RStr "/x/n/b") RUndef) initial_state
  = Ret VUndef
  /\ run (modelSet (RStr "/x") (VObj 50 [("n", VObj 51 [("a", VNum (Int 1))])])
                   RUndef RUndef ;;;
          modelDefaults (RStr "/x")
            (VObj 100 [("n", VObj 101 [("a", VNum (Int 0)); ("b", VNum (Int 2))])]) ;;;
          modelGet (RStr "/x/n") RUndef) initial_state
     = Ret (VObj 51 [("a", VNum (Int 1))]).
Proof. split; reflexivity. Qed.

(* ===================================================================== *)
(** ** Array or object *)

Lemma walk_loop_cons {C} (cb : C -> tval -> path -> nat -> M C) p i sg r parent c :
  walk_loop cb p i (sg :: r) parent c
  = (c' <- cb c (to_this parent) p i ;;
     parent' <- descend parent sg ;;
     walk_loop cb p (S i) r parent' c').
Proof. reflexivity. Qed.

Lemma strict_eq_undef v : is_undef v = false -> strict_eq VUndef v = false.
Proof. destruct v; simpl; congruence. Qed.

Lemma store_is_array o k v : is_array (store_prop o k v) = is_array o.
Proof.
  destruct o; simpl; auto.
  destruct (array_index k); auto. destruct (String.eqb k "length"); auto.
Qed.

Lemma put_prop_is_array o k v c' :
  put_prop o k v = Ret c' -> is_array c' = is_array o.
Proof.
  unfold put_prop, store_prop. intros H.
  destruct o;
    repeat match type of H with
           | context [match ?x with _ => _ end] => destruct x
           end;
    try discriminate; injection H as <-; reflexivity.
Qed.

(** A write below a location keeps the kind of what is at that location. *)
Lemma update_loc_prefix_array loc0 :
  forall l root f root',
    in_containers root (loc0 ++ l) = true ->
    (forall c c', f c = Ret c' -> is_array c' = is_array c) ->
    update_loc root (loc0 ++ l) f = Ret root' ->
    is_array (lookup_loc root' loc0) = is_array (lookup_loc root loc0).
Proof.
  induction loc0 as [|a loc0 IH]; intros l root f root' Hin Hf Hup.
  - cbn [app lookup_loc] in *. destruct l as [|k r]; cbn [update_loc] in Hup.
    + now apply Hf.
    + destruct (update_loc (get_prop root k) r f); try discriminate.
      injection Hup as <-. apply store_is_array.
  - cbn [app update_loc lookup_loc in_containers] in *.
    apply andb_prop in Hin. destruct Hin as [Hin Hr].
    apply andb_prop in Hin. destruct Hin as [Hc Hs].
    destruct (update_loc (get_prop root a) (loc0 ++ l) f) as [child| |] eqn:E;
      try discriminate.
    injection Hup as <-. rewrite get_store_same by assumption.
    eapply IH; eauto.
Qed.

Lemma keys_head (a : path) sg sg' r nxt b :
  sg' :: r = a ++ sg :: nxt :: b ->
  exists t, keys (a ++ [sg]) = seg_key sg' :: t.
Proof.
  destruct a as [|x a]; cbn [app]; intros H; injection H as -> _;
    eexists; reflexivity.
Qed.

Lemma new_container_kind o sg id :
  is_array (new_container o sg id) = createArrays o && negb (seg_isNaN sg).
Proof.
  unfold new_container. destruct (seg_isNaN sg), (createArrays o); reflexivity.
Qed.

(** The kinds of the containers after the walk of a get or a set: what
    existed keeps its kind, and a container that the walk created for an
    absent segment is an array when the next segment is numeric and
    [createArrays] is on, an object otherwise. *)
Lemma walk_kinds m rest :
  is_delete m = false ->
  forall pre loc c s r s1,
    rest <> [] ->
    in_containers (model s) loc = true ->
    ok_along (lookup_loc (model s) loc) rest = true ->
    walk_loop (value_callback m) (pre ++ rest) (List.length pre) rest
              (WStore loc) c s = (r, s1) ->
    (forall l0 l1, loc = l0 ++ l1 ->
        is_array (lookup_loc (model s1) l0) = is_array (lookup_loc (model s) l0))
    /\ (forall a sg nxt b, rest = a ++ sg :: nxt :: b ->
        is_array (lookup_loc (model s1) (loc ++ keys (a ++ [sg])))
        = if is_undef (lookup_loc (model s) (loc ++ keys (a ++ [sg])))
          then createArrays (modelOptions s) && negb (seg_isNaN nxt)
          else is_array (lookup_loc (model s) (loc ++ keys (a ++ [sg])))).
Proof.
  intros Hm. induction rest as [|sg0 r0 IH]; intros pre loc c s r s1 Hne Hin Hok Hw;
    [now elim Hne|].
  destruct (ok_along_head _ _ _ Hok) as [Hcont Hslot].
  destruct r0 as [|sg' r'].
  - cbn [walk_loop] in Hw. unfold bind at 1 in Hw.
    rewrite value_callback_keep in Hw by (rewrite last_index; apply andb_false_r).
    unfold bind, descend, ret in Hw. cbn [walk_loop] in Hw.
    assert (Hs : s1 = s)
      by (destruct (descend_in (model s) (WStore loc) sg0); now injection Hw).
    subst s1. split; [reflexivity|].
    intros a sg nxt b E. apply (f_equal (@List.length seg)) in E.
    rewrite length_app in E. cbn [List.length] in E. lia.
  - set (p := pre ++ sg0 :: sg' :: r') in *.
    assert (Hp : p = (pre ++ [sg0]) ++ sg' :: r')
      by (unfold p; now rewrite <- app_assoc).
    assert (Hlen : S (List.length pre) = List.length (pre ++ [sg0]))
      by (rewrite length_app; simpl; lia).
    rewrite walk_loop_cons in Hw. cbn [to_this] in Hw. unfold bind at 1 in Hw.
    destruct (is_undef (get_prop (lookup_loc (model s) loc) (seg_key sg0))) eqn:Hu.
    + (* absent: it is created *)
      set (newc := new_container (modelOptions s) sg' (next_id s)).
      destruct (update_loc_ok (model s) loc
                  (fun c => put_prop c (seg_key sg0) newc)
                  (store_prop (lookup_loc (model s) loc) (seg_key sg0) newc) Hin)
        as (root' & Hup & Hlk & Hin' & _).
      { now apply put_prop_ok. }
      rewrite (value_callback_create m c loc p (List.length pre) s root' Hm) in Hw.
      2:{ unfold p. rewrite seg_at_middle. cbn [this_read]. rewrite Hu.
          apply inner_index. }
      2:{ unfold p. rewrite seg_at_middle, seg_at_next. exact Hup. }
      replace (seg_at p (List.length pre)) with sg0 in Hw
        by (unfold p; now rewrite seg_at_middle).
      assert (Hchild : get_prop (lookup_loc root' loc) (seg_key sg0) = newc)
        by (rewrite Hlk; now apply get_store_same).
      unfold bind at 1 in Hw. rewrite descend_container in Hw
        by (cbn [model created]; rewrite Hchild; apply new_container_is_container).
      rewrite Hp, Hlen in Hw.
      destruct (IH (pre ++ [sg0]) (loc ++ [seg_key sg0]) (Some (TStore loc, sg0))
                   (created root' s) r s1) as [HA HB].
      { discriminate. }
      { cbn [model created]. rewrite in_containers_app, Hin'.
        cbn [in_containers]. rewrite Hlk, store_is_container, store_slot_ok.
        now rewrite Hcont, Hslot. }
      { cbn [model created]. rewrite lookup_loc_app. cbn [lookup_loc].
        rewrite Hchild. apply ok_along_new. }
      { exact Hw. }
      cbn [model created modelOptions] in HA, HB.
      assert (Hpre : forall l0 l1, loc = l0 ++ l1 ->
                 is_array (lookup_loc root' l0) = is_array (lookup_loc (model s) l0)).
      { intros l0 l1 E. subst loc.
        apply (update_loc_prefix_array l0 l1 (model s)
                 (fun c => put_prop c (seg_key sg0) newc) root' Hin);
          [|exact Hup].
        intros c0 c' Hc0. eapply put_prop_is_array; eassumption. }
      split.
      * intros l0 l1 E.
        rewrite (HA l0 (l1 ++ [seg_key sg0])) by (rewrite E; now rewrite app_assoc).
        eapply Hpre; eassumption.
      * intros a sg nxt b E. destruct a as [|x a'].
        -- cbn [app] in E. injection E as <- <- <-. cbn [app keys map].
           rewrite (HA (loc ++ [seg_key sg0]) []) by (now rewrite app_nil_r).
           rewrite !lookup_loc_app. cbn [lookup_loc]. rewrite Hchild, Hu.
           apply new_container_kind.
        -- cbn [app] in E. injection E as <- E.
           destruct (keys_head _ _ _ _ _ _ E) as (t & Ht).
           replace (loc ++ keys ((sg0 :: a') ++ [sg]))
             with ((loc ++ [seg_key sg0]) ++ keys (a' ++ [sg]))
             by (cbn [app keys map]; now rewrite <- app_assoc).
           rewrite (HB a' sg nxt b E).
           rewrite !lookup_loc_app. cbn [lookup_loc]. rewrite Hchild, Ht.
           cbn [lookup_loc]. unfold newc. rewrite new_container_empty.
           rewrite (is_undef_eq _ Hu). rewrite !lookup_undef. reflexivity.
    + (* present: it is a container *)
      destruct (ok_along_child _ _ _ _ Hok Hu) as [Hok' Hc'].
      rewrite value_callback_keep in Hw
        by (unfold p; rewrite seg_at_middle; cbn [this_read]; now rewrite Hu).
      replace (seg_at p (List.length pre)) with sg0 in Hw
        by (unfold p; now rewrite seg_at_middle).
      unfold bind at 1 in Hw. rewrite descend_container in Hw by exact Hc'.
      rewrite Hp, Hlen in Hw.
      destruct (IH (pre ++ [sg0]) (loc ++ [seg_key sg0]) (Some (TStore loc, sg0))
                   s r s1) as [HA HB].
      { discriminate. }
      { rewrite in_containers_app, Hin. cbn [in_containers].
        now rewrite Hcont, Hslot. }
      { rewrite lookup_loc_app. exact Hok'. }
      { exact Hw. }
      split.
      * intros l0 l1 E.
        apply (HA l0 (l1 ++ [seg_key sg0])). rewrite E. now rewrite app_assoc.
      * intros a sg nxt b E. destruct a as [|x a'].
        -- cbn [app] in E. injection E as <- <- <-. cbn [app keys map].
           rewrite (HA (loc ++ [seg_key sg0]) []) by (now rewrite app_nil_r).
           rewrite !lookup_loc_app. cbn [lookup_loc]. now rewrite Hu.
        -- cbn [app] in E. injection E as <- E.
           replace (loc ++ keys ((sg0 :: a') ++ [sg]))
             with ((loc ++ [seg_key sg0]) ++ keys (a' ++ [sg]))
             by (cbn [app keys map]; now rewrite <- app_assoc).
           exact (HB a' sg nxt b E).
Qed.

(** The kinds of the containers along the path after a set. *)
Lemma modelValue_set_kinds (a : path) sg nxt b v src s res s' :
  ok_along (model s) (a ++ sg :: nxt :: b) = true ->
  modelValue (RPath (a ++ sg :: nxt :: b)) MSet v src s = (res, s') ->
  is_array (lookup_loc (model s') (keys (a ++ [sg])))
  = if is_undef (lookup_loc (model s) (keys (a ++ [sg])))
    then createArrays (modelOptions s) && negb (seg_isNaN nxt)
    else is_array (lookup_loc (model s) (keys (a ++ [sg]))).
Proof.
  set (p := a ++ sg :: nxt :: b). intros Hok Hset.
  assert (Hne : p <> []) by (unfold p; now destruct a).
  destruct (walk_writable MSet p eq_refl [] [] None s Hne eq_refl Hok)
    as (s1 & w & Hw & Hin1 & Hv1 & Hl1 & Ho1 & Hb1 & Hg1).
  destruct (walk_kinds MSet p eq_refl [] [] None s _ _ Hne eq_refl Hok Hw)
    as [_ HB].
  specialize (HB a sg nxt b eq_refl).
  cbn [app List.length lookup_loc] in Hw, Hin1, HB.
  destruct (in_containers_last _ p Hne Hin1) as (Hinp & Hcp & Hsp).
  unfold modelValue, bind at 1, catch_nothing_to_delete, modelWalk in Hset.
  rewrite modelPath_of_path, (ok_along_root s p Hne Hok), Hw in Hset.
  unfold bind at 1, this_get at 1 in Hset.
  destruct (negb (strict_eq _ v)).
  - destruct (update_loc_ok (model s1) (keys (removelast p))
                (fun c => put_prop c (seg_key (last p (SStr ""))) v)
                (store_prop (lookup_loc (model s1) (keys (removelast p)))
                            (seg_key (last p (SStr ""))) v) Hinp)
      as (root2 & Hup & Hlk & Hin2 & _).
    { now apply put_prop_ok. }
    assert (Hin2' : in_containers root2 (keys p) = true).
    { rewrite <- (keys_removelast_last p Hne), in_containers_app, Hin2.
      cbn [in_containers]. rewrite Hlk, store_is_container, store_slot_ok.
      now rewrite Hcp, Hsp. }
    unfold bind at 1 in Hset. unfold bind at 1 in Hset.
    unfold this_put at 1 in Hset. rewrite Hup in Hset.
    unfold bind at 1 in Hset.
    rewrite (modelTrigger_in_containers src p RUndef (set_model root2 s1) Hin2' Hne)
      in Hset.
    unfold ret, this_get in Hset. injection Hset as _ <-.
    cbn [model add_log set_model]. rewrite <- HB.
    assert (Hk : keys (removelast p)
                 = keys (a ++ [sg]) ++ keys (removelast (nxt :: b))).
    { unfold p. replace (a ++ sg :: nxt :: b) with ((a ++ [sg]) ++ nxt :: b)
        by (now rewrite <- app_assoc).
      rewrite removelast_app by discriminate.
      unfold keys. now rewrite map_app. }
    rewrite Hk in Hup, Hinp.
    apply (update_loc_prefix_array _ _ _ _ _ Hinp) in Hup; [exact Hup|].
    intros c0 c' Hc0. eapply put_prop_is_array; eassumption.
  - unfold bind, ret, this_get in Hset. injection Hset as _ <-. exact HB.
Qed.

Lemma strict_eq_undef_left v : strict_eq VUndef v = true -> v = VUndef.
Proof. now destruct v. Qed.

(** C9. A set along a writable path of plain keys creates each absent
    container of the path according to the segment that follows it, at any
    depth: where the segment [sg] is found absent, the container created
    for it is an array when the next segment [nxt] is numeric and
    [createArrays] is on, and an object otherwise; the value is then stored
    at the end of the path.  With the option on, a set of [/list/0] makes
    [/list] a list of length 1; with the option off, an object keyed by
    ["0"]. *)
Theorem set_materializes_by_next_segment :
  (forall s ref ctx src (a : path) sg nxt b v,
      modelPath (modelOptions s) ref ctx = Ret (RPath (a ++ sg :: nxt :: b)) ->
      plain_path (a ++ sg :: nxt :: b) = true ->
      ok_along (model s) (a ++ sg :: nxt :: b) = true ->
      lookup_loc (model s) (keys (a ++ [sg])) = VUndef ->
      exists s',
        modelSet ref v ctx src s = (Ret v, s')
        /\ is_container (lookup_loc (model s') (keys (a ++ [sg]))) = true
        /\ is_array (lookup_loc (model s') (keys (a ++ [sg])))
           = createArrays (modelOptions s) && negb (seg_isNaN nxt)
        /\ lookup_loc (model s') (keys (a ++ sg :: nxt :: b)) = v)
  /\ run (modelSet (RStr "/list/0") (VStr "x") RUndef RUndef ;;;
          modelGet (RStr "/list") RUndef) initial_state
     = Ret (VArr 1 [VStr "x"] [])
  /\ run (modelSet (RStr "/list/0") (VStr "x") RUndef RUndef ;;;
          modelGet (RStr "/list/length") RUndef) initial_state
     = Ret (VNum (Int 1))
  /\ run (modelSet (RStr "/list/0") (VStr "x") RUndef RUndef ;;;
          modelGet (RStr "/list") RUndef) no_arrays
     = Ret (VObj 1 [("0", VStr "x")]).
Proof.
  split; [|repeat split].
  intros s ref ctx src a sg nxt b v Hr _ Hok Hu.
  set (p := a ++ sg :: nxt :: b) in *.
  assert (Hne : p <> []) by (unfold p; now destruct a).
  destruct (modelValue_set p v src s Hne Hok)
    as (s' & Hset & Hin & Hlk & _ & _ & _).
  assert (Hold : lookup_loc (model s) (keys p) = VUndef).
  { unfold p. replace (a ++ sg :: nxt :: b) with ((a ++ [sg]) ++ nxt :: b)
      by (now rewrite <- app_assoc).
    unfold keys. rewrite map_app, lookup_loc_app. fold (keys (a ++ [sg])).
    rewrite Hu. apply lookup_undef. }
  assert (Hv : (if strict_eq (lookup_loc (model s) (keys p)) v
                then lookup_loc (model s) (keys p) else v) = v).
  { rewrite Hold. destruct (strict_eq VUndef v) eqn:E; [|reflexivity].
    symmetry. now apply strict_eq_undef_left. }
  rewrite Hv in Hset, Hlk.
  exists s'. split; [|split; [|split]].
  - unfold modelSet. now rewrite (with_path_resolved _ _ _ _ _ Hr).
  - revert Hin. unfold p.
    replace (a ++ sg :: nxt :: b) with ((a ++ [sg]) ++ nxt :: b)
      by (now rewrite <- app_assoc).
    unfold keys. rewrite map_app, in_containers_app. cbn [map in_containers].
    intros H. apply andb_prop in H. destruct H as [_ H].
    apply andb_prop in H. destruct H as [H _].
    apply andb_prop in H. tauto.
  - rewrite (modelValue_set_kinds a sg nxt b v src s _ s' Hok Hset).
    now rewrite Hu.
  - exact Hlk.
Qed.

Lemma set_materializes_by_next_segment_witness :
  exists s',
    modelSet (RStr "/x/list/0/y") (VStr "v") RUndef RUndef store_x
    = (Ret (VStr "v"), s')
    /\ is_container (lookup_loc (model s') (keys ([SStr "x"] ++ [SStr "list"]))) = true
    /\ is_array (lookup_loc (model s') (keys ([SStr "x"] ++ [SStr "list"])))
       = createArrays (modelOptions store_x) && negb (seg_isNaN (SStr "0"))
    /\ lookup_loc (model s')
         (keys ([SStr "x"] ++ SStr "list" :: SStr "0" :: [SStr "y"]))
       = VStr "v".
Proof.
  apply (proj1 set_materializes_by_next_segment store_x (RStr "/x/list/0/y")
           RUndef RUndef [SStr "x"] (SStr "list") (SStr "0") [SStr "y"] (VStr "v"));
    reflexivity.
Defined.

(** Two levels are created on the way of [/x/list/0/y]: an array for
    [list], whose next segment is numeric, and an object for its element
    [0], whose next segment is not. *)
Example created_at_two_depths :
  model (exec (modelSet (RStr "/x/list/0/y") (VStr "v") RUndef RUndef) store_x)
  = VObj 0 [("x", VObj 1 [("k", VNum (Int 1));
                          ("list", VArr 2 [VObj 3 [("y", VStr "v")]] [])])].
Proof. reflexivity. Qed.

(* ===================================================================== *)
(** ** The registry: bind, unbind, lookup *)

Lemma binding_get_push_same key o bs :
  binding_get key (binding_push key o bs)
  = Some (match binding_get key bs with Some os => os | None => [] end ++ [o]).
Proof.
  induction bs as [|[k os] bs IH]; simpl.
  - now rewrite String.eqb_refl.
  - destruct (String.eqb key k) eqn:E; simpl; rewrite E; auto.
Qed.

Lemma binding_get_delete_same key bs :
  binding_get key (binding_delete key bs) = None.
Proof.
  induction bs as [|[k os] bs IH]; simpl; [reflexivity|].
  destruct (String.eqb key k) eqn:E; simpl; [exact IH | now rewrite E].
Qed.

Lemma binding_get_delete_other key k bs :
  String.eqb key k = false ->
  binding_get key (binding_delete k bs) = binding_get key bs.
Proof.
  intros Hne. induction bs as [|[k' os] bs IH]; simpl; [reflexivity|].
  destruct (String.eqb k k') eqn:E; simpl.
  - apply String.eqb_eq in E. subst k'. now rewrite Hne.
  - destruct (String.eqb key k'); auto.
Qed.

Lemma binding_key_resolved ref ctx s p :
  modelPath (modelOptions s) ref ctx = Ret (RPath p) ->
  binding_key ref ctx s = (Ret (path_toString p), s).
Proof.
  intros H. unfold binding_key. now rewrite (with_path_resolved _ _ _ _ _ H).
Qed.

(** X1. A bind appends the observer ([obj], or the reference itself when
    [obj] is omitted) to the observers registered under the canonical string
    of the path, after the ones that were there: a lookup through any
    reference with the same canonical string now returns the old list
    followed by the new observer.  The other entries of the registry, the
    model and the log are untouched. *)
Theorem bind_appends_observer s ref ctx obj ref' ctx' p p' :
  modelPath (modelOptions s) ref ctx = Ret (RPath p) ->
  modelPath (modelOptions s) ref' ctx' = Ret (RPath p') ->
  path_toString p' = path_toString p ->
  exists s',
    modelBind ref obj ctx s = (Ret tt, s')
    /\ modelGetBound ref' ctx' s'
       = (Ret (Some (match binding_get (path_toString p) (modelBinding s) with
                     | Some os => os
                     | None => []
                     end ++ [match obj with Some o => o | None => ObsRef ref end])),
          s')
    /\ (forall key, key <> path_toString p ->
                    binding_get key (modelBinding s') = binding_get key (modelBinding s))
    /\ model s' = model s
    /\ log s' = log s.
Proof.
  intros Hr Hr' Hk.
  eexists. split.
  - unfold modelBind, bind. rewrite (binding_key_resolved _ _ _ _ Hr). reflexivity.
  - split; [|split; [|split; reflexivity]].
    + unfold modelGetBound, bind.
      rewrite (binding_key_resolved ref' ctx' _ p') by exact Hr'.
      cbn [modelBinding set_binding]. rewrite Hk.
      now rewrite binding_get_push_same.
    + intros key Hne. cbn [modelBinding set_binding].
      apply binding_get_push_other. now apply String.eqb_neq.
Qed.

Lemma bind_appends_observer_witness :
  exists s',
    modelBind (RStr "/user/3") (Some (ObsFun 2)) RUndef bound_a = (Ret tt, s')
    /\ modelGetBound (RArr [SStr "user"; SNum 3]) RUndef s'
       = (Ret (Some (match binding_get (path_toString [SStr "user"; SStr "3"])
                             (modelBinding bound_a) with
                     | Some os => os
                     | None => []
                     end ++ [match Some (ObsFun 2) with
                             | Some o => o
                             | None => ObsRef (RStr "/user/3")
                             end])), s')
    /\ (forall key, key <> path_toString [SStr "user"; SStr "3"] ->
                    binding_get key (modelBinding s') = binding_get key (modelBinding bound_a))
    /\ model s' = model bound_a
    /\ log s' = log bound_a.
Proof.
  apply (bind_appends_observer bound_a (RStr "/user/3") RUndef (Some (ObsFun 2))
           (RArr [SStr "user"; SNum 3]) RUndef
           [SStr "user"; SStr "3"] [SStr "user"; SNum 3]); reflexivity.
Defined.

(** X2. An unbind removes the whole entry registered under the canonical
    string of the path: a lookup through any reference with that canonical
    string finds nothing afterwards, however many observers were bound.
    The other entries, the model and the log are untouched. *)
Theorem unbind_removes_entry s ref ctx ref' ctx' p p' :
  modelPath (modelOptions s) ref ctx = Ret (RPath p) ->
  modelPath (modelOptions s) ref' ctx' = Ret (RPath p') ->
  path_toString p' = path_toString p ->
  exists s',
    modelUnbind ref ctx s = (Ret tt, s')
    /\ modelGetBound ref' ctx' s' = (Ret None, s')
    /\ (forall key, key <> path_toString p ->
                    binding_get key (modelBinding s') = binding_get key (modelBinding s))
    /\ model s' = model s
    /\ log s' = log s.
Proof.
  intros Hr Hr' Hk.
  eexists. split.
  - unfold modelUnbind, bind. rewrite (binding_key_resolved _ _ _ _ Hr). reflexivity.
  - split; [|split; [|split; reflexivity]].
    + unfold modelGetBound, bind.
      rewrite (binding_key_resolved ref' ctx' _ p') by exact Hr'.
      cbn [modelBinding set_binding]. rewrite Hk.
      now rewrite binding_get_delete_same.
    + intros key Hne. cbn [modelBinding set_binding].
      apply binding_get_delete_other. now apply String.eqb_neq.
Qed.

Lemma unbind_removes_entry_witness :
  exists s',
    modelUnbind (RStr "/a") RUndef bound_a_ab = (Ret tt, s')
    /\ modelGetBound (RArr [SStr "a"]) RUndef s' = (Ret None, s')
    /\ (forall key, key <> path_toString [SStr "a"] ->
                    binding_get key (modelBinding s')
                    = binding_get key (modelBinding bound_a_ab))
    /\ model s' = model bound_a_ab
    /\ log s' = log bound_a_ab.
Proof.
  apply (unbind_removes_entry bound_a_ab (RStr "/a") RUndef (RArr [SStr "a"]) RUndef
           [SStr "a"] [SStr "a"]); reflexivity.
Defined.

(** X3. After an unbind of [p], a dispatch along any path (through
    containers) delivers nothing for a prefix whose canonical string is that
    of [p], whoever was bound there, and delivers for every other prefix
    what it delivered before. *)
Theorem unbind_silences_prefix s ref ctx p q ctx' src :
  modelPath (modelOptions s) ref ctx = Ret (RPath p) ->
  q <> [] ->
  in_containers (model s) (keys q) = true ->
  let s' := exec (modelUnbind ref ctx) s in
  modelTrigger (RPath q) ctx' src s'
  = (Ret tt,
     add_log (flat_map
                (fun i =>
                   if String.eqb (path_toString (firstn (S i) q)) (path_toString p)
                   then [] else deliveries_at s src q i)
                (seq 0 (List.length q))) s').
Proof.
  intros Hr Hne Hin s'.
  assert (Hs' : s' = set_binding (binding_delete (path_toString p) (modelBinding s)) s).
  { unfold s', exec, modelUnbind, bind.
    now rewrite (binding_key_resolved _ _ _ _ Hr). }
  clearbody s'. subst s'.
  rewrite modelTrigger_in_containers by assumption.
  f_equal. f_equal. unfold dispatch. apply flat_map_ext. intros i.
  unfold deliveries_at. cbn [modelBinding model set_binding].
  destruct (String.eqb (path_toString (firstn (S i) q)) (path_toString p)) eqn:E.
  - apply String.eqb_eq in E. rewrite E. now rewrite binding_get_delete_same.
  - now rewrite binding_get_delete_other.
Qed.

Lemma unbind_silences_prefix_witness :
  let s' := exec (modelUnbind (RStr "/a") RUndef) bound_a in
  modelTrigger (RPath [SStr "a"; SStr "b"]) RUndef RUndef s'
  = (Ret tt,
     add_log (flat_map
                (fun i =>
                   if String.eqb (path_toString (firstn (S i) [SStr "a"; SStr "b"]))
                                 (path_toString [SStr "a"])
                   then [] else deliveries_at bound_a RUndef [SStr "a"; SStr "b"] i)
                (seq 0 (List.length [SStr "a"; SStr "b"]))) s').
Proof.
  apply (unbind_silences_prefix bound_a (RStr "/a") RUndef [SStr "a"]
           [SStr "a"; SStr "b"] RUndef RUndef).
  - reflexivity.
  - discriminate.
  - reflexivity.
Defined.

(** X4. Source exclusion.  A dispatch calls every function observer and
    sends an update to every other observer but the source of the write:
    for each prefix the deliveries are those of the registered observers, in
    order, without the ones identical to the source. *)
Theorem dispatch_excludes_source s ctx src p :
  p <> [] ->
  in_containers (model s) (keys p) = true ->
  modelTrigger (RPath p) ctx src s
  = (Ret tt,
     add_log
       (flat_map
          (fun i =>
             match binding_get (path_toString (firstn (S i) p)) (modelBinding s) with
             | Some os =>
                 map (notification_for (change_at (model s) p i))
                     (filter (fun b => match b with
                                       | ObsFun _ => true
                                       | ObsRef r => negb (ref_same r src)
                                       end) os)
             | None => []
             end)
          (seq 0 (List.length p))) s).
Proof.
  intros Hne Hin. rewrite modelTrigger_in_containers by assumption.
  f_equal. f_equal. unfold dispatch. apply flat_map_ext. intros i.
  unfold deliveries_at.
  destruct (binding_get _ (modelBinding s)) as [os|]; [|reflexivity].
  induction os as [|b os IH]; [reflexivity|].
  cbn [flat_map filter]. rewrite IH.
  destruct b as [f|r]; cbn [delivery]; [reflexivity|].
  destruct (ref_same r src); reflexivity.
Qed.

Lemma dispatch_excludes_source_witness :
  modelTrigger (RPath [SStr "a"; SStr "b"]) RUndef RUndef bound_a
  = (Ret tt,
     add_log
       (flat_map
          (fun i =>
             match binding_get (path_toString (firstn (S i) [SStr "a"; SStr "b"]))
                               (modelBinding bound_a) with
             | Some os =>
                 map (notification_for (change_at (model bound_a) [SStr "a"; SStr "b"] i))
                     (filter (fun b => match b with
                                       | ObsFun _ => true
                                       | ObsRef r => negb (ref_same r RUndef)
                                       end) os)
             | None => []
             end)
          (seq 0 (List.length [SStr "a"; SStr "b"]))) bound_a).
Proof.
  apply (dispatch_excludes_source bound_a RUndef RUndef [SStr "a"; SStr "b"]).
  - discriminate.
  - reflexivity.
Defined.

(* ===================================================================== *)
(** ** Strings of paths *)

Lemma append_empty_r s : (s ++ "")%string = s.
Proof. induction s; simpl; congruence. Qed.

Lemma append_assoc_string a b c : ((a ++ b) ++ c)%string = (a ++ (b ++ c))%string.
Proof. induction a; simpl; congruence. Qed.

Lemma split_aux_cons sep cur s :
  exists h t, split_aux sep cur s = h :: t
              /\ (cur <> "" -> h <> "").
Proof.
  revert cur. induction s as [|c r IH]; intros cur; simpl.
  - exists cur, []. auto.
  - destruct (Ascii.eqb c sep).
    + exists cur, (split_aux sep "" r). auto.
    + destruct (IH (cur ++ String c "")%string) as (h & t & E & Hh).
      exists h, t. split; [exact E|]. intros _. apply Hh.
      destruct cur; simpl; discriminate.
Qed.

Lemma join_slash_cons x y l :
  join_slash (x :: y :: l) = (x ++ "/" ++ join_slash (y :: l))%string.
Proof. reflexivity. Qed.

(** [s.split('/').join('/')] is [s]. *)
Lemma join_split_aux cur s :
  join_slash (split_aux "/"%char cur s) = (cur ++ s)%string.
Proof.
  revert cur. induction s as [|c r IH]; intros cur; simpl.
  - now rewrite append_empty_r.
  - destruct (Ascii.eqb c "/"%char) eqn:E.
    + apply Ascii.eqb_eq in E. subst c.
      destruct (split_aux_cons "/"%char "" r) as (h & t & Hs & _).
      pose proof (IH ""%string) as Hj. rewrite Hs in *.
      rewrite join_slash_cons, Hj. reflexivity.
    + rewrite IH, append_assoc_string. reflexivity.
Qed.

Lemma keys_of_strings l : map seg_key (map SStr l) = l.
Proof. induction l; simpl; congruence. Qed.

Lemma join_slash_app l1 l2 :
  l1 <> [] -> l2 <> [] ->
  join_slash (l1 ++ l2) = (join_slash l1 ++ "/" ++ join_slash l2)%string.
Proof.
  intros H1 H2. induction l1 as [|x l1 IH]; [now elim H1|].
  destruct l1 as [|y l1].
  - destruct l2 as [|z l2]; [now elim H2|]. reflexivity.
  - cbn [app] in *. rewrite !join_slash_cons, IH by discriminate.
    now rewrite !append_assoc_string.
Qed.

(** X5. The canonical string of a parsed absolute string is that string:
    [$.modelPath(s).toString() == s] for every [s] that starts with the
    separator, whatever the context. *)
Theorem absolute_string_round_trip o r c :
  exists p,
    modelPath o (RStr (String "/"%char r)) c = Ret (RPath p)
    /\ path_toString p = String "/"%char r.
Proof.
  exists (map SStr (split_aux "/"%char "" r)). split.
  - reflexivity.
  - unfold path_toString, path_join. rewrite keys_of_strings, join_split_aux.
    reflexivity.
Qed.

Lemma split_aux_app cur a b :
  split_aux "/"%char cur (a ++ String "/"%char b)
  = split_aux "/"%char cur a ++ split_aux "/"%char "" b.
Proof.
  revert cur. induction a as [|c r IH]; intros cur; cbn [append split_aux].
  - reflexivity.
  - destruct (Ascii.eqb c "/"%char); [|apply IH].
    cbn [app]. now rewrite IH.
Qed.

(** X6. A relative string is resolved under the context, or under the global
    context when the context is omitted or falsy: when that context is an
    absolute string [g], the result is the path of the absolute string made
    of [g], the separator and the relative string, and has that string as
    its canonical string.  With the default global context ["/"] a relative
    reference [r] therefore resolves to ["//" ++ r], below the segment with
    the empty name. *)
Theorem relative_string_under_context o rel c g c' :
  (if ref_truthy c then c else globalContext o) = RStr g ->
  starts_with_slash g = true ->
  rel <> "" ->
  starts_with_slash rel = false ->
  exists p,
    modelPath o (RStr rel) c = Ret (RPath p)
    /\ modelPath o (RStr (g ++ "/" ++ rel)) c' = Ret (RPath p)
    /\ path_toString p = (g ++ "/" ++ rel)%string.
Proof.
  intros Hc Hg Hne Hrel.
  destruct g as [|gc gr]; [discriminate|]. cbn in Hg.
  apply Ascii.eqb_eq in Hg. subst gc.
  destruct rel as [|rc rr]; [now elim Hne|]. cbn in Hrel.
  destruct (split_aux_cons "/"%char (String rc "") rr) as (h & t & Hs & Hh).
  assert (Hsplit : split_slash (String rc rr) = h :: t).
  { unfold split_slash. cbn [split_aux]. rewrite Hrel. exact Hs. }
  assert (Hhne : h <> "") by (apply Hh; discriminate).
  exists (map SStr (split_aux "/"%char "" gr) ++ map SStr (h :: t)).
  split; [|split].
  - unfold modelPath. cbn [modelPath_rec]. rewrite Hsplit, Hc.
    destruct h as [|hc hr]; [now elim Hhne|]. reflexivity.
  - unfold modelPath. cbn [modelPath_rec]. unfold split_slash.
    cbn [append split_aux Ascii.eqb Bool.eqb andb].
    rewrite split_aux_app, map_app. fold (split_slash (String rc rr)).
    now rewrite Hsplit.
  - unfold path_toString, path_join. rewrite map_app, !keys_of_strings.
    destruct (split_aux_cons "/"%char "" gr) as (h' & t' & Hs' & _).
    rewrite join_slash_app by (rewrite ?Hs'; discriminate).
    rewrite join_split_aux, <- Hsplit. unfold split_slash.
    rewrite join_split_aux. reflexivity.
Qed.

Lemma relative_string_under_context_witness :
  exists p,
    modelPath default_options (RStr "name") RUndef = Ret (RPath p)
    /\ modelPath default_options (RStr ("/" ++ "/" ++ "name")) RNull = Ret (RPath p)
    /\ path_toString p = ("/" ++ "/" ++ "name")%string.
Proof.
  apply (relative_string_under_context default_options "name" RUndef "/" RNull).
  - reflexivity.
  - reflexivity.
  - discriminate.
  - reflexivity.
Defined.

(* ===================================================================== *)
(** ** Scope chains *)

Lemma accum_chain_anchor o nodes anchor outer a :
  no_anchor o nodes = true ->
  getAttribute anchor (refAttr o) = Some a ->
  starts_with_slash a = true ->
  forall refs,
    accum_chain o (nodes ++ anchor :: outer) refs
    = a :: rev (declared o nodes) ++ refs.
Proof.
  intros Hno Ha Hs. induction nodes as [|n nodes IH]; intros refs.
  - cbn. unfold accumRefs. now rewrite Ha, Hs.
  - cbn [no_anchor forallb] in Hno. apply andb_prop in Hno.
    destruct Hno as [Hn Hno].
    cbn [app accum_chain declared flat_map]. unfold accumRefs.
    destruct (getAttribute n (refAttr o)) as [x|].
    + apply negb_true_iff in Hn. rewrite Hn, (IH Hno).
      cbn [app rev]. fold (declared o nodes).
      now rewrite <- app_assoc.
    + rewrite (IH Hno). reflexivity.
Qed.

(** X7. The first absolute segment on the way out anchors the path of an
    element: the reference of the element is that segment followed by the
    segments declared further in, outermost first, and what the ancestors
    beyond the anchor declare plays no part. *)
Theorem scope_chain_anchored o id self inner anchor outer a c :
  no_anchor o (self :: inner) = true ->
  getAttribute anchor (refAttr o) = Some a ->
  starts_with_slash a = true ->
  modelPath o (RElem {| el_id := id; el_attrs := self;
                        el_ancestors := inner ++ anchor :: outer |}) c
  = modelPath o (RStr (join_slash (a :: rev (declared o (self :: inner))))) c.
Proof.
  intros Hno Ha Hs. unfold modelPath. cbn [modelPath_rec].
  unfold element_ref. cbn [el_attrs el_ancestors].
  change (self :: inner ++ anchor :: outer) with ((self :: inner) ++ anchor :: outer).
  rewrite (accum_chain_anchor o (self :: inner) anchor outer a Hno Ha Hs).
  now rewrite app_nil_r.
Qed.

Lemma scope_chain_anchored_witness :
  modelPath default_options
    (RElem {| el_id := 1; el_attrs := [("ref", "name")];
              el_ancestors := [[("class", "x")]; [("ref", "3")]]
                              ++ [("ref", "/user")] :: [[("ref", "/top")]] |})
    RUndef
  = modelPath default_options
      (RStr (join_slash ("/user" :: rev (declared default_options
                                          ([("ref", "name")]
                                             :: [[("class", "x")]; [("ref", "3")]])))))
      RUndef.
Proof.
  apply (scope_chain_anchored default_options 1 [("ref", "name")]
           [[("class", "x")]; [("ref", "3")]] [("ref", "/user")] [[("ref", "/top")]]
           "/user" RUndef); reflexivity.
Defined.

(** X8. A global context that is itself a relative string cannot be
    resolved: resolving it calls [$.modelPath] on it again, at every depth,
    so a relative reference without a context never gets a path (the
    recursion ends only when the call stack is exhausted). *)
Theorem relative_global_context_diverges o g rel c fuel :
  globalContext o = RStr g ->
  g <> "" -> starts_with_slash g = false ->
  ref_truthy c = false ->
  rel <> "" -> starts_with_slash rel = false ->
  modelPath_rec fuel o (RStr rel) c = Throw RangeError.
Proof.
  intros Hg Hne Hs Hc Hrne Hrs.
  assert (Hrelative : forall x, x <> "" -> starts_with_slash x = false ->
                                exists h t, split_slash x = h :: t /\ h <> "").
  { intros x Hx Hxs. destruct x as [|xc xr]; [now elim Hx|]. cbn in Hxs.
    destruct (split_aux_cons "/"%char (String xc "") xr) as (h & t & E & Hh).
    exists h, t. split; [|apply Hh; discriminate].
    unfold split_slash. cbn [split_aux]. now rewrite Hxs. }
  assert (Hglobal : forall n, modelPath_rec n o (RStr g) RUndef = Throw RangeError).
  { induction n as [|n IH]; [reflexivity|].
    destruct (Hrelative g Hne Hs) as (h & t & E & Hh).
    cbn [modelPath_rec ref_truthy]. rewrite E, Hg, IH.
    destruct h; [now elim Hh | reflexivity]. }
  destruct fuel as [|n]; [reflexivity|].
  destruct (Hrelative rel Hrne Hrs) as (h & t & E & Hh).
  cbn [modelPath_rec]. rewrite E, Hc, Hg, Hglobal.
  destruct h; [now elim Hh | reflexivity].
Qed.

Lemma relative_global_context_diverges_witness :
  modelPath_rec 7
    {| createArrays := true; globalContext := RStr "app"; refAttr := "ref" |}
    (RStr "name") RUndef
  = Throw RangeError.
Proof.
  apply (relative_global_context_diverges
           {| createArrays := true; globalContext := RStr "app"; refAttr := "ref" |}
           "app" "name" RUndef 7);
    solve [reflexivity | discriminate].
Defined.

(* ===================================================================== *)
(** ** Deleting *)

Lemma assoc_get_del_same k l : assoc_get k (assoc_del k l) = None.
Proof.
  induction l as [|[k' v'] l IH]; simpl; [reflexivity|].
  destruct (String.eqb k k') eqn:E; simpl; [exact IH | now rewrite E].
Qed.

Lemma assoc_get_del_other k k' l :
  String.eqb k k' = false -> assoc_get k (assoc_del k' l) = assoc_get k l.
Proof.
  intros Hne. induction l as [|[k0 v0] l IH]; simpl; [reflexivity|].
  destruct (String.eqb k' k0) eqn:E; simpl.
  - apply String.eqb_eq in E. subst k0. now rewrite Hne.
  - destruct (String.eqb k k0); auto.
Qed.

(** The walk of a delete along a path that runs through containers: nothing
    is absent, so nothing is thrown and nothing changes. *)
Lemma delete_walk p s :
  p <> [] ->
  in_containers (model s) (keys p) = true ->
  catch_nothing_to_delete MDelete
    (modelWalk (value_callback MDelete) (RPath p) None RUndef) s
  = (Ret (Some (lookup_loc (model s) (keys p),
                Some (TStore (keys (removelast p)), last p (SStr "")))), s).
Proof.
  intros Hne Hin.
  destruct (walk_in_containers p [] None s Hne Hin) as (Hp & w & Hw & Hv).
  cbn [app] in Hw, Hv.
  pose proof (in_containers_root s p Hne Hin) as Hroot.
  rewrite <- Hroot in Hp, Hw.
  pose proof (walk_present MDelete p [] (model_root s) None s Hp) as Hwalk.
  cbn [app List.length] in Hwalk.
  unfold catch_nothing_to_delete, modelWalk.
  rewrite modelPath_of_path, Hwalk, Hw, Hv. reflexivity.
Qed.

(** What a delete does once the parent was changed by [f]: it dispatches
    along the path and returns the value that was there. *)
Lemma delete_finish p s root2 :
  p <> [] ->
  in_containers root2 (keys p) = true ->
  forall v : value,
    (modelTrigger (RPath p) RUndef RUndef ;;; ret v) (set_model root2 s)
    = (Ret v, add_log (dispatch (set_model root2 s) RUndef p) (set_model root2 s)).
Proof.
  intros Hne Hin v. unfold bind.
  rewrite (modelTrigger_in_containers RUndef p RUndef (set_model root2 s)) by assumption.
  reflexivity.
Qed.

Lemma in_containers_after_update root (p : path) c' root2 :
  p <> [] ->
  in_containers root (keys p) = true ->
  lookup_loc root2 (keys (removelast p)) = c' ->
  in_containers root2 (keys (removelast p)) = true ->
  is_container c' = true ->
  slot_ok c' (seg_key (last p (SStr ""))) = true ->
  in_containers root2 (keys p) = true.
Proof.
  intros Hne Hin Hlk Hin2 Hc Hs.
  rewrite <- (keys_removelast_last p Hne), in_containers_app, Hin2.
  cbn [in_containers]. now rewrite Hlk, Hc, Hs.
Qed.

(** X9. Deleting a field of an object (one that has no truthy own property
    [splice]) along a path of plain keys through containers removes that
    field and no other, returns the value that was there ([undefined] when
    the field did not exist), and always dispatches along the path, also
    when nothing was there to remove. *)
Theorem delete_removes_field s ref ctx p id fs :
  modelPath (modelOptions s) ref ctx = Ret (RPath p) ->
  p <> [] ->
  plain_path p = true ->
  in_containers (model s) (keys p) = true ->
  lookup_loc (model s) (keys (removelast p)) = VObj id fs ->
  own_splice fs NoSplice = NoSplice ->
  let k := seg_key (last p (SStr "")) in
  exists s',
    modelDelete ref ctx s = (Ret (lookup_loc (model s) (keys p)), s')
    /\ lookup_loc (model s') (keys (removelast p)) = VObj id (assoc_del k fs)
    /\ lookup_loc (model s') (keys p) = VUndef
    /\ (forall k', k' <> k ->
                   get_prop (lookup_loc (model s') (keys (removelast p))) k'
                   = get_prop (VObj id fs) k')
    /\ log s' = log s ++ dispatch s' RUndef p
    /\ modelBinding s' = modelBinding s.
Proof.
  intros Hr Hne _ Hin Hpar Hspl k.
  destruct (in_containers_last _ p Hne Hin) as (Hinp & _ & _).
  destruct (update_loc_ok (model s) (keys (removelast p))
              (fun c => Ret (delete_prop c k)) (VObj id (assoc_del k fs)) Hinp)
    as (root2 & Hup & Hlk & Hin2 & _).
  { now rewrite Hpar. }
  assert (Hin2' : in_containers root2 (keys p) = true)
    by (eapply in_containers_after_update; eauto).
  exists (add_log (dispatch (set_model root2 s) RUndef p) (set_model root2 s)).
  split; [|split; [|split; [|split; [|split]]]].
  - unfold modelDelete. rewrite (with_path_resolved _ _ _ _ _ Hr).
    unfold modelValue, bind at 1. rewrite (delete_walk p s Hne Hin).
    unfold bind at 1. unfold splice_of. rewrite Hpar, Hspl.
    unfold this_delete. fold k. rewrite Hup.
    now rewrite (delete_finish p s root2 Hne Hin2').
  - exact Hlk.
  - cbn [model add_log set_model].
    rewrite <- (keys_removelast_last p Hne), lookup_loc_app, Hlk.
    cbn [lookup_loc get_prop]. fold k. now rewrite assoc_get_del_same.
  - intros k' Hk'. cbn [model add_log set_model]. rewrite Hlk. cbn [get_prop].
    rewrite assoc_get_del_other; [reflexivity | now apply String.eqb_neq].
  - reflexivity.
  - reflexivity.
Qed.

Lemma delete_removes_field_witness :
  let k := seg_key (last [SStr "a"; SStr "b"] (SStr "")) in
  exists s',
    modelDelete (RStr "/a/b") RUndef bound_a
    = (Ret (lookup_loc (model bound_a) (keys [SStr "a"; SStr "b"])), s')
    /\ lookup_loc (model s') (keys (removelast [SStr "a"; SStr "b"]))
       = VObj 1 (assoc_del k [("b", VNum (Int 5))])
    /\ lookup_loc (model s') (keys [SStr "a"; SStr "b"]) = VUndef
    /\ (forall k', k' <> k ->
                   get_prop (lookup_loc (model s') (keys (removelast [SStr "a"; SStr "b"]))) k'
                   = get_prop (VObj 1 [("b", VNum (Int 5))]) k')
    /\ log s' = log bound_a ++ dispatch s' RUndef [SStr "a"; SStr "b"]
    /\ modelBinding s' = modelBinding bound_a.
Proof.
  apply (delete_removes_field bound_a (RStr "/a/b") RUndef [SStr "a"; SStr "b"]
           1 [("b", VNum (Int 5))]);
    solve [reflexivity | discriminate].
Defined.










(* ===================================================================== *)
(** ** Template substitution *)

Example modelSub_pager :
  modelSub "Page {/pager/page} of {/pager/pages}" None RUndef store_pager
  = (Ret "Page 2 of 10", store_pager).
Proof. reflexivity. Qed.

Example modelSub_same_placeholder_twice :
  run (modelSub "{/pager/page}/{/pager/page}" None RUndef) store_pager = Ret "2/2".
Proof. reflexivity. Qed.

Example modelSub_unclosed :
  run (modelSub "a{b{/pager/page}c}{}" None RUndef) store_pager = Ret "a{b2c}{}".
Proof. reflexivity. Qed.

Lemma string_of_chars s : string_of_list_ascii (chars s) = s.
Proof. induction s; simpl; congruence. Qed.

Lemma chars_of_list l : chars (string_of_list_ascii l) = l.
Proof. induction l; simpl; congruence. Qed.

Lemma chars_app a b : chars (a ++ b) = chars a ++ chars b.
Proof. induction a; simpl; congruence. Qed.

Lemma placeholders_no_open l :
  no_open l = true -> placeholders None l = [].
Proof.
  induction l as [|c r IH]; [reflexivity|].
  cbn [no_open forallb]. intros H. apply andb_prop in H. destruct H as [Hc Hr].
  apply negb_true_iff in Hc. cbn [placeholders]. rewrite Hc. now apply IH.
Qed.

Lemma placeholders_skip pre l :
  no_open pre = true -> placeholders None (pre ++ l) = placeholders None l.
Proof.
  induction pre as [|c r IH]; [reflexivity|].
  cbn [no_open forallb]. intros H. apply andb_prop in H. destruct H as [Hc Hr].
  apply negb_true_iff in Hc. cbn [app placeholders]. rewrite Hc. now apply IH.
Qed.

Lemma placeholders_inside m post :
  no_brace m = true ->
  forall acc,
    placeholders (Some acc) (m ++ "}"%char :: post)
    = match rev m ++ acc with
      | [] => placeholders None post
      | _ => rev (rev m ++ acc) :: placeholders None post
      end.
Proof.
  induction m as [|c r IH]; intros Hm acc.
  - cbn [app rev placeholders]. change (is_open "}"%char) with false.
    change (is_close "}"%char) with true. cbv iota. reflexivity.
  - cbn [no_brace forallb] in Hm. apply andb_prop in Hm. destruct Hm as [Hc Hr].
    apply negb_true_iff in Hc. unfold is_brace in Hc.
    apply orb_false_iff in Hc. destruct Hc as [Ho Hcl].
    cbn [app placeholders]. rewrite Ho, Hcl, (IH Hr).
    cbn [rev]. now rewrite <- app_assoc.
Qed.

Lemma no_brace_no_open l : no_brace l = true -> no_open l = true.
Proof.
  unfold no_brace, no_open.
  induction l as [|c r IH]; [reflexivity|].
  cbn [forallb]. intros H. apply andb_prop in H.
  destruct H as [Hc Hr]. rewrite (IH Hr), andb_true_r.
  apply negb_true_iff in Hc. unfold is_brace in Hc.
  apply orb_false_iff in Hc. destruct Hc as [Ho _]. now rewrite Ho.
Qed.

(** The matches of a template with one well-formed placeholder. *)
Lemma placeholders_single pre m post :
  no_open pre = true -> no_brace m = true -> m <> [] -> no_open post = true ->
  placeholders None (pre ++ placeholder_text m ++ post) = [m].
Proof.
  intros Hpre Hm Hne Hpost. rewrite placeholders_skip by assumption.
  unfold placeholder_text. cbn [app placeholders].
  change (is_open "{"%char) with true. cbv iota.
  rewrite <- app_assoc. cbn [app].
  rewrite placeholders_inside by assumption.
  rewrite app_nil_r, rev_involutive, (placeholders_no_open post Hpost).
  destruct (rev m) eqn:E; [|reflexivity].
  apply (f_equal (@rev ascii)) in E. rewrite rev_involutive in E. now elim Hne.
Qed.

Lemma prefixb_app n post : prefixb n (n ++ post) = true.
Proof.
  induction n as [|a n IH]; [reflexivity|].
  cbn. now rewrite Ascii.eqb_refl.
Qed.

Lemma skipn_app_length (n post : list ascii) : skipn (List.length n) (n ++ post) = post.
Proof. induction n; simpl; auto. Qed.

Lemma find_first_after pre m post :
  no_open pre = true ->
  find_first (placeholder_text m) (pre ++ placeholder_text m ++ post)
  = Some (pre, post).
Proof.
  intros Hpre. induction pre as [|c r IH].
  - cbn [app]. destruct (placeholder_text m ++ post) eqn:E;
      [discriminate E|].
    rewrite <- E. cbn [find_first].
    assert (H : forall h, h = placeholder_text m ++ post ->
                          find_first (placeholder_text m) h = Some ([], post)).
    { intros h ->. destruct (placeholder_text m ++ post) eqn:E2; [discriminate E2|].
      rewrite <- E2. unfold find_first at 1.
      destruct (placeholder_text m ++ post) eqn:E3; [discriminate E3|].
      rewrite <- E3, prefixb_app. now rewrite skipn_app_length. }
    now apply H.
  - cbn [no_open forallb] in Hpre. apply andb_prop in Hpre.
    destruct Hpre as [Hc Hr]. apply negb_true_iff in Hc. unfold is_open in Hc.
    cbn [app find_first]. unfold placeholder_text at 1. cbn [prefixb].
    rewrite Ascii.eqb_sym, Hc. cbn [andb].
    fold (placeholder_text m). now rewrite (IH Hr).
Qed.

Lemma expand_no_dollar matched before after r :
  no_dollar r = true -> expand_dollar matched before after r = Some r.
Proof.
  induction r as [|c r IH]; [reflexivity|].
  cbn [no_dollar forallb]. intros H. apply andb_prop in H. destruct H as [Hc Hr].
  apply negb_true_iff in Hc. cbn [expand_dollar]. rewrite Hc.
  fold (no_dollar r) in Hr. now rewrite (IH Hr).
Qed.

(** X12. A template without an opening brace has no placeholder:
    [$.modelSub] returns it as it is and touches nothing. *)
Theorem modelSub_no_placeholder template cb ctx s :
  no_open (chars template) = true ->
  modelSub template cb ctx s = (Ret template, s).
Proof.
  intros H. unfold modelSub, bind.
  rewrite (placeholders_no_open _ H). cbn [sub_loop]. unfold ret.
  now rewrite string_of_chars.
Qed.

Lemma modelSub_no_placeholder_witness :
  modelSub "Page 2 of 10 }" None RUndef store_pager = (Ret "Page 2 of 10 }", store_pager).
Proof. apply (modelSub_no_placeholder "Page 2 of 10 }" None RUndef store_pager). reflexivity. Defined.

(** A template with one placeholder: the placeholder is replaced by the
    expansion of the converted value. *)
Lemma modelSub_single_expand pre m post cb ctx s v s' str text :
  no_open (chars pre) = true ->
  no_brace (chars m) = true ->
  m <> "" ->
  no_open (chars post) = true ->
  modelGet (RStr m) ctx s = (Ret v, s') ->
  to_string (match cb with Some f => f | None => fun x => x end v) = Ret str ->
  expand_dollar (placeholder_text (chars m)) (chars pre) (chars post) (chars str)
  = Some (chars text) ->
  modelSub (pre ++ "{" ++ m ++ "}" ++ post) cb ctx s
  = (Ret (pre ++ text ++ post)%string, s').
Proof.
  intros Hpre Hm Hne Hpost Hget Hstr Hexp.
  assert (Hchars : chars (pre ++ "{" ++ m ++ "}" ++ post)
                   = chars pre ++ placeholder_text (chars m) ++ chars post).
  { rewrite !chars_app. unfold placeholder_text. cbn [chars app].
    now rewrite <- app_assoc. }
  assert (Hmne : chars m <> []) by (destruct m; [now elim Hne | discriminate]).
  unfold modelSub. rewrite Hchars.
  rewrite (placeholders_single _ _ _ Hpre Hm Hmne Hpost).
  cbn [sub_loop]. rewrite string_of_chars.
  unfold bind, lift. rewrite Hget, Hstr.
  unfold replace_first. rewrite (find_first_after _ _ _ Hpre), Hexp.
  unfold ret. f_equal. f_equal.
  rewrite <- !chars_app. apply string_of_chars.
Qed.

(** X13. A template with one placeholder, between texts without an opening
    brace: [$.modelSub] gets the value at the reference between the braces
    (the callback, when there is one, is applied to it), converts it to a
    string and puts it in the place of the placeholder, as it is when the
    string holds no dollar sign.  The state is what the get leaves. *)
Theorem modelSub_single pre m post cb ctx s v s' str :
  no_open (chars pre) = true ->
  no_brace (chars m) = true ->
  m <> "" ->
  no_open (chars post) = true ->
  modelGet (RStr m) ctx s = (Ret v, s') ->
  to_string (match cb with Some f => f | None => fun x => x end v) = Ret str ->
  no_dollar (chars str) = true ->
  modelSub (pre ++ "{" ++ m ++ "}" ++ post) cb ctx s
  = (Ret (pre ++ str ++ post)%string, s').
Proof.
  intros Hpre Hm Hne Hpost Hget Hstr Hd.
  eapply modelSub_single_expand; eauto.
  now apply expand_no_dollar.
Qed.

Lemma modelSub_single_witness :
  modelSub ("Page " ++ "{" ++ "/pager/page" ++ "}" ++ " of 10") None RUndef store_pager
  = (Ret ("Page " ++ "2" ++ " of 10")%string, store_pager).
Proof.
  apply (modelSub_single "Page " "/pager/page" " of 10" None RUndef store_pager
           (VNum (Int 2)) store_pager "2");
    solve [reflexivity | discriminate].
Defined.

Lemma expand_dollar_app matched before after x r :
  no_dollar x = true ->
  expand_dollar matched before after (x ++ r)
  = option_map (app x) (expand_dollar matched before after r).
Proof.
  induction x as [|c x IH]; intros H.
  - cbn. now destruct (expand_dollar matched before after r).
  - cbn [no_dollar forallb] in H. apply andb_prop in H. destruct H as [Hc Hx].
    apply negb_true_iff in Hc. cbn [app expand_dollar]. rewrite Hc.
    fold (no_dollar x) in Hx. rewrite (IH Hx).
    now destruct (expand_dollar matched before after r).
Qed.

(** X14. Dollar signs in a substituted value are read as the replacement
    patterns of [String.prototype.replace]: in the place of the placeholder
    [$$] leaves one dollar sign, and [$&] leaves the placeholder itself. *)
Theorem modelSub_dollar_patterns pre m post cb ctx s v s' x y :
  no_open (chars pre) = true ->
  no_brace (chars m) = true ->
  m <> "" ->
  no_open (chars post) = true ->
  modelGet (RStr m) ctx s = (Ret v, s') ->
  no_dollar (chars x) = true ->
  no_dollar (chars y) = true ->
  (to_string (match cb with Some f => f | None => fun x => x end v)
   = Ret (x ++ "$$" ++ y)%string ->
   modelSub (pre ++ "{" ++ m ++ "}" ++ post) cb ctx s
   = (Ret (pre ++ (x ++ "$" ++ y) ++ post)%string, s'))
  /\ (to_string (match cb with Some f => f | None => fun x => x end v)
      = Ret (x ++ "$&" ++ y)%string ->
      modelSub (pre ++ "{" ++ m ++ "}" ++ post) cb ctx s
      = (Ret (pre ++ (x ++ ("{" ++ m ++ "}") ++ y) ++ post)%string, s')).
Proof.
  intros Hpre Hm Hne Hpost Hget Hx Hy. split; intros Hstr.
  - eapply modelSub_single_expand; eauto.
    rewrite !chars_app, expand_dollar_app by assumption.
    cbn [chars app expand_dollar Ascii.eqb Bool.eqb andb].
    rewrite (expand_no_dollar _ _ _ _ Hy). reflexivity.
  - eapply modelSub_single_expand; eauto.
    rewrite !chars_app, expand_dollar_app by assumption.
    cbn [chars app expand_dollar Ascii.eqb Bool.eqb andb].
    rewrite (expand_no_dollar _ _ _ _ Hy). cbn [option_map].
    unfold placeholder_text. cbn [chars app]. rewrite <- !app_assoc. reflexivity.
Qed.

Lemma modelSub_dollar_patterns_witness :
  modelSub ("It costs " ++ "{" ++ "/price" ++ "}" ++ ".") None RUndef store_price
  = (Ret ("It costs " ++ ("US" ++ "$" ++ "5") ++ ".")%string, store_price)
  /\ modelSub ("a " ++ "{" ++ "/odd" ++ "}" ++ " b") None RUndef store_price
     = (Ret ("a " ++ ("<" ++ ("{" ++ "/odd" ++ "}") ++ ">") ++ " b")%string, store_price).
Proof.
  split.
  - apply (proj1 (modelSub_dollar_patterns "It costs " "/price" "." None RUndef
                    store_price (VStr "US$$5") store_price "US" "5"
                    eq_refl eq_refl ltac:(discriminate) eq_refl eq_refl eq_refl eq_refl)).
    reflexivity.
  - apply (proj2 (modelSub_dollar_patterns "a " "/odd" " b" None RUndef
                    store_price (VStr "<$&>") store_price "<" ">"
                    eq_refl eq_refl ltac:(discriminate) eq_refl eq_refl eq_refl eq_refl)).
    reflexivity.
Defined.

(* ===================================================================== *)
(** ** The root path *)

(** X15. On the root path (the empty string, an empty array) a get returns
    the whole model and changes nothing, while a set and a delete raise
    [TypeError], the walk having visited no segment, and change nothing
    either. *)
Theorem root_path_operations s ref ctx v src :
  modelPath (modelOptions s) ref ctx = Ret (RPath []) ->
  modelGet ref ctx s = (Ret (model s), s)
  /\ modelSet ref v ctx src s = (Throw TypeError, s)
  /\ modelDelete ref ctx s = (Throw TypeError, s).
Proof.
  intros Hr. unfold modelGet, modelSet, modelDelete.
  rewrite !(with_path_resolved _ _ _ _ _ Hr).
  unfold modelValue, bind, catch_nothing_to_delete, modelWalk.
  rewrite modelPath_of_path. cbn [walk_loop]. unfold ret, throw.
  repeat split.
  unfold model_root, wval_value. now destruct (is_container (model s)).
Qed.

Lemma root_path_operations_witness :
  modelGet (RStr "") RUndef store_a5 = (Ret (model store_a5), store_a5)
  /\ modelSet (RStr "") (VNum (Int 1)) RUndef RUndef store_a5 = (Throw TypeError, store_a5)
  /\ modelDelete (RStr "") RUndef store_a5 = (Throw TypeError, store_a5).
Proof.
  apply (root_path_operations store_a5 (RStr "") RUndef (VNum (Int 1)) RUndef).
  reflexivity.
Defined.

(* ===================================================================== *)
(** ** What a set leaves alone *)

Lemma nth_list_set_other i j v l :
  i <> j -> nth j (list_set i v l) VUndef = nth j l VUndef.
Proof.
  revert j l. induction i as [|i IH]; intros [|j] [|x l] H; simpl; auto;
    try (now elim H).
  - now destruct j.
  - rewrite IH by lia. now destruct j.
Qed.

Lemma get_store_other o k x b :
  independent_keys k b = true ->
  get_prop (store_prop o k x) b = get_prop o b.
Proof.
  unfold independent_keys. intros H.
  apply andb_prop in H. destruct H as [H Hidx].
  apply andb_prop in H. destruct H as [Hne Hlen].
  apply negb_true_iff in Hne, Hlen. rewrite String.eqb_sym in Hne.
  destruct o; simpl; auto.
  - now rewrite assoc_get_set_other.
  - destruct (array_index k) as [i|] eqn:Ek.
    + simpl. destruct (array_index b) as [j|] eqn:Eb.
      * apply negb_true_iff, Nat.eqb_neq in Hidx. now apply nth_list_set_other.
      * now rewrite Hlen.
    + destruct (String.eqb k "length"); [reflexivity|].
      simpl. destruct (array_index b); [reflexivity|].
      rewrite Hlen. now rewrite assoc_get_set_other.
Qed.

Lemma agree_off_refl kp : forall r, agree_off kp r r.
Proof. induction kp; simpl; auto. Qed.

Lemma agree_off_trans kp :
  forall a b c, agree_off kp a b -> agree_off kp b c -> agree_off kp a c.
Proof.
  induction kp as [|k kp IH]; intros a b c; simpl; [auto|].
  intros [H1 H1'] [H2 H2']. split.
  - intros x Hx. now rewrite H2, H1.
  - eapply IH; eauto.
Qed.

(** Off the keys [kp] a lookup finds the same in both. *)
Lemma agree_off_lookup kp :
  forall kq r r',
    agree_off kp r r' -> diverges kp kq = true ->
    lookup_loc r' kq = lookup_loc r kq.
Proof.
  induction kp as [|a kp IH]; intros [|b kq] r r' Hag Hd; try discriminate.
  cbn [diverges] in Hd. destruct Hag as [Hslot Hrest].
  destruct (String.eqb a b) eqn:E.
  - apply String.eqb_eq in E. subst b. cbn [lookup_loc]. now apply IH.
  - cbn [lookup_loc]. now rewrite Hslot.
Qed.

(** One write on the way of [kp] keeps everything off [kp]. *)
Lemma agree_off_update loc :
  forall root k x rest root',
    in_containers root (loc ++ [k]) = true ->
    update_loc root loc (fun c => Ret (store_prop c k x)) = Ret root' ->
    agree_off rest (get_prop (lookup_loc root loc) k) x ->
    agree_off (loc ++ k :: rest) root root'.
Proof.
  induction loc as [|a loc IH]; intros root k x rest root' Hin Hup Hx.
  - cbn in Hup. injection Hup as <-. cbn [app agree_off lookup_loc] in *.
    cbn [in_containers] in Hin. apply andb_prop in Hin. destruct Hin as [Hin _].
    apply andb_prop in Hin. destruct Hin as [Hc Hs]. split.
    + intros b Hb. now apply get_store_other.
    + now rewrite get_store_same.
  - cbn [app in_containers] in Hin. apply andb_prop in Hin. destruct Hin as [Hin Hr].
    apply andb_prop in Hin. destruct Hin as [Hc Hs].
    cbn [update_loc] in Hup.
    destruct (update_loc (get_prop root a) loc (fun c => Ret (store_prop c k x)))
      as [child| |] eqn:Eu; try discriminate.
    injection Hup as <-. cbn [app agree_off]. split.
    + intros b Hb. now apply get_store_other.
    + rewrite get_store_same by assumption. eapply IH; eauto.
Qed.

Lemma update_loc_ext loc :
  forall root f g,
    f (lookup_loc root loc) = g (lookup_loc root loc) ->
    update_loc root loc f = update_loc root loc g.
Proof.
  induction loc as [|a loc IH]; intros root f g H; cbn in *; [exact H|].
  now rewrite (IH _ f g H).
Qed.

Lemma agree_off_app_undef kp r : forall loc root,
  lookup_loc root loc = VUndef ->
  agree_off kp VUndef r ->
  agree_off kp (lookup_loc root loc) r.
Proof. intros loc root ->. auto. Qed.

Lemma agree_off_new o sg id ks :
  agree_off (seg_key sg :: ks) VUndef (new_container o sg id).
Proof.
  cbn [agree_off]. split.
  - intros b Hb. unfold independent_keys in Hb.
    apply andb_prop in Hb. destruct Hb as [Hb _].
    apply andb_prop in Hb. destruct Hb as [_ Hlen]. apply negb_true_iff in Hlen.
    unfold new_container.
    destruct (seg_isNaN sg || negb (createArrays o)); cbn; [reflexivity|].
    destruct (array_index b) as [[|j]|]; [reflexivity..|]. now rewrite Hlen.
  - rewrite new_container_empty. apply agree_off_refl.
Qed.

(** The walk of a get or a set changes the model along its path only. *)
Lemma walk_writable_agree m rest :
  is_delete m = false ->
  forall pre loc c s r s1,
    rest <> [] ->
    in_containers (model s) loc = true ->
    ok_along (lookup_loc (model s) loc) rest = true ->
    walk_loop (value_callback m) (pre ++ rest) (List.length pre) rest
              (WStore loc) c s = (r, s1) ->
    agree_off (loc ++ keys rest) (model s) (model s1).
Proof.
  intros Hm. induction rest as [|sg r0 IH]; intros pre loc c s r s1 Hne Hin Hok Hw;
    [now elim Hne|].
  destruct (ok_along_head _ _ _ Hok) as [Hcont Hslot].
  destruct r0 as [|sg' r'].
  - cbn [walk_loop] in Hw. unfold bind at 1 in Hw.
    rewrite value_callback_keep in Hw by (rewrite last_index; apply andb_false_r).
    unfold bind, descend, ret in Hw. cbn [walk_loop] in Hw.
    destruct (descend_in (model s) (WStore loc) sg); injection Hw as _ <-;
      apply agree_off_refl.
  - set (p := pre ++ sg :: sg' :: r') in *.
    assert (Hp : p = (pre ++ [sg]) ++ sg' :: r')
      by (unfold p; now rewrite <- app_assoc).
    assert (Hlen : S (List.length pre) = List.length (pre ++ [sg]))
      by (rewrite length_app; simpl; lia).
    rewrite walk_loop_cons in Hw. cbn [to_this] in Hw. unfold bind at 1 in Hw.
    assert (Hkeys : loc ++ keys (sg :: sg' :: r')
                    = (loc ++ [seg_key sg]) ++ keys (sg' :: r'))
      by (cbn [keys map]; now rewrite <- app_assoc).
    destruct (is_undef (get_prop (lookup_loc (model s) loc) (seg_key sg))) eqn:Hu.
    + set (newc := new_container (modelOptions s) sg' (next_id s)).
      destruct (update_loc_ok (model s) loc
                  (fun c => put_prop c (seg_key sg) newc)
                  (store_prop (lookup_loc (model s) loc) (seg_key sg) newc) Hin)
        as (root' & Hup & Hlk & Hin' & _).
      { now apply put_prop_ok. }
      rewrite (value_callback_create m c loc p (List.length pre) s root' Hm) in Hw.
      2:{ unfold p. rewrite seg_at_middle. cbn [this_read]. rewrite Hu.
          apply inner_index. }
      2:{ unfold p. rewrite seg_at_middle, seg_at_next. exact Hup. }
      replace (seg_at p (List.length pre)) with sg in Hw
        by (unfold p; now rewrite seg_at_middle).
      assert (Hchild : get_prop (lookup_loc root' loc) (seg_key sg) = newc)
        by (rewrite Hlk; now apply get_store_same).
      unfold bind at 1 in Hw. rewrite descend_container in Hw
        by (cbn [model created]; rewrite Hchild; apply new_container_is_container).
      rewrite Hp, Hlen in Hw.
      rewrite Hkeys. eapply agree_off_trans.
      * rewrite <- Hkeys. cbn [keys map].
        apply (agree_off_update loc (model s) (seg_key sg) newc
                 (seg_key sg' :: map seg_key r') root').
        -- rewrite in_containers_app, Hin. cbn [in_containers].
           now rewrite Hcont, Hslot.
        -- rewrite <- Hup. apply update_loc_ext. symmetry. now apply put_prop_ok.
        -- rewrite (is_undef_eq _ Hu). apply agree_off_new.
      * apply (IH (pre ++ [sg]) (loc ++ [seg_key sg]) (Some (TStore loc, sg))
                  (created root' s) r s1).
        -- discriminate.
        -- cbn [model created]. rewrite in_containers_app, Hin'.
           cbn [in_containers]. rewrite Hlk, store_is_container, store_slot_ok.
           now rewrite Hcont, Hslot.
        -- cbn [model created]. rewrite lookup_loc_app. cbn [lookup_loc].
           rewrite Hchild. apply ok_along_new.
        -- exact Hw.
    + destruct (ok_along_child _ _ _ _ Hok Hu) as [Hok' Hc'].
      rewrite value_callback_keep in Hw
        by (unfold p; rewrite seg_at_middle; cbn [this_read]; now rewrite Hu).
      replace (seg_at p (List.length pre)) with sg in Hw
        by (unfold p; now rewrite seg_at_middle).
      unfold bind at 1 in Hw. rewrite descend_container in Hw by exact Hc'.
      rewrite Hp, Hlen in Hw. rewrite Hkeys.
      apply (IH (pre ++ [sg]) (loc ++ [seg_key sg]) (Some (TStore loc, sg)) s r s1).
      * discriminate.
      * rewrite in_containers_app, Hin. cbn [in_containers].
        now rewrite Hcont, Hslot.
      * rewrite lookup_loc_app. exact Hok'.
      * exact Hw.
Qed.

Lemma modelValue_set_agree p v src s res s' :
  p <> [] ->
  ok_along (model s) p = true ->
  modelValue (RPath p) MSet v src s = (res, s') ->
  agree_off (keys p) (model s) (model s').
Proof.
  intros Hne Hok Hset.
  destruct (walk_writable MSet p eq_refl [] [] None s Hne eq_refl Hok)
    as (s1 & w & Hw & Hin1 & Hv1 & Hl1 & Ho1 & Hb1 & Hg1).
  pose proof (walk_writable_agree MSet p eq_refl [] [] None s _ _ Hne eq_refl Hok Hw)
    as Hag1.
  cbn [app List.length lookup_loc] in Hw, Hin1, Hag1.
  destruct (in_containers_last _ p Hne Hin1) as (Hinp & Hcp & Hsp).
  unfold modelValue, bind at 1, catch_nothing_to_delete, modelWalk in Hset.
  rewrite modelPath_of_path, (ok_along_root s p Hne Hok), Hw in Hset.
  unfold bind at 1, this_get at 1 in Hset.
  destruct (negb (strict_eq _ v)).
  - destruct (update_loc_ok (model s1) (keys (removelast p))
                (fun c => put_prop c (seg_key (last p (SStr ""))) v)
                (store_prop (lookup_loc (model s1) (keys (removelast p)))
                            (seg_key (last p (SStr ""))) v) Hinp)
      as (root2 & Hup & Hlk & Hin2 & _).
    { now apply put_prop_ok. }
    assert (Hin2' : in_containers root2 (keys p) = true).
    { rewrite <- (keys_removelast_last p Hne), in_containers_app, Hin2.
      cbn [in_containers]. rewrite Hlk, store_is_container, store_slot_ok.
      now rewrite Hcp, Hsp. }
    unfold bind at 1 in Hset. unfold bind at 1 in Hset.
    unfold this_put at 1 in Hset. rewrite Hup in Hset.
    unfold bind at 1 in Hset.
    rewrite (modelTrigger_in_containers src p RUndef (set_model root2 s1) Hin2' Hne)
      in Hset.
    unfold ret, this_get in Hset. injection Hset as _ <-.
    cbn [model add_log set_model].
    eapply agree_off_trans; [exact Hag1|].
    rewrite <- (keys_removelast_last p Hne).
    apply (agree_off_update (keys (removelast p)) (model s1)
             (seg_key (last p (SStr ""))) v [] root2).
    + now rewrite (keys_removelast_last p Hne).
    + rewrite <- Hup. apply update_loc_ext. symmetry. now apply put_prop_ok.
    + exact I.
  - unfold bind, ret, this_get in Hset. injection Hset as _ <-. exact Hag1.
Qed.

(** X16. In a model without sharing, a set along a writable path of plain
    keys changes the model along that path only: the value at any path of
    plain keys that leaves the path of the set for an independent slot is
    afterwards what it was, whether or not containers had to be created on
    the way; the registry is untouched. *)
Theorem set_leaves_other_paths s ref ctx src p v :
  modelPath (modelOptions s) ref ctx = Ret (RPath p) ->
  p <> [] ->
  plain_path p = true ->
  unshared (model s) = true ->
  ok_along (model s) p = true ->
  exists res s',
    modelSet ref v ctx src s = (Ret res, s')
    /\ (forall q, plain_path q = true -> diverges (keys p) (keys q) = true ->
                  lookup_loc (model s') (keys q) = lookup_loc (model s) (keys q))
    /\ modelBinding s' = modelBinding s.
Proof.
  intros Hr Hne _ _ Hok.
  destruct (modelValue_set p v src s Hne Hok)
    as (s' & Hset & _ & _ & _ & Hb & _).
  eexists. exists s'. split; [|split].
  - unfold modelSet. rewrite (with_path_resolved _ _ _ _ _ Hr). exact Hset.
  - intros q _ Hd. eapply agree_off_lookup; [|exact Hd].
    eapply modelValue_set_agree; eauto.
  - exact Hb.
Qed.

Lemma set_leaves_other_paths_witness :
  exists res s',
    modelSet (RStr "/x/c/d") (VNum (Int 1)) RUndef RUndef store_x = (Ret res, s')
    /\ (forall q, plain_path q = true ->
                  diverges (keys [SStr "x"; SStr "c"; SStr "d"]) (keys q) = true ->
                  lookup_loc (model s') (keys q) = lookup_loc (model store_x) (keys q))
    /\ modelBinding s' = modelBinding store_x.
Proof.
  apply (set_leaves_other_paths store_x (RStr "/x/c/d") RUndef RUndef
           [SStr "x"; SStr "c"; SStr "d"] (VNum (Int 1)));
    solve [reflexivity | discriminate].
Defined.

(** A model that stores one object at two places is not without sharing. *)
Example shared_is_not_unshared :
  unshared (model store_shared) = false /\ unshared (model store_x) = true.
Proof. split; reflexivity. Qed.

(* ===================================================================== *)
(** ** A path through [null] *)

Lemma same_content_refl s : same_content s s.
Proof. repeat split. Qed.

(** The step of the walk on [null]: whatever the callback does to the
    receiver it was given, the descent throws. *)
Lemma walk_on_null m p i sg rest c s :
  is_delete m = false ->
  exists s1,
    walk_loop (value_callback m) p i (sg :: rest) (WPrim VNull) c s
    = (Throw TypeError, s1)
    /\ same_content s s1.
Proof.
  intros Hm. rewrite walk_loop_cons. cbn [to_this].
  unfold bind at 1, value_callback, bind at 1, this_get. cbn [this_read assoc_get get_prop is_undef andb].
  destruct (i <? List.length p - 1)%nat.
  - rewrite Hm. unfold bind at 1, fresh. unfold this_put. cbn [get_prop is_undef].
    unfold bind, ret, descend, descend_in. eexists. split; [reflexivity|].
    repeat split.
  - unfold bind, ret, descend, descend_in. exists s. split; [reflexivity|].
    apply same_content_refl.
Qed.

Lemma walk_into_null m a :
  is_delete m = false ->
  forall pre loc sg rest c s,
    rest <> [] ->
    in_containers (model s) (loc ++ keys (a ++ [sg])) = true ->
    lookup_loc (model s) (loc ++ keys (a ++ [sg])) = VNull ->
    exists s1,
      walk_loop (value_callback m) (pre ++ a ++ sg :: rest) (List.length pre)
                (a ++ sg :: rest) (WStore loc) c s
      = (Throw TypeError, s1)
      /\ same_content s s1.
Proof.
  intros Hm. induction a as [|x a IH]; intros pre loc sg rest c s Hne Hin Hnull.
  - cbn [app keys map] in *. destruct rest as [|sg2 rest2]; [now elim Hne|].
    rewrite lookup_loc_app in Hnull. cbn [lookup_loc] in Hnull.
    rewrite walk_loop_cons. cbn [to_this]. unfold bind at 1.
    rewrite value_callback_keep
      by (rewrite seg_at_middle; cbn [this_read]; now rewrite Hnull).
    unfold bind at 1, descend, descend_in. rewrite Hnull. cbn [is_container].
    apply walk_on_null. exact Hm.
  - assert (Hc : is_container (get_prop (lookup_loc (model s) loc) (seg_key x)) = true).
    { rewrite in_containers_app in Hin.
      destruct a; cbn [app keys map in_containers] in Hin;
        repeat match goal with
               | X : _ && _ = true |- _ => apply andb_prop in X; destruct X
               end; assumption. }
    cbn [app]. rewrite walk_loop_cons. cbn [to_this]. unfold bind at 1.
    rewrite value_callback_keep
      by (rewrite seg_at_middle; cbn [this_read];
          now rewrite (container_not_undef _ Hc)).
    unfold bind at 1. rewrite descend_container by exact Hc.
    replace (pre ++ x :: a ++ sg :: rest) with ((pre ++ [x]) ++ a ++ sg :: rest)
      by now rewrite <- app_assoc.
    replace (S (List.length pre)) with (List.length (pre ++ [x]))
      by (rewrite length_app; simpl; lia).
    apply IH; auto.
    + cbn [app keys map] in Hin. now rewrite <- app_assoc.
    + cbn [app keys map] in Hnull. now rewrite <- app_assoc.
Qed.

(** X17. A path that runs through a [null] stored in the model: a get and a
    set raise [TypeError] (the walk descends into [null]) and leave the
    model, the registry and the log as they were. *)
Theorem path_through_null_throws s ref ctx src v a sg rest :
  modelPath (modelOptions s) ref ctx = Ret (RPath (a ++ sg :: rest)) ->
  rest <> [] ->
  in_containers (model s) (keys (a ++ [sg])) = true ->
  lookup_loc (model s) (keys (a ++ [sg])) = VNull ->
  (exists s1, modelGet ref ctx s = (Throw TypeError, s1) /\ same_content s s1)
  /\ (exists s1, modelSet ref v ctx src s = (Throw TypeError, s1) /\ same_content s s1).
Proof.
  intros Hr Hne Hin Hnull.
  assert (Hroot : model_root s = WStore []).
  { unfold model_root. destruct a; cbn [app keys map in_containers] in Hin;
      repeat match goal with
             | X : _ && _ = true |- _ => apply andb_prop in X; destruct X
             end;
      match goal with X : is_container (model s) = true |- _ => now rewrite X end. }
  split.
  - destruct (walk_into_null MGet a eq_refl [] [] sg rest None s Hne Hin Hnull)
      as (s1 & Hw & Hs).
    exists s1. split; [|exact Hs].
    unfold modelGet. rewrite (with_path_resolved _ _ _ _ _ Hr).
    unfold modelValue, bind, catch_nothing_to_delete, modelWalk.
    rewrite modelPath_of_path, Hroot. cbn [app List.length] in Hw. now rewrite Hw.
  - destruct (walk_into_null MSet a eq_refl [] [] sg rest None s Hne Hin Hnull)
      as (s1 & Hw & Hs).
    exists s1. split; [|exact Hs].
    unfold modelSet. rewrite (with_path_resolved _ _ _ _ _ Hr).
    unfold modelValue, bind, catch_nothing_to_delete, modelWalk.
    rewrite modelPath_of_path, Hroot. cbn [app List.length] in Hw. now rewrite Hw.
Qed.

Lemma path_through_null_throws_witness :
  (exists s1, modelGet (RStr "/a/b/c") RUndef store_null = (Throw TypeError, s1)
              /\ same_content store_null s1)
  /\ (exists s1, modelSet (RStr "/a/b/c") (VNum (Int 1)) RUndef RUndef store_null
                 = (Throw TypeError, s1)
                 /\ same_content store_null s1).
Proof.
  apply (path_through_null_throws store_null (RStr "/a/b/c") RUndef RUndef (VNum (Int 1))
           [] (SStr "a") [SStr "b"; SStr "c"]); solve [reflexivity | discriminate].
Defined.

(* ===================================================================== *)
(** ** Elements that write and that are bound *)

(** X18. [$.fn.modelSet] with [excludeSelf] on one element whose path is
    a writable path of plain keys and whose value changes: the value is
    stored at the path of the element, and every observer registered at a
    prefix of that path is notified, in order, but for the element
    itself. *)
Theorem fn_modelSet_excludes_self s e ctx p v :
  modelPath (modelOptions s) (RElem e) ctx = Ret (RPath p) ->
  p <> [] ->
  plain_path p = true ->
  ok_along (model s) p = true ->
  strict_eq (lookup_loc (model s) (keys p)) v = false ->
  exists s',
    fn_modelSet [e] v ctx true s = (Ret tt, s')
    /\ lookup_loc (model s') (keys p) = v
    /\ log s'
       = log s
         ++ flat_map
              (fun i =>
                 match binding_get (path_toString (firstn (S i) p)) (modelBinding s) with
                 | Some os =>
                     map (notification_for (change_at (model s') p i))
                         (filter (fun b => match b with
                                           | ObsFun _ => true
                                           | ObsRef r => negb (ref_same r (RElem e))
                                           end) os)
                 | None => []
                 end)
              (seq 0 (List.length p)).
Proof.
  intros Hr Hne _ Hok Hch.
  destruct (modelValue_set p v (RElem e) s Hne Hok)
    as (s' & Hset & _ & Hlk & Hlog & Hb & _).
  rewrite Hch in Hset, Hlk, Hlog.
  exists s'. split; [|split].
  - unfold fn_modelSet. cbn [each]. unfold bind at 1. unfold bind at 1.
    unfold modelSet. rewrite (with_path_resolved _ _ _ _ _ Hr), Hset. reflexivity.
  - exact Hlk.
  - rewrite Hlog, dispatch_filtered, Hb. reflexivity.
Qed.

Lemma fn_modelSet_excludes_self_witness :
  exists s',
    fn_modelSet [input_name] (VStr "Ann") (RStr "/user") true bound_input = (Ret tt, s')
    /\ lookup_loc (model s') (keys [SStr "user"; SStr "name"]) = VStr "Ann"
    /\ log s'
       = log bound_input
         ++ flat_map
              (fun i =>
                 match binding_get (path_toString (firstn (S i) [SStr "user"; SStr "name"]))
                                   (modelBinding bound_input) with
                 | Some os =>
                     map (notification_for
                            (change_at (model s') [SStr "user"; SStr "name"] i))
                         (filter (fun b => match b with
                                           | ObsFun _ => true
                                           | ObsRef r => negb (ref_same r (RElem input_name))
                                           end) os)
                 | None => []
                 end)
              (seq 0 (List.length [SStr "user"; SStr "name"])).
Proof.
  apply (fn_modelSet_excludes_self bound_input input_name (RStr "/user")
           [SStr "user"; SStr "name"] (VStr "Ann"));
    solve [reflexivity | discriminate].
Defined.

Example fn_modelSet_self_log :
  map (fun n => match n with Called f _ => inl f | Updated r _ => inr r end)
      (log (exec (fn_modelSet [input_name] (VStr "Ann") (RStr "/user") true) bound_input))
  = [inl 3%nat].
Proof. reflexivity. Qed.

Lemma with_ref_one o e a :
  getAttribute (el_attrs e) (refAttr o) = Some a -> with_ref o [e] = [e].
Proof. intros H. unfold with_ref. cbn. now rewrite H. Qed.

(** X19. [$.fn.modelUnbind] does not pass its context on.  For an element
    that carries the reference attribute, bound by [$.fn.modelBind] with a
    context: when the path of the element under that context has another
    canonical string than its path without context, the unbind removes the
    entry of the latter and the element stays bound; when the two canonical
    strings are the same, the unbind removes the whole entry, with every
    other observer bound there. *)
Theorem fn_modelUnbind_ignores_context s e a ctx p p0 :
  getAttribute (el_attrs e) (refAttr (modelOptions s)) = Some a ->
  modelPath (modelOptions s) (RElem e) ctx = Ret (RPath p) ->
  modelPath (modelOptions s) (RElem e) RUndef = Ret (RPath p0) ->
  exists s',
    (fn_modelBind [e] ctx ;;; fn_modelUnbind [e] ctx) s = (Ret tt, s')
    /\ model s' = model s
    /\ (path_toString p <> path_toString p0 ->
        modelGetBound (RElem e) ctx s'
        = (Ret (Some (match binding_get (path_toString p) (modelBinding s) with
                      | Some os => os
                      | None => []
                      end ++ [ObsRef (RElem e)])), s'))
    /\ (path_toString p = path_toString p0 ->
        modelGetBound (RElem e) ctx s' = (Ret None, s')).
Proof.
  intros Ha Hr Hr0.
  set (s1 := set_binding (binding_push (path_toString p) (ObsRef (RElem e))
                                       (modelBinding s)) s).
  set (s2 := set_binding (binding_delete (path_toString p0) (modelBinding s1)) s1).
  exists s2. split; [|split; [reflexivity|split]].
  - unfold bind at 1, fn_modelBind. rewrite (with_ref_one _ _ _ Ha).
    cbn [each]. unfold bind at 1, modelBind, bind at 1.
    rewrite (binding_key_resolved _ _ _ _ Hr). fold s1. unfold ret.
    unfold fn_modelUnbind. change (modelOptions s1) with (modelOptions s).
    rewrite (with_ref_one _ _ _ Ha). cbn [each].
    unfold bind at 1, modelUnbind, bind at 1.
    rewrite (binding_key_resolved (RElem e) RUndef s1 p0) by exact Hr0.
    reflexivity.
  - intros Hne. unfold modelGetBound, bind.
    rewrite (binding_key_resolved (RElem e) ctx s2 p) by exact Hr.
    unfold s2, s1. cbn [modelBinding set_binding].
    rewrite binding_get_delete_other by (now apply String.eqb_neq).
    now rewrite binding_get_push_same.
  - intros Heq. unfold modelGetBound, bind.
    rewrite (binding_key_resolved (RElem e) ctx s2 p) by exact Hr.
    unfold s2. cbn [modelBinding set_binding]. rewrite Heq.
    now rewrite binding_get_delete_same.
Qed.

Lemma fn_modelUnbind_ignores_context_witness :
  exists s',
    (fn_modelBind [input_name] (RStr "/user") ;;;
     fn_modelUnbind [input_name] (RStr "/user")) initial_state = (Ret tt, s')
    /\ model s' = model initial_state
    /\ (path_toString [SStr "user"; SStr "name"] <> path_toString [SStr ""; SStr "name"] ->
        modelGetBound (RElem input_name) (RStr "/user") s'
        = (Ret (Some (match binding_get (path_toString [SStr "user"; SStr "name"])
                              (modelBinding initial_state) with
                      | Some os => os
                      | None => []
                      end ++ [ObsRef (RElem input_name)])), s'))
    /\ (path_toString [SStr "user"; SStr "name"] = path_toString [SStr ""; SStr "name"] ->
        modelGetBound (RElem input_name) (RStr "/user") s' = (Ret None, s')).
Proof.
  apply (fn_modelUnbind_ignores_context initial_state input_name "name" (RStr "/user")
           [SStr "user"; SStr "name"] [SStr ""; SStr "name"]); reflexivity.
Defined.

(* ===================================================================== *)
(** ** What a get leaves alone, and empty sequences *)

(** X20. In a model without sharing, a get along a writable path of plain
    keys may create the containers that are absent on the way, but changes
    the model along its own path only: the value at any path of plain keys
    that leaves it for an independent slot is afterwards what it was. *)
Theorem get_leaves_other_paths s ref ctx p :
  modelPath (modelOptions s) ref ctx = Ret (RPath p) ->
  p <> [] ->
  plain_path p = true ->
  unshared (model s) = true ->
  ok_along (model s) p = true ->
  exists s',
    modelGet ref ctx s = (Ret (lookup_loc (model s) (keys p)), s')
    /\ (forall q, plain_path q = true -> diverges (keys p) (keys q) = true ->
                  lookup_loc (model s') (keys q) = lookup_loc (model s) (keys q)).
Proof.
  intros Hr Hne _ _ Hok.
  destruct (walk_writable MGet p eq_refl [] [] None s Hne eq_refl Hok)
    as (s1 & w & Hw & Hin1 & Hv1 & Hl1 & _).
  pose proof (walk_writable_agree MGet p eq_refl [] [] None s _ _ Hne eq_refl Hok Hw)
    as Hag.
  cbn [app List.length lookup_loc] in Hw, Hv1, Hl1, Hag.
  exists s1. split.
  - unfold modelGet. rewrite (with_path_resolved _ _ _ _ _ Hr).
    unfold modelValue, bind, catch_nothing_to_delete, modelWalk.
    rewrite modelPath_of_path, (ok_along_root s p Hne Hok), Hw.
    unfold ret. now rewrite Hv1, Hl1.
  - intros q _ Hd. eapply agree_off_lookup; eauto.
Qed.

Lemma get_leaves_other_paths_witness :
  exists s',
    modelGet (RStr "/x/y/z") RUndef store_x
    = (Ret (lookup_loc (model store_x) (keys [SStr "x"; SStr "y"; SStr "z"])), s')
    /\ (forall q, plain_path q = true ->
                  diverges (keys [SStr "x"; SStr "y"; SStr "z"]) (keys q) = true ->
                  lookup_loc (model s') (keys q) = lookup_loc (model store_x) (keys q)).
Proof.
  apply (get_leaves_other_paths store_x (RStr "/x/y/z") RUndef
           [SStr "x"; SStr "y"; SStr "z"]);
    solve [reflexivity | discriminate].
Defined.

(** X21. On a jQuery sequence without elements, [modelPath] and
    [modelGet] return [undefined], [modelGetAll] returns an empty list, and
    [modelSet], [modelDelete], [modelBind] and [modelUnbind] do nothing:
    the model, the registry and the log stay as they were and nothing is
    raised. *)
Theorem empty_sequence_operations s ctx v b :
  fn_modelPath (modelOptions s) [] ctx = Ret RUndef
  /\ fn_modelGet [] ctx s = (Ret VUndef, s)
  /\ (exists s', fn_modelGetAll [] ctx s = (Ret (VArr (next_id s) [] []), s')
                 /\ same_content s s')
  /\ fn_modelSet [] v ctx b s = (Ret tt, s)
  /\ fn_modelDelete [] ctx s = (Ret tt, s)
  /\ fn_modelBind [] ctx s = (Ret tt, s)
  /\ fn_modelUnbind [] ctx s = (Ret tt, s).
Proof.
  repeat split. eexists. repeat split.
Qed.

(* ===================================================================== *)
(** ** Defaults always notify *)

(** X22. Every [$.modelDefaults] with an object of defaults along a
    writable path dispatches once along that path, also when the merge
    gives the store nothing new: the merged object is a new object, never
    identical to the stored one. *)
Theorem defaults_always_dispatch s ref p i fs :
  modelPath (modelOptions s) ref RUndef = Ret (RPath p) ->
  p <> [] ->
  ok_along (model s) p = true ->
  strict_eq (lookup_loc (model s) (keys p)) (VObj (next_id s) []) = false ->
  exists s',
    modelDefaults ref (VObj i fs) s = (Ret tt, s')
    /\ log s' = log s ++ dispatch s' RUndef p
    /\ modelBinding s' = modelBinding s.
Proof.
  intros Hr Hne Hok Hfresh.
  set (cur := lookup_loc (model s) (keys p)) in *.
  set (s0 := snd (fresh s)).
  assert (Hr0 : modelPath (modelOptions s0) ref RUndef = Ret (RPath p)) by exact Hr.
  destruct (modelValue_get_writable p VUndef RUndef s0 Hne Hok)
    as (s1 & Hget & Hin1 & Hl1 & Ho1 & Hb1 & Hg1).
  change (lookup_loc (model s0) (keys p)) with cur in Hget, Hl1.
  assert (Hr1 : modelPath (modelOptions s1) ref RUndef = Ret (RPath p))
    by (now rewrite Ho1).
  set (merged := VObj (next_id s) (extend [] [VObj i fs; cur])).
  destruct (modelValue_set p merged RUndef s1 Hne (in_containers_ok_along p _ Hin1))
    as (s' & Hset & _ & _ & Hlog & Hb & _).
  rewrite Hl1 in Hset, Hlog.
  assert (Hne' : strict_eq cur merged = false)
    by (unfold merged; now rewrite (strict_eq_object_fields cur _ _ [])).
  rewrite Hne' in Hset, Hlog.
  exists s'. split; [|split].
  - unfold modelDefaults, bind at 1. cbn [fresh]. fold s0.
    unfold bind at 1, modelGet. rewrite (with_path_resolved _ _ _ _ _ Hr0), Hget.
    unfold bind, modelSet. rewrite (with_path_resolved _ _ _ _ _ Hr1).
    fold merged. rewrite Hset. reflexivity.
  - rewrite Hlog, Hg1. reflexivity.
  - rewrite Hb, Hb1. reflexivity.
Qed.

Lemma defaults_always_dispatch_witness :
  exists s',
    modelDefaults (RStr "/x") (VObj 9 [("k", VNum (Int 1))]) store_x = (Ret tt, s')
    /\ log s' = log store_x ++ dispatch s' RUndef [SStr "x"]
    /\ modelBinding s' = modelBinding store_x.
Proof.
  apply (defaults_always_dispatch store_x (RStr "/x") [SStr "x"] 9 [("k", VNum (Int 1))]).
  - reflexivity.
  - discriminate.
  - reflexivity.
  - reflexivity.
Defined.

(* ===================================================================== *)
(** ** Templates with several placeholders *)

Lemma no_open_app a b : no_open (a ++ b) = no_open a && no_open b.
Proof. unfold no_open. apply forallb_app. Qed.

(** The matches of a template that starts with a well-formed placeholder
    after a text without an opening brace. *)
Lemma placeholders_first pre m rest :
  no_open pre = true -> no_brace m = true -> m <> [] ->
  placeholders None (pre ++ placeholder_text m ++ rest)
  = m :: placeholders None rest.
Proof.
  intros Hpre Hm Hne. rewrite placeholders_skip by assumption.
  unfold placeholder_text. cbn [app placeholders].
  change (is_open "{"%char) with true. cbv iota.
  rewrite <- app_assoc. cbn [app].
  rewrite placeholders_inside by assumption.
  rewrite app_nil_r, rev_involutive.
  destruct (rev m) eqn:E; [|reflexivity].
  apply (f_equal (@rev ascii)) in E. rewrite rev_involutive in E. now elim Hne.
Qed.

(** A text without an opening brace before the string searched does not
    change where a placeholder is found first. *)
Lemma find_first_skip pre m hay :
  no_open pre = true ->
  find_first (placeholder_text m) (pre ++ hay)
  = match find_first (placeholder_text m) hay with
    | Some (before, after) => Some (pre ++ before, after)
    | None => None
    end.
Proof.
  intros Hpre. induction pre as [|c r IH].
  - cbn [app]. now destruct (find_first (placeholder_text m) hay) as [[b a]|].
  - cbn [no_open forallb] in Hpre. apply andb_prop in Hpre.
    destruct Hpre as [Hc Hr]. apply negb_true_iff in Hc. unfold is_open in Hc.
    cbn [app find_first]. unfold placeholder_text at 1. cbn [prefixb].
    rewrite Ascii.eqb_sym, Hc. cbn [andb].
    fold (placeholder_text m). rewrite (IH Hr).
    now destruct (find_first (placeholder_text m) hay) as [[b a]|].
Qed.

(** One turn of the loop. *)
Lemma sub_loop_cons cb ctx m rest result s :
  sub_loop cb ctx (m :: rest) result s
  = match modelGet (RStr (string_of_list_ascii m)) ctx s with
    | (Ret v, s') =>
        match to_string (cb v) with
        | Ret str =>
            match replace_first result (placeholder_text m) (chars str) with
            | Ret result' => sub_loop cb ctx rest result' s'
            | Throw e => (Throw e, s')
            | Unmodelled => (Unmodelled, s')
            end
        | Throw e => (Throw e, s')
        | Unmodelled => (Unmodelled, s')
        end
    | (Throw e, s') => (Throw e, s')
    | (Unmodelled, s') => (Unmodelled, s')
    end.
Proof.
  cbn [sub_loop]. unfold bind, lift.
  destruct (modelGet (RStr (string_of_list_ascii m)) ctx s) as [[v| |] s'];
    try reflexivity;
    destruct (to_string (cb v)) as [str| |]; try reflexivity;
    destruct (replace_first result (placeholder_text m) (chars str)); reflexivity.
Qed.

(** The loop on a result that starts with a text without an opening brace
    leaves that text where it is. *)
Lemma sub_loop_prefix cb ctx ms :
  forall pre result s,
    no_open pre = true ->
    plain_values cb ctx ms s = true ->
    sub_loop cb ctx ms (pre ++ result) s
    = match sub_loop cb ctx ms result s with
      | (Ret out, s') => (Ret (pre ++ out), s')
      | other => other
      end.
Proof.
  induction ms as [|m rest IH]; intros pre result s Hpre Hpl; [reflexivity|].
  rewrite !sub_loop_cons. cbn [plain_values] in Hpl.
  destruct (modelGet (RStr (string_of_list_ascii m)) ctx s) as [[v| |] s'];
    [|reflexivity|reflexivity].
  destruct (to_string (cb v)) as [str| |]; [|reflexivity|reflexivity].
  apply andb_prop in Hpl. destruct Hpl as [Hd Hrest].
  unfold replace_first.
  rewrite (find_first_skip _ _ _ Hpre).
  destruct (find_first (placeholder_text m) result) as [[b a]|].
  - rewrite !(expand_no_dollar _ _ _ _ Hd).
    rewrite <- app_assoc. now apply IH.
  - now apply IH.
Qed.

(** X23. [$.modelSub] takes the placeholders from left to right.  When the
    value of the first one converts to a string with no dollar sign and no
    opening brace, and no later value brings a dollar sign, the result is
    the text before the first placeholder, that string, and what
    [$.modelSub] makes of the rest of the template in the state the first
    get leaves. *)
Theorem modelSub_first_placeholder pre m rest cb ctx s v s' str :
  no_open (chars pre) = true ->
  no_brace (chars m) = true ->
  m <> "" ->
  modelGet (RStr m) ctx s = (Ret v, s') ->
  to_string (match cb with Some f => f | None => fun x => x end v) = Ret str ->
  no_dollar (chars str) = true ->
  no_open (chars str) = true ->
  plain_values (match cb with Some f => f | None => fun x => x end) ctx
               (placeholders None (chars rest)) s' = true ->
  modelSub (pre ++ "{" ++ m ++ "}" ++ rest) cb ctx s
  = prepend (pre ++ str) (modelSub rest cb ctx s').
Proof.
  intros Hpre Hm Hne Hget Hstr Hd Ho Hpl.
  assert (Hchars : chars (pre ++ "{" ++ m ++ "}" ++ rest)
                   = chars pre ++ placeholder_text (chars m) ++ chars rest).
  { rewrite !chars_app. unfold placeholder_text. cbn [chars app].
    now rewrite <- app_assoc. }
  assert (Hmne : chars m <> []) by (destruct m; [now elim Hne | discriminate]).
  unfold modelSub. rewrite Hchars.
  rewrite (placeholders_first _ _ _ Hpre Hm Hmne).
  unfold bind. rewrite sub_loop_cons, string_of_chars, Hget, Hstr.
  unfold replace_first.
  rewrite (find_first_after _ _ _ Hpre), (expand_no_dollar _ _ _ _ Hd).
  rewrite app_assoc, sub_loop_prefix;
    [| now rewrite no_open_app, Hpre, Ho | exact Hpl].
  unfold prepend.
  destruct (sub_loop _ ctx (placeholders None (chars rest)) (chars rest) s')
    as [[out| |] s'']; try reflexivity.
  unfold ret. f_equal. f_equal.
  rewrite <- (chars_of_list out) at 1. now rewrite <- !chars_app, string_of_chars.
Qed.

Lemma modelSub_first_placeholder_witness :
  modelSub ("Page " ++ "{" ++ "/pager/page" ++ "}" ++ " of {/pager/pages}")
           None RUndef store_pager
  = prepend ("Page " ++ "2") (modelSub " of {/pager/pages}" None RUndef store_pager).
Proof.
  apply (modelSub_first_placeholder "Page " "/pager/page" " of {/pager/pages}"
           None RUndef store_pager (VNum (Int 2)) store_pager "2");
    solve [reflexivity | discriminate].
Defined.

(** X24. The replacement is made in the result so far, at the first place
    the text of the placeholder is found.  When the value of the first
    placeholder is the text of the second one, it is this substituted text
    that the second value replaces; the second placeholder of the template
    stays in the result. *)
Theorem modelSub_value_is_replaced pre m1 mid m2 post cb ctx s v1 s1 v2 s2 str2 :
  no_open (chars pre) = true ->
  no_brace (chars m1) = true -> m1 <> "" ->
  no_open (chars mid) = true ->
  no_brace (chars m2) = true -> m2 <> "" ->
  no_dollar (chars m2) = true ->
  no_open (chars post) = true ->
  modelGet (RStr m1) ctx s = (Ret v1, s1) ->
  to_string (match cb with Some f => f | None => fun x => x end v1)
  = Ret ("{" ++ m2 ++ "}")%string ->
  modelGet (RStr m2) ctx s1 = (Ret v2, s2) ->
  to_string (match cb with Some f => f | None => fun x => x end v2) = Ret str2 ->
  no_dollar (chars str2) = true ->
  modelSub (pre ++ "{" ++ m1 ++ "}" ++ mid ++ "{" ++ m2 ++ "}" ++ post) cb ctx s
  = (Ret (pre ++ str2 ++ mid ++ "{" ++ m2 ++ "}" ++ post)%string, s2).
Proof.
  intros Hpre Hm1 Hne1 Hmid Hm2 Hne2 Hd2 Hpost Hg1 Hs1 Hg2 Hs2 Hd.
  assert (Hchars : chars (pre ++ "{" ++ m1 ++ "}" ++ mid ++ "{" ++ m2 ++ "}" ++ post)
                   = chars pre ++ placeholder_text (chars m1)
                       ++ (chars mid ++ placeholder_text (chars m2) ++ chars post)).
  { rewrite !chars_app. unfold placeholder_text. cbn [chars app].
    rewrite <- !app_assoc. reflexivity. }
  assert (Hc1 : chars m1 <> []) by (destruct m1; [now elim Hne1 | discriminate]).
  assert (Hc2 : chars m2 <> []) by (destruct m2; [now elim Hne2 | discriminate]).
  assert (Htext : chars ("{" ++ m2 ++ "}") = placeholder_text (chars m2)).
  { rewrite !chars_app. reflexivity. }
  assert (Hdt : no_dollar (placeholder_text (chars m2)) = true).
  { unfold placeholder_text, no_dollar. cbn [forallb].
    rewrite forallb_app. fold (no_dollar (chars m2)). now rewrite Hd2. }
  unfold modelSub. rewrite Hchars.
  rewrite (placeholders_first _ _ _ Hpre Hm1 Hc1),
          (placeholders_single _ _ _ Hmid Hm2 Hc2 Hpost).
  unfold bind. rewrite sub_loop_cons, string_of_chars, Hg1, Hs1.
  unfold replace_first at 1.
  rewrite (find_first_after _ _ _ Hpre), Htext, (expand_no_dollar _ _ _ _ Hdt).
  rewrite sub_loop_cons, string_of_chars, Hg2, Hs2.
  unfold replace_first.
  rewrite (find_first_after _ _ _ Hpre), (expand_no_dollar _ _ _ _ Hd).
  cbn [sub_loop]. unfold ret. f_equal. f_equal.
  rewrite <- (string_of_chars (pre ++ str2 ++ mid ++ "{" ++ m2 ++ "}" ++ post)).
  f_equal. rewrite !chars_app. unfold placeholder_text. cbn [chars app].
  now rewrite <- !app_assoc.
Qed.

Lemma modelSub_value_is_replaced_witness :
  modelSub ("" ++ "{" ++ "/a" ++ "}" ++ " and " ++ "{" ++ "/b" ++ "}" ++ "") None RUndef
           store_ab
  = (Ret ("" ++ "B" ++ " and " ++ "{" ++ "/b" ++ "}" ++ "")%string, store_ab).
Proof.
  apply (modelSub_value_is_replaced "" "/a" " and " "/b" "" None RUndef store_ab
           (VStr "{/b}") store_ab (VStr "B") store_ab "B");
    solve [reflexivity | discriminate].
Defined.
